(** * libprobe: a shallow embedding of the probe runtime

    The development follows the layout of the Python package:

    - [Py]        the few Python notions shared by every module
                  (dynamically typed values, truthiness, exceptions);
    - [Config]    [libprobe/config.py]: [encrypt], [decrypt], [get_config];
    - [Protocol]  [libprobe/net/protocol.py]: the request table of [Protocol];
    - [Probe]     [libprobe/probe.py]: [MAX_PACKAGE_SIZE], [send],
                  [_read_local_config], the three push handlers,
                  [_set_new_checks_config], [_asset_config] and one iteration
                  of [_run_check_loop].

    Definitions come first; the theorems about them follow, in
    [ConfigFacts], [ProtocolFacts] and [ProbeFacts]. *)

From Stdlib Require Import ZArith String List Bool Lia Sorted.
From stdpp Require Import base option gmap sets list strings pretty.

Local Open Scope string_scope.
Local Open Scope list_scope.
Local Open Scope Z_scope.

(* ===================================================================== *)
(** * Python values and exceptions                                        *)
(* ===================================================================== *)

Module Py.

(** The value tree produced by [yaml.safe_load] and carried by packages:
    scalars, byte strings, lists and dicts.  A [str] is represented by the
    bytes of its UTF-8 encoding, so [str.encode] gives those bytes and
    [bytes.decode] takes bytes that are valid UTF-8 ([utf8] below) to the
    [str] they encode, and raises on others.  Dict keys
    are strings (every key the code looks at is a string literal).  A
    [float] is kept as a fixed-point number, in millionths. *)
#[warnings="-register-all"]
Inductive value : Type :=
| VNone
| VBool (b : bool)
| VInt (n : Z)
| VFloat (micros : Z)
| VStr (s : string)
| VBytes (b : list Byte.byte)
| VList (items : list value)
| VDict (entries : list (string * value)).

Definition dict : Type := list (string * value).

(** The exceptions that the modelled code raises. *)
Inductive exn : Type :=
| AssertionError
| AttributeError
| TypeError
| InvalidToken
| YAMLError
| TimeoutError (pid : Z)
| KeyError
| UnicodeDecodeError.

Inductive result (A : Type) : Type :=
| Ok (a : A)
| Raise (e : exn).
Arguments Ok {A} a.
Arguments Raise {A} e.

Definition bind {A B} (r : result A) (k : A → result B) : result B :=
  match r with
  | Ok a => k a
  | Raise e => Raise e
  end.

(** [bool(v)]: the truth value used by [if v:]. *)
Definition truthy (v : value) : bool :=
  match v with
  | VNone => false
  | VBool b => b
  | VInt n => negb (n =? 0)
  | VFloat x => negb (x =? 0)
  | VStr s => negb (String.eqb s "")
  | VBytes [] => false
  | VBytes (_ :: _) => true
  | VList [] => false
  | VList (_ :: _) => true
  | VDict [] => false
  | VDict (_ :: _) => true
  end.

(** [isinstance(v, dict)] and friends. *)
Definition is_dict (v : value) : bool :=
  match v with VDict _ => true | _ => false end.

(** [d.get(k)]: the value stored under [k], Python's [None] when absent. *)
Fixpoint dict_lookup (d : dict) (k : string) : option value :=
  match d with
  | [] => None
  | (k', v) :: rest => if String.eqb k' k then Some v else dict_lookup rest k
  end.

Definition dict_get (d : dict) (k : string) : value :=
  default VNone (dict_lookup d k).

(** [v == n] for an [int] [n].  Python compares [bool] and [float]
    numerically ([True == 1], [1.0 == 1]); every other kind of value
    differs from an [int]. *)
Definition eq_int (v : value) (n : Z) : bool :=
  match v with
  | VInt m => m =? n
  | VBool b => Z.b2z b =? n
  | VFloat x => x =? n * 1000000
  | _ => false
  end.

(** [n in items] for a list [items]. *)
Definition int_in (n : Z) (items : list value) : bool :=
  existsb (fun v => eq_int v n) items.

(** [for x in v]: the items a [for] loop visits, [None] when [v] is not
    iterable (iterating a number, a [bool] or [None] raises [TypeError]).
    A dict yields its keys, a [str] its characters, [bytes] its numbers. *)
Definition iterate (v : value) : option (list value) :=
  match v with
  | VList items => Some items
  | VDict entries => Some (map (fun kv => VStr (fst kv)) entries)
  | VStr s =>
      Some (map (fun c => VStr (String c EmptyString)) (list_ascii_of_string s))
  | VBytes b => Some (map (fun x => VInt (Z.of_N (Byte.to_N x))) b)
  | VNone | VBool _ | VInt _ | VFloat _ => None
  end.

(** The byte strings that the UTF-8 codec decodes: every character is
    one byte below [0x80], or a lead byte followed by one, two or three
    continuation bytes, without overlong forms, surrogates or code points
    above [U+10FFFF].  [need] is the number of continuation bytes that are
    still to come, [lo] and [hi] bound the next of them. *)
Fixpoint utf8_from (need : nat) (lo hi : N) (b : list Byte.byte) : bool :=
  match b with
  | [] => match need with O => true | S _ => false end
  | x :: rest =>
      let n := Byte.to_N x in
      match need with
      | O =>
          if (n <=? 0x7F)%N then utf8_from 0 0x80 0xBF rest
          else if ((0xC2 <=? n) && (n <=? 0xDF))%N then utf8_from 1 0x80 0xBF rest
          else if (n =? 0xE0)%N then utf8_from 2 0xA0 0xBF rest
          else if ((0xE1 <=? n) && (n <=? 0xEC))%N then utf8_from 2 0x80 0xBF rest
          else if (n =? 0xED)%N then utf8_from 2 0x80 0x9F rest
          else if ((0xEE <=? n) && (n <=? 0xEF))%N then utf8_from 2 0x80 0xBF rest
          else if (n =? 0xF0)%N then utf8_from 3 0x90 0xBF rest
          else if ((0xF1 <=? n) && (n <=? 0xF3))%N then utf8_from 3 0x80 0xBF rest
          else if (n =? 0xF4)%N then utf8_from 3 0x80 0x8F rest
          else false
      | S need' =>
          if ((lo <=? n) && (n <=? hi))%N then utf8_from need' 0x80 0xBF rest
          else false
      end
  end.

Definition utf8 (b : list Byte.byte) : bool := utf8_from 0 0x80 0xBF b.

(** Every [str] in the tree is a [str]: its bytes are the UTF-8 encoding
    of a text.  The values of a Python program all are. *)
Fixpoint is_text (v : value) : bool :=
  match v with
  | VStr s => utf8 (list_byte_of_string s)
  | VList items => forallb is_text items
  | VDict entries =>
      forallb (fun kx => match kx with (_, x) => is_text x end) entries
  | _ => true
  end.

(** Induction over value trees, with the induction hypothesis for every
    item of a list and every value of a dict. *)
Section ValueInd.
Variable P : value → Prop.
Hypothesis HNone : P VNone.
Hypothesis HBool : ∀ b, P (VBool b).
Hypothesis HInt : ∀ n, P (VInt n).
Hypothesis HFloat : ∀ x, P (VFloat x).
Hypothesis HStr : ∀ s, P (VStr s).
Hypothesis HBytes : ∀ b, P (VBytes b).
Hypothesis HList : ∀ items, Forall P items → P (VList items).
Hypothesis HDict : ∀ entries, Forall (fun kx => P (snd kx)) entries → P (VDict entries).

Fixpoint value_tree_ind (v : value) : P v :=
  match v with
  | VNone => HNone
  | VBool b => HBool b
  | VInt n => HInt n
  | VFloat x => HFloat x
  | VStr s => HStr s
  | VBytes b => HBytes b
  | VList items =>
      HList items
        ((fix go (l : list value) : Forall P l :=
            match l with
            | [] => @List.Forall_nil _ _
            | x :: r => @List.Forall_cons _ _ x r (value_tree_ind x) (go r)
            end) items)
  | VDict entries =>
      HDict entries
        ((fix go (l : list (string * value)) : Forall (fun kx => P (snd kx)) l :=
            match l with
            | [] => @List.Forall_nil _ _
            | kx :: r => @List.Forall_cons _ _ kx r (value_tree_ind (snd kx)) (go r)
            end) entries)
  end.
End ValueInd.

End Py.

(* ===================================================================== *)
(** * libprobe/config.py                                                  *)
(* ===================================================================== *)

Module Config.
Import Py.

(** The two operations of [cryptography.fernet.Fernet] that the walk
    uses.  [fernet_decrypt] answers [None] where the library raises
    [InvalidToken].  The real [encrypt] also draws a time stamp and an
    initialisation vector; an instance fixes them. *)
Class Fernet : Type := {
  fernet_encrypt : list Byte.byte → list Byte.byte;
  fernet_decrypt : list Byte.byte → option (list Byte.byte)
}.

(** What the walk relies on: a token decrypts to its plaintext, and a
    token is never the empty byte string. *)
Class FernetLaws (F : Fernet) : Prop := {
  fernet_decrypt_encrypt : ∀ b, fernet_decrypt (fernet_encrypt b) = Some b;
  fernet_encrypt_nonempty : ∀ b, fernet_encrypt b ≠ []
}.

(** [str.encode(v)], and [b.decode()], which is [None] where the codec
    raises [UnicodeDecodeError]. *)
Definition str_encode (s : string) : list Byte.byte := list_byte_of_string s.
Definition bytes_decode (b : list Byte.byte) : option string :=
  if utf8 b then Some (string_of_list_byte b) else None.

(** [k in ('secret', 'password')] *)
Definition sensitive (k : string) : bool :=
  String.eqb k "secret" || String.eqb k "password".

(** [encrypt(layer, fernet)], the in-place walk, as the dict it leaves
    behind.  The recursive calls are only made on dicts; on a dict [v]
    the function visits every item [(k, x)]:
    - a [str] under a sensitive key is replaced by [{"encrypted": token}];
    - else a list has each of its dict items walked;
    - else a dict is walked. *)
Fixpoint encrypt_walk `{Fernet} (v : value) {struct v} : value :=
  match v with
  | VDict entries =>
      VDict (map (fun kx =>
        match kx with
        | (k, x) =>
            (k,
             match x with
             | VStr s =>
                 if sensitive k
                 then VDict [("encrypted", VBytes (fernet_encrypt (str_encode s)))]
                 else x
             | VList items =>
                 VList (map (fun item =>
                   match item with
                   | VDict _ => encrypt_walk item
                   | _ => item
                   end) items)
             | VDict _ => encrypt_walk x
             | _ => x
             end)
        end) entries)
  | _ => v
  end.

(** [encrypt(layer, fernet)] as a call: [layer.items()] raises
    [AttributeError] unless [layer] is a dict; the function has no
    [return] statement, so the value of the call is [None].  The result
    is the mutated layer paired with the returned value. *)
Definition encrypt `{Fernet} (layer : value) : result (value * value) :=
  match layer with
  | VDict _ => Ok (encrypt_walk layer, VNone)
  | _ => Raise AttributeError
  end.

(** [decrypt(layer, fernet)], the in-place walk.  For every item [(k, x)]:
    - a dict under a sensitive key is looked up for ["encrypted"]; a
      non-empty [bytes] there is decrypted and decoded, anything else
      leaves the item alone (and the dict is not walked);
    - else a list has each of its dict items walked;
    - else a dict is walked.
    [fernet.decrypt] may raise [InvalidToken], and [decode] raises
    [UnicodeDecodeError] when the plaintext is not UTF-8. *)
Fixpoint decrypt_walk `{Fernet} (v : value) {struct v} : result value :=
  match v with
  | VDict entries =>
      bind
        ((fix items (l : list (string * value)) : result (list (string * value)) :=
            match l with
            | [] => Ok []
            | (k, x) :: rest =>
                bind
                  (match x with
                   | VDict d =>
                       if sensitive k then
                         match dict_get d "encrypted" with
                         | VBytes (b0 :: bs) =>
                             match fernet_decrypt (b0 :: bs) with
                             | Some plain =>
                                 match bytes_decode plain with
                                 | Some s => Ok (VStr s)
                                 | None => Raise UnicodeDecodeError
                                 end
                             | None => Raise InvalidToken
                             end
                         | _ => Ok x
                         end
                       else decrypt_walk x
                   | VList elems =>
                       bind
                         ((fix each (l : list value) : result (list value) :=
                             match l with
                             | [] => Ok []
                             | item :: more =>
                                 bind
                                   (match item with
                                    | VDict _ => decrypt_walk item
                                    | _ => Ok item
                                    end)
                                   (fun item' =>
                                      bind (each more)
                                        (fun more' => Ok (item' :: more')))
                             end) elems)
                         (fun elems' => Ok (VList elems'))
                   | _ => Ok x
                   end)
                  (fun x' => bind (items rest) (fun rest' => Ok ((k, x') :: rest')))
            end) entries)
        (fun entries' => Ok (VDict entries'))
  | _ => Ok v
  end.

Definition decrypt `{Fernet} (layer : value) : result value :=
  match layer with
  | VDict _ => decrypt_walk layer
  | _ => Raise AttributeError
  end.

(** [config if isinstance(config, dict) else {}] *)
Definition dict_or_empty (config : value) : value :=
  if is_dict config then config else VDict [].

(** The test of the loop body of [get_config]:
    [_asset_id == asset_id or
     (isinstance(_asset_id, list) and asset_id in _asset_id)]
    on an item of [assets]; items that are not dicts are skipped. *)
Definition asset_matches (asset_id : Z) (asset : value) : bool :=
  match asset with
  | VDict a =>
      let _asset_id := dict_get a "id" in
      eq_int _asset_id asset_id ||
      match _asset_id with
      | VList ids => int_in asset_id ids
      | _ => false
      end
  | _ => false
  end.

(** [get_config(conf, probe_name, asset_id)] *)
Definition get_config (conf : dict) (probe_name : string) (asset_id : Z)
  : result value :=
  match dict_get conf probe_name with
  | VDict probe =>
      let assets := dict_get probe "assets" in
      let probe_level := dict_or_empty (dict_get probe "config") in
      if truthy assets then
        match iterate assets with
        | None => Raise TypeError
        | Some items =>
            match List.find (asset_matches asset_id) items with
            | Some (VDict asset) => Ok (dict_or_empty (dict_get asset "config"))
            | _ => Ok probe_level
            end
        end
      else Ok probe_level
  | _ => Ok (VDict [])
  end.

(** ** The walks, one item at a time

    The same functions as the bodies of the two loops, named so that the
    proofs can speak about one item of a dict or of a list. *)

Definition encrypt_item `{Fernet} (item : value) : value :=
  match item with
  | VDict _ => encrypt_walk item
  | _ => item
  end.

Definition encrypt_entry `{Fernet} (k : string) (x : value) : value :=
  match x with
  | VStr s =>
      if sensitive k
      then VDict [("encrypted", VBytes (fernet_encrypt (str_encode s)))]
      else x
  | VList items => VList (map encrypt_item items)
  | VDict _ => encrypt_walk x
  | _ => x
  end.

Definition decrypt_item `{Fernet} (item : value) : result value :=
  match item with
  | VDict _ => decrypt_walk item
  | _ => Ok item
  end.

Fixpoint decrypt_items `{Fernet} (l : list value) : result (list value) :=
  match l with
  | [] => Ok []
  | item :: more =>
      bind (decrypt_item item)
        (fun item' => bind (decrypt_items more) (fun more' => Ok (item' :: more')))
  end.

Definition decrypt_entry `{Fernet} (k : string) (x : value) : result value :=
  match x with
  | VDict d =>
      if sensitive k then
        match dict_get d "encrypted" with
        | VBytes (b0 :: bs) =>
            match fernet_decrypt (b0 :: bs) with
            | Some plain =>
                match bytes_decode plain with
                | Some s => Ok (VStr s)
                | None => Raise UnicodeDecodeError
                end
            | None => Raise InvalidToken
            end
        | _ => Ok x
        end
      else decrypt_walk x
  | VList elems => bind (decrypt_items elems) (fun elems' => Ok (VList elems'))
  | _ => Ok x
  end.

Fixpoint decrypt_entries `{Fernet} (l : list (string * value))
    : result (list (string * value)) :=
  match l with
  | [] => Ok []
  | (k, x) :: rest =>
      bind (decrypt_entry k x)
        (fun x' => bind (decrypt_entries rest) (fun rest' => Ok ((k, x') :: rest')))
  end.

(** ** Shapes of config trees *)

(** Every value stored under a [password] or [secret] key, anywhere in
    the tree, is a plain string. *)
Fixpoint plain_secrets (v : value) : bool :=
  match v with
  | VDict entries =>
      forallb (fun kx =>
        match kx with
        | (k, x) =>
            if sensitive k
            then match x with VStr _ => true | _ => false end
            else plain_secrets x
        end) entries
  | VList items => forallb plain_secrets items
  | _ => true
  end.

(** An [{encrypted: token}] leaf: a dict whose ["encrypted"] item is a
    token that [fernet] accepts and that holds the UTF-8 encoding of a
    text. *)
Definition token `{Fernet} (x : value) : bool :=
  match x with
  | VDict d =>
      match dict_get d "encrypted" with
      | VBytes (b0 :: bs) =>
          match fernet_decrypt (b0 :: bs) with
          | Some plain => utf8 plain
          | None => false
          end
      | _ => false
      end
  | _ => false
  end.


(** What [encrypt] has made of a tree of plain secrets: at every place
    that the walk visits, the value under a [password] or [secret] key is
    an [{encrypted: token}] leaf. *)
Fixpoint ciphered `{Fernet} (v : value) : bool :=
  match v with
  | VDict entries =>
      forallb (fun kx =>
        match kx with
        | (k, x) =>
            if sensitive k then token x
            else
              match x with
              | VList items =>
                  forallb (fun item =>
                    match item with
                    | VDict _ => ciphered item
                    | _ => true
                    end) items
              | VDict _ => ciphered x
              | _ => true
              end
        end) entries
  | _ => true
  end.

Definition ciphered_item `{Fernet} (item : value) : bool :=
  match item with
  | VDict _ => ciphered item
  | _ => true
  end.

Definition ciphered_entry `{Fernet} (k : string) (x : value) : bool :=
  if sensitive k then token x
  else
    match x with
    | VList items => forallb ciphered_item items
    | VDict _ => ciphered x
    | _ => true
    end.

(** The three levels of the walk at once: a dict that is walked, an item
    of a list, and a value under a key that is not sensitive. *)
Definition restored `{Fernet} (v : value) : Prop :=
  plain_secrets v = true →
  is_text v = true →
  (decrypt_walk (encrypt_walk v) = Ok v ∧
   ciphered (encrypt_walk v) = true) ∧
  (decrypt_item (encrypt_item v) = Ok v ∧
   ciphered_item (encrypt_item v) = true) ∧
  ∀ k, sensitive k = false →
       decrypt_entry k (encrypt_entry k v) = Ok v ∧
       ciphered_entry k (encrypt_entry k v) = true.


(** ** Reading [get_config] *)

(** The items that the loop [for asset in assets] of [get_config] visits
    in a probe block: none when [assets] is missing or empty, [None] when
    the loop raises because [assets] cannot be iterated. *)
Definition assets_items (probe : dict) : option (list value) :=
  let assets := dict_get probe "assets" in
  if truthy assets then iterate assets else Some [].

(** The [assets] of the probe block (if the block is a dict) can be
    iterated. *)
Definition assets_iterable (conf : dict) (probe_name : string) : Prop :=
  ∀ probe, dict_get conf probe_name = VDict probe →
           is_Some (assets_items probe).

(** A document with a number where the list of assets belongs. *)
Definition conf_assets_number : dict :=
  [("exampleProbe",
    VDict [("config", VDict [("username", VStr "alice")]);
           ("assets", VInt 5)])].

(** A cipher to run the walks with: a token is its plaintext behind one
    marker byte. *)
Definition marker_fernet : Fernet :=
  {| fernet_encrypt := fun b => Byte.x80 :: b;
     fernet_decrypt := fun t =>
       match t with
       | Byte.x80 :: b => Some b
       | _ => None
       end |}.

(** The document of the module's docstring. *)
Definition example_conf : dict :=
  [("exampleProbe",
    VDict [("config",
            VDict [("username", VStr "alice");
                   ("password", VStr "secret_password")]);
           ("assets",
            VList [VDict [("id", VInt 123);
                          ("config",
                           VDict [("username", VStr "bob");
                                  ("password", VStr "my secret")])];
                   VDict [("id", VList [VInt 456; VInt 789]);
                          ("config",
                           VDict [("username", VStr "charlie");
                                  ("password", VStr "my other secret")])]])])].

(** ** What the walks leave behind *)

(** No place that [encrypt] visits holds a plain string under a
    [password] or [secret] key.  The places are those of the walk: the
    items of a dict, the dicts among the items of a list that is the
    value of an item, and the dicts that are the value of an item. *)
Fixpoint sealed (v : value) : bool :=
  match v with
  | VDict entries =>
      forallb (fun kx =>
        match kx with
        | (k, x) =>
            match x with
            | VStr _ => negb (sensitive k)
            | VList items =>
                forallb (fun item =>
                  match item with
                  | VDict _ => sealed item
                  | _ => true
                  end) items
            | VDict _ => sealed x
            | _ => true
            end
        end) entries
  | _ => true
  end.

Definition sealed_item (item : value) : bool :=
  match item with
  | VDict _ => sealed item
  | _ => true
  end.

Definition sealed_entry (k : string) (x : value) : bool :=
  match x with
  | VStr _ => negb (sensitive k)
  | VList items => forallb sealed_item items
  | VDict _ => sealed x
  | _ => true
  end.

(** The three levels of the walk, for a tree that [encrypt] has been
    over. *)
Definition sealed_after `{Fernet} (v : value) : Prop :=
  sealed (encrypt_walk v) = true ∧
  sealed_item (encrypt_item v) = true ∧
  ∀ k, sealed_entry k (encrypt_entry k v) = true.

Definition sealed_fixed `{Fernet} (v : value) : Prop :=
  (sealed v = true → encrypt_walk v = v) ∧
  (sealed_item v = true → encrypt_item v = v) ∧
  ∀ k, sealed_entry k v = true → encrypt_entry k v = v.

(** The three levels of [decrypt] on a tree of plain secrets. *)
Definition untouched `{Fernet} (v : value) : Prop :=
  plain_secrets v = true →
  decrypt_walk v = Ok v ∧
  decrypt_item v = Ok v ∧
  ∀ k, sensitive k = false → decrypt_entry k v = Ok v.

(** The three levels of [decrypt] when it raises: the exception comes
    from opening a token. *)
Definition token_error (e : exn) : Prop :=
  e = InvalidToken ∨ e = UnicodeDecodeError.

Definition raises_on_token `{Fernet} (v : value) : Prop :=
  (∀ e, decrypt_walk v = Raise e → token_error e) ∧
  (∀ e, decrypt_item v = Raise e → token_error e) ∧
  ∀ k e, decrypt_entry k v = Raise e → token_error e.

(** A document with a token that [marker_fernet] does not accept. *)
Definition conf_bad_token : value :=
  VDict [("exampleProbe",
          VDict [("config",
                  VDict [("password",
                          VDict [("encrypted", VBytes [Byte.x41])])])])].

End Config.

(* ===================================================================== *)
(** * libprobe/utils.py                                                   *)
(* ===================================================================== *)

Module Utils.
Import Py.

(** The exceptions of this module. *)
Inductive error : Type :=
| KeyError
| TypeError
| AttributeError.

Inductive answer (A : Type) : Type :=
| Returns (a : A)
| Raises (e : error).
Arguments Returns {A} a.
Arguments Raises {A} e.

(** [_item_name(item)]: [item['name']].  A dict without the key raises
    [KeyError]; a value that is not a dict has no string subscript. *)
Definition _item_name (item : value) : answer value :=
  match item with
  | VDict d =>
      match dict_lookup d "name" with
      | Some v => Returns v
      | None => Raises KeyError
      end
  | _ => Raises TypeError
  end.

(** The keys that [list.sort(key=_item_name)] computes, for every item
    and before it compares anything; the first exception ends the call. *)
Fixpoint keys (items : list value) : answer (list value) :=
  match items with
  | [] => Returns []
  | item :: more =>
      match _item_name item with
      | Raises e => Raises e
      | Returns k =>
          match keys more with
          | Raises e => Raises e
          | Returns ks => Returns (k :: ks)
          end
      end
  end.

(** The keys as names, when every key is a [str] as the annotation of
    [_item_name] says. *)
Fixpoint str_keys (ks : list value) : option (list string) :=
  match ks with
  | [] => Some []
  | VStr n :: more =>
      match str_keys more with
      | Some names => Some (n :: names)
      | None => None
      end
  | _ :: _ => None
  end.

(** [list.sort] is a stable sort: the items come out in the order of
    their keys, items with equal keys in the order they had.  Strings
    compare by code point, which is the order of their UTF-8 bytes.  Here
    the sort is an insertion sort on the items paired with their names;
    an item goes in front of the first one that is not smaller. *)
Fixpoint insert (kx : string * value) (l : list (string * value))
    : list (string * value) :=
  match l with
  | [] => [kx]
  | ky :: rest =>
      if String.leb (fst kx) (fst ky) then kx :: l
      else ky :: insert kx rest
  end.

Definition sort_pairs (l : list (string * value)) : list (string * value) :=
  foldr insert [] l.

(** [items.sort(key=_item_name)]: the list afterwards, or the exception
    of a key.  [None] where a key is not a [str]: how such keys compare
    is not modelled. *)
Definition sort (items : list value) : option (answer (list value)) :=
  match keys items with
  | Raises e => Some (Raises e)
  | Returns ks =>
      match str_keys ks with
      | Some names => Some (Returns (map snd (sort_pairs (zip names items))))
      | None => None
      end
  end.

(** [order(result)]: every value of [result] is sorted in place, in the
    order of the dict, and [result] is returned.  A value without a
    [sort] method raises [AttributeError]. *)
Fixpoint order (result : dict) : option (answer dict) :=
  match result with
  | [] => Some (Returns [])
  | (k, VList items) :: rest =>
      match sort items with
      | None => None
      | Some (Raises e) => Some (Raises e)
      | Some (Returns items') =>
          match order rest with
          | None => None
          | Some (Raises e) => Some (Raises e)
          | Some (Returns rest') => Some (Returns ((k, VList items') :: rest'))
          end
      end
  | (k, _) :: rest => Some (Raises AttributeError)
  end.

(** The name of an item, when it is a dict with a [str] under [name]. *)
Definition name_of (item : value) : option string :=
  match _item_name item with
  | Returns (VStr n) => Some n
  | _ => None
  end.

(** The items of a list that carry the name [n], in their order. *)
Definition named (n : string) (items : list value) : list value :=
  filter (fun item => name_of item = Some n) items.

(** Every pair is an item with its name. *)
Definition decorated (l : list (string * value)) : Prop :=
  Forall (fun kx => name_of (snd kx) = Some (fst kx)) l.

(** The names of the items are strings in ascending order. *)
Definition in_name_order (items : list value) : Prop :=
  ∃ names, keys items = Returns (map VStr names) ∧
           StronglySorted (fun a b => String.leb a b = true) names.

(** Every value of the result is a list of dicts that have a [str]
    under [name]. *)
Definition well_named (result : dict) : Prop :=
  Forall (fun kv => ∃ items, snd kv = VList items ∧
                             Forall (fun item => is_Some (name_of item)) items)
    result.

(** Every name that an item of the result has is a [str]: the results
    for which [sort] is modelled. *)
Definition str_named (result : dict) : bool :=
  forallb (fun kv =>
             match snd kv with
             | VList items =>
                 forallb (fun item =>
                            match _item_name item with
                            | Returns (VStr _) => true
                            | Returns _ => false
                            | Raises _ => true
                            end) items
             | _ => true
             end) result.

(** A check result: item lists by type name. *)
Definition interfaces : dict :=
  [("interface",
    VList [VDict [("name", VStr "eth1"); ("speed", VInt 100)];
           VDict [("name", VStr "eth0"); ("speed", VInt 1000)];
           VDict [("name", VStr "lo"); ("speed", VInt 0)];
           VDict [("name", VStr "eth0"); ("speed", VInt 10)]]);
   ("agent", VList [VDict [("name", VStr "probe")]])].

End Utils.

(* ===================================================================== *)
(** * libprobe/net/protocol.py                                            *)
(* ===================================================================== *)

Module Protocol.
Import Py.

(** Modelled from the spec: [net/package.py] is not part of the sources.
    A package is a framed message with a 16-bit [pid], a type byte, a
    [partid] and a decoded payload; [pid] is assignable before the
    package is sent. *)
Record package : Type := Package {
  pid : Z;
  tp : Z;
  partid : Z;
  data : value
}.

(** [pkg.to_bytes()], the codec's serialisation of a package. *)
Class PackageCodec : Type := {
  to_bytes : package → list Byte.byte
}.

(** [pkg.pid = n] *)
Definition set_pid (pkg : package) (n : Z) : package :=
  {| pid := n; tp := tp pkg; partid := partid pkg; data := data pkg |}.

(** An [asyncio.Future]: pending, resolved or failed. *)
Inductive future_state : Type :=
| FPending
| FResult (v : value)
| FException (e : exn).

(** The objects the event loop holds for a protocol: futures and timer
    tasks are heap objects, named here by the number they were created
    with.  A timer task remembers the pid it watches and whether it has
    been cancelled. *)
Record timer : Type := Timer {
  timer_pid : Z;
  timer_cancelled : bool
}.

(** The attributes of a [Protocol] instance, the frames handed to the
    attached transport, and the futures and timers it has created.
    [_package] only matters as present or absent here, it holds the
    number of bytes of the frame being received. *)
Record state : Type := State {
  _buffered_data : list Byte.byte;
  _package : option Z;
  _requests : gmap Z (nat * option nat);
  _pid : Z;
  transport : option (list (list Byte.byte));
  futures : gmap nat future_state;
  timers : gmap nat timer;
  next_object : nat
}.

(** [Protocol.__init__] *)
Definition init : state :=
  {| _buffered_data := []; _package := None; _requests := ∅; _pid := 0;
     transport := None; futures := ∅; timers := ∅; next_object := 0%nat |}.

(** [connection_made(transport)]: attach a transport that has written
    nothing yet. *)
Definition connection_made (st : state) : state :=
  {| _buffered_data := _buffered_data st; _package := _package st;
     _requests := _requests st; _pid := _pid st;
     transport := Some [];
     futures := futures st; timers := timers st;
     next_object := next_object st |}.

(** [connection_lost(exc)]:
    [self.transport = None; self._package = None;
     self._buffered_data.clear()] *)
Definition connection_lost (st : state) : state :=
  {| _buffered_data := []; _package := None;
     _requests := _requests st; _pid := _pid st;
     transport := None;
     futures := futures st; timers := timers st;
     next_object := next_object st |}.

(** [is_connected()] *)
Definition is_connected (st : state) : bool :=
  match transport st with Some _ => true | None => false end.

(** [bool(timeout)] for [timeout : Union[None, float, int]]; the number
    is kept as an integer count of seconds. *)
Definition timeout_set (timeout : option Z) : bool :=
  match timeout with
  | Some t => negb (t =? 0)
  | None => false
  end.

(** [request(pkg, timeout)].  The statements run in source order: the pid
    is advanced, the timer (if any) and the future are created and the
    entry is recorded before the assertion on the transport is evaluated,
    so those effects stay when the assertion fails. *)
Definition request `{PackageCodec} (st : state) (pkg : package)
    (timeout : option Z) : state * result nat :=
  let pid' := (_pid st + 1) mod 65536 in
  let pkg' := set_pid pkg pid' in
  let task := if timeout_set timeout then Some (next_object st) else None in
  let timers' :=
    match task with
    | Some t => <[t := Timer pid' false]> (timers st)
    | None => timers st
    end in
  let next1 := if timeout_set timeout then S (next_object st) else next_object st in
  let future := next1 in
  let futures' := <[future := FPending]> (futures st) in
  let requests' := <[pid' := (future, task)]> (_requests st) in
  match transport st with
  | None =>
      ({| _buffered_data := _buffered_data st; _package := _package st;
          _requests := requests'; _pid := pid';
          transport := None;
          futures := futures'; timers := timers';
          next_object := S next1 |},
       Raise AssertionError)
  | Some written =>
      ({| _buffered_data := _buffered_data st; _package := _package st;
          _requests := requests'; _pid := pid';
          transport := Some (written ++ [to_bytes pkg'])%list;
          futures := futures'; timers := timers';
          next_object := S next1 |},
       Ok future)
  end.

(** [future.set_exception(e)] and [future.set_result(v)] on the future
    numbered [f]. *)
Definition set_future (st : state) (f : nat) (s : future_state) : state :=
  {| _buffered_data := _buffered_data st; _package := _package st;
     _requests := _requests st; _pid := _pid st;
     transport := transport st;
     futures := <[f := s]> (futures st); timers := timers st;
     next_object := next_object st |}.

(** [self._requests.pop(pid)] leaves the table without [pid]. *)
Definition pop_request (st : state) (p : Z) : state :=
  {| _buffered_data := _buffered_data st; _package := _package st;
     _requests := delete p (_requests st); _pid := _pid st;
     transport := transport st;
     futures := futures st; timers := timers st;
     next_object := next_object st |}.

(** [task.cancel()] on the timer numbered [t]. *)
Definition cancel_timer (st : state) (t : nat) : state :=
  {| _buffered_data := _buffered_data st; _package := _package st;
     _requests := _requests st; _pid := _pid st;
     transport := transport st;
     futures := futures st;
     timers := alter (fun tm => Timer (timer_pid tm) true) t (timers st);
     next_object := next_object st |}.

(** The coroutine of the timer [t] has returned. *)
Definition timer_done (st : state) (t : nat) : state :=
  {| _buffered_data := _buffered_data st; _package := _package st;
     _requests := _requests st; _pid := _pid st;
     transport := transport st;
     futures := futures st; timers := delete t (timers st);
     next_object := next_object st |}.

(** [_timer(pid, timeout)] once its sleep is over: the timer [t] pops the
    entry of its pid and fails the future with [TimeoutError]; a missing
    entry is logged.  A cancelled timer never wakes up. *)
Definition _timer (st : state) (t : nat) : state :=
  match timers st !! t with
  | Some (Timer p false) =>
      match _requests st !! p with
      | Some (future, _) =>
          set_future (pop_request (timer_done st t) p) future
            (FException (TimeoutError p))
      | None => timer_done st t
      end
  | _ => st
  end.

(** [_get_future(pkg)]: pop the entry of [pkg.pid]; cancel its timer;
    return the future, or [None] when the entry is gone. *)
Definition _get_future (st : state) (pkg : package) : state * option nat :=
  match _requests st !! pid pkg with
  | None => (st, None)
  | Some (future, task) =>
      let st1 := pop_request st (pid pkg) in
      (match task with
       | Some t => cancel_timer st1 t
       | None => st1
       end, Some future)
  end.

(** Modelled from the spec: [on_package_received] is left to the
    subclass, which is not part of the sources.  For a package with the
    response bit the pending entry is looked up and removed with
    [_get_future] and the future is resolved with the body; without an
    entry the package is dropped. *)
Definition response_received (st : state) (pkg : package) : state :=
  match _get_future st pkg with
  | (st1, Some future) => set_future st1 future (FResult (data pkg))
  | (st1, None) => st1
  end.

(** What can happen to a protocol instance. *)
Inductive event : Type :=
| ConnectionMade
| ConnectionLost
| Request (pkg : package) (timeout : option Z)
| TimerFires (t : nat)
| ResponseReceived (pkg : package).

Definition step `{PackageCodec} (st : state) (ev : event) : state :=
  match ev with
  | ConnectionMade => connection_made st
  | ConnectionLost => connection_lost st
  | Request pkg timeout => fst (request st pkg timeout)
  | TimerFires t => _timer st t
  | ResponseReceived pkg => response_received st pkg
  end.

(** The states a protocol instance can be in: [init] followed by any
    sequence of events. *)
Inductive reachable `{PackageCodec} : state → Prop :=
| reachable_init : reachable init
| reachable_step st ev : reachable st → reachable (step st ev).

(** [n] calls of [request] in a row, with the same package and timeout;
    the pids handed out, oldest first, and the state at the end. *)
Fixpoint requests `{PackageCodec} (n : nat) (st : state) (pkg : package)
    (timeout : option Z) : list Z * state :=
  match n with
  | O => ([], st)
  | S n' =>
      let st1 := fst (request st pkg timeout) in
      let '(pids, st2) := requests n' st1 pkg timeout in
      (_pid st1 :: pids, st2)
  end.

(** The futures of the requests that are still outstanding. *)
Definition outstanding (st : state) (f : nat) : Prop :=
  ∃ p task, _requests st !! p = Some (f, task).

(** What holds of the request table in every state that can be reached:
    the pid counter and the keys are 16-bit numbers, the futures in the
    table were created before the next object, and no future is filed
    under two pids. *)
Record table_ok (st : state) : Prop := TableOk {
  pid_range : 0 ≤ _pid st < 65536;
  keys_range : ∀ p e, _requests st !! p = Some e → 0 ≤ p < 65536;
  futures_known : ∀ p f t, _requests st !! p = Some (f, t) → (f < next_object st)%nat;
  one_pid_per_future : ∀ p1 p2 f t1 t2,
    _requests st !! p1 = Some (f, t1) →
    _requests st !! p2 = Some (f, t2) → p1 = p2
}.

(** A codec to run examples with: a frame is eight header bytes followed
    by one byte for every node of the payload. *)
Fixpoint value_size (v : value) : nat :=
  match v with
  | VList items => S (list_sum (map value_size items))
  | VDict entries => S (list_sum (map (fun kx => value_size (snd kx)) entries))
  | VStr s => S (String.length s)
  | VBytes b => S (length b)
  | _ => 1%nat
  end.

Definition counting_codec : PackageCodec :=
  {| to_bytes := fun pkg => repeat Byte.x00 (8 + value_size (data pkg)) |}.

(** An announce request and the state of a connected protocol that has
    sent it without a timeout. *)
Definition announce : package :=
  Package 0 1 0 (VList [VStr "myprobe"; VStr "0.1.0"]).

Definition announced : state :=
  fst (@request counting_codec (connection_made init) announce None).

(** ** [data_received] *)

(** How [self._package.extract_data_from(self._buffered_data)] ends: with
    the package, with [KeyError] (a package type that is not supported),
    or with another exception. *)
Inductive extracted : Type :=
| Extracted (pkg : package)
| Unsupported
| Malformed.

(** What [data_received] uses of [Package], which is not part of the
    sources: the size of a header, the [total] that the constructor
    reads from the buffer, and [extract_data_from], which takes its bytes
    out of the buffer that it is given; the second component is the
    buffer afterwards.  The constructor is taken not to raise. *)
Class PackageParser : Type := {
  st_package_size : nat;
  header_total : list Byte.byte → Z;
  extract_data_from : list Byte.byte → extracted * list Byte.byte
}.


Definition with_buffer (st : state) (buffer : list Byte.byte)
    (partial : option Z) : state :=
  {| _buffered_data := buffer; _package := partial;
     _requests := _requests st; _pid := _pid st;
     transport := transport st;
     futures := futures st; timers := timers st;
     next_object := next_object st |}.

(** The [while self._buffered_data] loop.  [fuel] bounds the number of
    packages taken out of the buffer ([None] when it is used up); the
    packages handed to [on_package_received] are collected in order. *)
Fixpoint receive_loop `{PackageParser} (fuel : nat) (st : state)
    (received : list package) : option (state * list package) :=
  match _buffered_data st with
  | [] => Some (st, received)
  | _ :: _ =>
      let size := length (_buffered_data st) in
      let partial :=
        match _package st with
        | Some total => Some total
        | None =>
            if (size <? st_package_size)%nat then None
            else Some (header_total (_buffered_data st))
        end in
      match partial with
      | None => Some (st, received)
      | Some total =>
          if Z.of_nat size <? total
          then Some (with_buffer st (_buffered_data st) (Some total), received)
          else
            match fuel with
            | O => None
            | S fuel' =>
                match extract_data_from (_buffered_data st) with
                | (Extracted pkg, buffer) =>
                    receive_loop fuel' (with_buffer st buffer None)
                      (received ++ [pkg])
                | (Unsupported, buffer) =>
                    receive_loop fuel' (with_buffer st buffer None) received
                | (Malformed, _) =>
                    receive_loop fuel' (with_buffer st [] None) received
                end
            end
      end
  end.

(** [data_received(data)] *)
Definition data_received `{PackageParser} (fuel : nat) (st : state)
    (data : list Byte.byte) : option (state * list package) :=
  receive_loop fuel
    (with_buffer st (_buffered_data st ++ data) (_package st)) [].


(** A parser to run examples with.  A frame is a length byte, a type
    byte and as many body bytes as the length says: type [0] is a
    package with the body as data, type [1] is not supported, any other
    type is an error. *)
Definition tiny_parser : PackageParser :=
  {| st_package_size := 2;
     header_total := fun buffer =>
       match buffer with
       | n :: _ => 2 + Z.of_N (Byte.to_N n)
       | [] => 2
       end;
     extract_data_from := fun buffer =>
       match buffer with
       | n :: t :: rest =>
           let body := take (N.to_nat (Byte.to_N n)) rest in
           let left := drop (N.to_nat (Byte.to_N n)) rest in
           (match t with
            | Byte.x00 => Extracted (Package 0 0 0 (VBytes body))
            | Byte.x01 => Unsupported
            | _ => Malformed
            end, left)
       | _ => (Malformed, [])
       end |}.

(** The frames of the parser stand on their own: the header of a buffer
    that holds a header, and the package taken out of a buffer that holds
    the whole package, do not depend on the bytes that follow. *)
Class ParserFrames (P : PackageParser) : Prop := {
  header_prefix : ∀ buffer more,
    (st_package_size ≤ length buffer)%nat →
    header_total (buffer ++ more) = header_total buffer;
  extract_prefix : ∀ buffer more,
    (st_package_size ≤ length buffer)%nat →
    header_total buffer ≤ Z.of_nat (length buffer) →
    extract_data_from (buffer ++ more) =
    (fst (extract_data_from buffer), snd (extract_data_from buffer) ++ more)
}.

(** [extract_data_from] never ends with an exception other than
    [KeyError]. *)
Class ParserNeverFails (P : PackageParser) : Prop :=
  never_malformed : ∀ buffer, fst (extract_data_from buffer) ≠ Malformed.

(** The partial package, when there is one, was made from the header
    that is in the buffer. *)
Definition partial_ok `{PackageParser} (st : state) : Prop :=
  ∀ total, _package st = Some total →
           (st_package_size ≤ length (_buffered_data st))%nat ∧
           total = header_total (_buffered_data st).

(** A parser for which every type other than [0] is not supported. *)
Definition lenient_parser : PackageParser :=
  {| st_package_size := 2;
     header_total := fun buffer =>
       match buffer with
       | n :: _ => 2 + Z.of_N (Byte.to_N n)
       | [] => 2
       end;
     extract_data_from := fun buffer =>
       match buffer with
       | n :: t :: rest =>
           let body := take (N.to_nat (Byte.to_N n)) rest in
           let left := drop (N.to_nat (Byte.to_N n)) rest in
           (match t with
            | Byte.x00 => Extracted (Package 0 0 0 (VBytes body))
            | _ => Unsupported
            end, left)
       | _ => (Unsupported, [])
       end |}.

(** A protocol whose pid counter has come round to pid [1] while the
    request with that pid, sent with a timeout, is still waiting. *)
Definition wrapped : state :=
  {| _buffered_data := []; _package := None;
     _requests := {[1 := (1%nat, Some 0%nat)]}; _pid := 0;
     transport := Some [];
     futures := {[1%nat := FPending]};
     timers := {[0%nat := Timer 1 false]};
     next_object := 2 |}.

(** What holds of the futures and timers in every state that can be
    reached: a future in the table is pending, and the timers were
    created before the next object. *)
Record objects_ok (st : state) : Prop := ObjectsOk {
  table_pending : ∀ p f t,
    _requests st !! p = Some (f, t) → futures st !! f = Some FPending;
  timers_known : ∀ t tm, timers st !! t = Some tm → (t < next_object st)%nat
}.

(** A connected protocol with one request, sent with a timeout. *)
Definition awaited : state :=
  fst (@request counting_codec (connection_made init) announce (Some 10)).

(** A response to the request of [awaited]. *)
Definition answer : package := Package 1 129 0 VNone.

End Protocol.

(* ===================================================================== *)
(** * libprobe/probe.py                                                   *)
(* ===================================================================== *)

Module Probe.
Import Py.

(** ** Module level *)

Definition dquote : string := String (Ascii.ascii_of_nat 34) EmptyString.

(** [HEADER_FILE] (after [.lstrip()]). *)
Definition HEADER_FILE : string :=
  ("# WARNING: InfraSonar will make `password` and `secret` values unreadable but
# this must not be regarded as true encryption as the encryption key is
# publicly available.
#
# Example configuration for `myprobe` collector:
#
#  myprobe:
#    config:
#      username: alice
#      password: " ++ dquote ++ "secret password" ++ dquote ++ "
#    assets:
#    - id: 12345
#      config:
#        username: bob
#        password: " ++ dquote ++ "my secret" ++ dquote ++ "
")%string.

(** How the module-level statements end: [sys.exit(msg)], or the module
    is loaded with a value for [MAX_PACKAGE_SIZE] (in bytes). *)
Inductive startup : Type :=
| SysExit (msg : string)
| Loaded (MAX_PACKAGE_SIZE : Z).

(** [[
MAX_PACKAGE_SIZE = int(os.getenv('MAX_PACKAGE_SIZE', 500))
if 1 > MAX_PACKAGE_SIZE > 2000:
    sys.exit('Value for MAX_PACKAGE_SIZE must be between 1 and 2000')
MAX_PACKAGE_SIZE *= 1000
]]
    [env] is the integer that [int] reads from the variable, [None] when
    the variable is not set.  The chained comparison [1 > m > 2000] is
    [1 > m and m > 2000]. *)
Definition load_MAX_PACKAGE_SIZE (env : option Z) : startup :=
  let m := default 500 env in
  if (1 >? m) && (m >? 2000)
  then SysExit "Value for MAX_PACKAGE_SIZE must be between 1 and 2000"
  else Loaded (m * 1000).

(** ** The probe object *)

(** A path is [(asset_id, check_id)], names are [(asset_name, check_key)]. *)
Definition path : Type := Z * Z.
Definition names : Type := string * string.

(** An [asyncio] task running [_run_check_loop]: still running (with or
    without a pending cancellation request), finished (the coroutine has
    returned, or has ended with an exception other than
    [CancelledError]), or ended in the cancelled state.
    [Task.cancelled()] holds of the last only: a coroutine that catches
    [CancelledError] and returns ends as finished. *)
Inductive task_state : Type :=
| TaskRunning (cancel_requested : bool)
| TaskFinished
| TaskCancelled.

(** The attributes of [Probe] that the modelled methods touch, and the
    check-loop tasks the event loop holds (named by number, so that
    [_checks] stores references to them).  [Config] is the type of a check
    config; its decidable equality stands for Python's [==] on dicts.
    [_checks_funs] keeps the keys of the mapping of check functions. *)
Record probe {Config : Type} : Type := MkProbe {
  name : string;
  _checks_funs : gset string;
  _protocol : option Protocol.state;
  _local_config : option value;
  _local_config_mtime : option Z;
  _checks_config : gmap path (names * Config);
  _checks : gmap path nat;
  tasks : gmap nat task_state
}.
Arguments probe : clear implicits.
Arguments MkProbe {Config}.

Section ProbeDefs.
Context {Config : Type} `{EqDecision Config}.

Definition with_protocol (st : probe Config) (p : option Protocol.state)
    : probe Config :=
  MkProbe (name st) (_checks_funs st) p (_local_config st)
    (_local_config_mtime st) (_checks_config st) (_checks st) (tasks st).

Definition with_local_config (st : probe Config) (c : option value)
    (mtime : option Z) : probe Config :=
  MkProbe (name st) (_checks_funs st) (_protocol st) c mtime
    (_checks_config st) (_checks st) (tasks st).

Definition with_checks (st : probe Config)
    (cfg : gmap path (names * Config)) (chk : gmap path nat)
    (tsk : gmap nat task_state) : probe Config :=
  MkProbe (name st) (_checks_funs st) (_protocol st) (_local_config st)
    (_local_config_mtime st) cfg chk tsk.

(** [Probe.__init__] once the local config has been read. *)
Definition init (name : string) (checks : gset string) : probe Config :=
  MkProbe name checks None None None ∅ ∅ ∅.

(** ** [send] *)

(** What [probe.py] imports from modules that are not part of the
    sources: the message types of [AgentcoreProtocol], and the severity of
    a [CheckException] that is built from a message alone. *)
Class Imported : Type := {
  PROTO_FAF_DUMP : Z;
  PROTO_REQ_ANNOUNCE : Z;
  default_severity : string
}.

(** Modelled from the spec: [exceptions.py] is not part of the sources.
    A [CheckException] carries a message and a severity, and [to_dict]
    gives the error map that is sent: the message and the severity. *)
Definition to_dict (msg : string) (severity : string) : value :=
  VDict [("message", VStr msg); ("severity", VStr severity)].

(** [f'data package too large ({len(data)} bytes)'] *)
Definition too_large (n : nat) : string :=
  ("data package too large (" ++ pretty n ++ " bytes)")%string.

(** The package that [send] makes: [[
check_data = {'result': result, 'error': error,
              'framework': {'duration': time.time() - ts,
                            'timestamp': int(ts)}}
pkg = Package.make(PROTO_FAF_DUMP, partid=asset_id, data=[path, check_data])
]]
    Times are in millionths of a second; [now] is [time.time()]. *)
Definition dump_package `{Imported} (p : path) (result error : value)
    (ts now : Z) : Protocol.package :=
  Protocol.Package 0 PROTO_FAF_DUMP (fst p)
    (VList [VList [VInt (fst p); VInt (snd p)];
            VDict [("result", result);
                   ("error", error);
                   ("framework",
                    VDict [("duration", VFloat (now - ts));
                           ("timestamp", VInt (ts / 1000000))])]]).

(** [self._protocol.transport.write(data)] when
    [self._protocol and self._protocol.transport]; nothing otherwise. *)
Definition write_if_connected (st : probe Config) (data : list Byte.byte)
    : probe Config :=
  match _protocol st with
  | Some pr =>
      match Protocol.transport pr with
      | Some written =>
          with_protocol st (Some
            (Protocol.State (Protocol._buffered_data pr) (Protocol._package pr)
               (Protocol._requests pr) (Protocol._pid pr)
               (Some (written ++ [data])%list)
               (Protocol.futures pr) (Protocol.timers pr)
               (Protocol.next_object pr)))
      | None => st
      end
  | None => st
  end.

(** [send(path, result, error, ts)].  The method calls itself when the
    frame is larger than [MAX_PACKAGE_SIZE]; [depth] bounds the number of
    nested calls, and [None] says that the bound was reached before a
    call returned (the interpreter gives up with [RecursionError]).
    [clock k] is what [time.time()] reads in the nested call number [k]. *)
Fixpoint send `{Imported} `{Protocol.PackageCodec} (depth : nat)
    (MAX_PACKAGE_SIZE : Z) (st : probe Config) (p : path)
    (result error : value) (ts : Z) (clock : nat → Z) (k : nat)
    : option (probe Config) :=
  match depth with
  | O => None
  | S depth' =>
      let data := Protocol.to_bytes (dump_package p result error ts (clock k)) in
      if Z.of_nat (length data) >? MAX_PACKAGE_SIZE then
        send depth' MAX_PACKAGE_SIZE st p VNone
          (to_dict (too_large (length data)) default_severity) ts clock (S k)
      else Some (write_if_connected st data)
  end.

(** The frames written to the transport so far. *)
Definition written (st : probe Config) : list (list Byte.byte) :=
  match _protocol st with
  | Some pr => default [] (Protocol.transport pr)
  | None => []
  end.

(** ** [_read_local_config] *)

(** The configuration file on disk. *)
Record file : Type := File {
  st_mtime : Z;
  text : string
}.

(** [yaml.safe_load] ([None] where it raises) and [yaml.dump].  What
    [safe_load] returns is a Python value: its strings are text. *)
Class Yaml : Type := {
  safe_load : string → option value;
  dump : value → string;
  safe_load_text : ∀ t doc, safe_load t = Some doc → is_text doc = true
}.

(** [open(path, 'w')] followed by the two [write] calls; the file gets
    the time of the write as its mtime. *)
Definition write_file (f : file) (content : string) (now : Z) : file :=
  File now content.

(** ['use' in probe] raises [TypeError] unless [probe] is a container of
    strings; the warnings that the loop logs change nothing. *)
Definition supports_in (probe : value) : bool :=
  match probe with
  | VDict _ | VList _ | VStr _ => true
  | _ => false
  end.

Definition dict_values (v : value) : list value :=
  match v with
  | VDict entries => map snd entries
  | _ => []
  end.

(** [_read_local_config()]: the file after the call, and the probe or
    the exception raised.  [None] of [yaml.safe_load] is a parse error
    here, an empty document is [VNone]. *)
Definition _read_local_config `{Yaml} `{Config.Fernet} (st : probe Config)
    (f : file) (now : Z) : file * result (probe Config) :=
  if decide (Some (st_mtime f) = _local_config_mtime st) then (f, Ok st)
  else
    match safe_load (text f) with
    | None => (f, Raise YAMLError)
    | Some config =>
        let finish (f' : file) (config' : value) :=
          if forallb supports_in (dict_values config')
          then (f', Ok (with_local_config st (Some config') (Some (st_mtime f'))))
          else (f', Raise TypeError) in
        if truthy config then
          match Config.encrypt config with
          | Raise e => (f, Raise e)
          | Ok (config1, changed) =>
              let f1 :=
                if truthy changed
                then write_file f (HEADER_FILE ++ dump config1)%string now
                else f in
              match Config.decrypt config1 with
              | Raise e => (f1, Raise e)
              | Ok config2 => finish f1 config2
              end
          end
        else finish f (VDict [])
    end.

(** ** The push handlers *)

(** [{tuple(path): (names, config) for path, names, config in items
      if names[CHECK_NAME_IDX] in self._checks_funs}]; a later item
    replaces an earlier one with the same path. *)
Definition registered (funs : gset string)
    (items : list (path * names * Config)) : gmap path (names * Config) :=
  foldl (fun m item =>
           match item with
           | (p, nm, config) =>
               if decide (snd nm ∈ funs) then <[p := (nm, config)]> m else m
           end) ∅ items.

(** [task.cancel()]: a request on a running task, nothing on a task that
    is done. *)
Definition cancel (t : nat) (tsk : gmap nat task_state) : gmap nat task_state :=
  match tsk !! t with
  | Some (TaskRunning _) => <[t := TaskRunning true]> tsk
  | _ => tsk
  end.

(** [task.cancelled()] *)
Definition cancelled (tsk : gmap nat task_state) (t : nat) : bool :=
  match tsk !! t with
  | Some TaskCancelled => true
  | _ => false
  end.

(** [asyncio.ensure_future(self._run_check_loop(path))] stored under
    [path]: a task that no other task is. *)
Definition spawn (acc : gmap path nat * gmap nat task_state) (p : path)
    : gmap path nat * gmap nat task_state :=
  let t := fresh (dom (snd acc)) in
  (<[p := t]> (fst acc), <[t := TaskRunning false]> (snd acc)).

(** [_set_new_checks_config(new_checks_config)].  The first loop handles
    each running path on its own, so it is a filter on [_checks] and a
    round of [cancel] on the tasks popped; the lookups
    [self._checks_config[path]] succeed because every running path has a
    config.  The second loop starts a task for each desired path that is
    not in [_checks] any more. *)
Definition _set_new_checks_config (st : probe Config)
    (new_checks_config : gmap path (names * Config)) : probe Config :=
  let desired_checks := dom new_checks_config in
  let popped :=
    filter (fun kv => fst kv ∉ desired_checks) (_checks st) in
  let tasks1 := foldr cancel (tasks st) (map snd (map_to_list popped)) in
  let checks1 :=
    filter (fun kv =>
              fst kv ∈ desired_checks ∧
              ¬ (new_checks_config !! fst kv ≠ _checks_config st !! fst kv ∧
                 cancelled (tasks st) (snd kv) = true))
      (_checks st) in
  let '(checks2, tasks2) :=
    foldl spawn (checks1, tasks1) (elements (desired_checks ∖ dom checks1)) in
  with_checks st new_checks_config checks2 tasks2.

(** [_on_set_assets(assets)] *)
Definition _on_set_assets (st : probe Config)
    (assets : list (path * names * Config)) : probe Config :=
  _set_new_checks_config st (registered (_checks_funs st) assets).

(** [_on_unset_assets(asset_ids)] *)
Definition _on_unset_assets (st : probe Config) (asset_ids : list Z)
    : probe Config :=
  _set_new_checks_config st
    (filter (fun kv => fst (fst kv) ∉ asset_ids) (_checks_config st)).

(** The map that [_on_upsert_asset] computes: [[
new_checks_config = {path: config for path, config in ... if path[0] != asset_id}
new = {...}
new_checks_config.update(new)
]] *)
Definition upsert_config (st : probe Config) (asset_id : Z)
    (checks : list (path * names * Config)) : gmap path (names * Config) :=
  registered (_checks_funs st) checks ∪
  filter (fun kv => fst (fst kv) ≠ asset_id) (_checks_config st).

(** [_on_upsert_asset(asset)] with [asset_id, checks = asset] *)
Definition _on_upsert_asset (st : probe Config)
    (asset : Z * list (path * names * Config)) : probe Config :=
  _set_new_checks_config st (upsert_config st (fst asset) (snd asset)).

(** ** One iteration of [_run_check_loop] *)

(** How the awaited call [wait_for(fun(asset, asset_config, config),
    timeout)] ends: a returned value, or one of the exceptions that the
    [try] statement tells apart.  [IncompleteResultException] is a
    [CheckException] that also carries a result; any other exception is
    kept as [str(e)] and the name of its class. *)
Inductive outcome : Type :=
| Returned (res : value)
| RaisedTimeoutError
| RaisedCancelledError
| RaisedIgnoreCheckException
| RaisedIgnoreResultException
| RaisedIncompleteResultException (msg severity : string) (result : value)
| RaisedCheckException (msg severity : string)
| RaisedException (str_e type_name : string).

(** [type(res).__name__] *)
Definition type_name (v : value) : string :=
  match v with
  | VNone => "NoneType"
  | VBool _ => "bool"
  | VInt _ => "int"
  | VFloat _ => "float"
  | VStr _ => "str"
  | VBytes _ => "bytes"
  | VList _ => "list"
  | VDict _ => "dict"
  end.

(** What the body of the loop does with the outcome: send a result,
    go on without sending, or leave the loop. *)
Inductive action : Type :=
| Send (result error : value)
| Continue
| Break.

(** The two nested [try] statements.  [mine] is the value of
    [my_task is self._checks.get(path)]. *)
Definition classify `{Imported} (mine : bool) (o : outcome) : action :=
  match o with
  | Returned res =>
      if is_dict res then Send res VNone
      else Send VNone
             (to_dict ("expecting type `dict` as check result but got type `"
                       ++ type_name res ++ "`")%string default_severity)
  | RaisedTimeoutError => Send VNone (to_dict "timed out" default_severity)
  | RaisedCancelledError =>
      if mine then Send VNone (to_dict "cancelled" default_severity)
      else Break
  | RaisedIgnoreCheckException => Break
  | RaisedIgnoreResultException => Continue
  | RaisedIncompleteResultException msg severity result =>
      Send result (to_dict msg severity)
  | RaisedCheckException msg severity => Send VNone (to_dict msg severity)
  | RaisedException str_e type_name =>
      Send VNone
        (to_dict (if String.eqb str_e "" then type_name else str_e)
           default_severity)
  end.

(** The coroutine is over, by [break] or by an exception that nothing
    catches: its task is finished. *)
Definition finish (st : probe Config) (my_task : nat) : probe Config :=
  with_checks st (_checks_config st) (_checks st)
    (<[my_task := TaskFinished]> (tasks st)).

(** Binding the positional arguments of a call to the parameters of a
    function that has [parameters] of them, none with a default: Python
    raises [TypeError] when the numbers differ, before the body runs. *)
Definition bind_positional (parameters : nat) (args : list value)
    : result (list value) :=
  if (length args =? parameters)%nat then Ok args else Raise TypeError.

(** A call of [get_config], which is defined as
    [def get_config(conf: dict, probe_name: str, asset_id)].  The caller
    passes a [str] for [probe_name] and an [int] for [asset_id];
    [conf.get] needs [conf] to be a dict. *)
Definition call_get_config (args : list value) : result value :=
  bind (bind_positional 3 args) (fun bound =>
    match bound with
    | [VDict conf; VStr probe_name; VInt asset_id] =>
        Config.get_config conf probe_name asset_id
    | _ => Raise AttributeError
    end).

(** [_asset_config(asset_id, use)]: [[
try:
    self._read_local_config()
except Exception:
    logging.warning('new config file invalid, keep using previous')
return get_config(self._local_config, self.name, asset_id, use)
]]
    The file and the probe after the call, and what the call returns or
    raises.  A read that raises has changed nothing of the probe. *)
Definition _asset_config `{Yaml} `{Config.Fernet} (st : probe Config)
    (f : file) (now : Z) (asset_id : Z) (use : value)
    : file * probe Config * result value :=
  let '(f', r) := _read_local_config st f now in
  let st' := match r with Ok st' => st' | Raise _ => st end in
  (f', st',
   call_get_config
     [default VNone (_local_config st'); VStr (name st'); VInt asset_id; use]).

(** What the loop reads from a check config: [config.get('_interval')]
    and [config.get('_use')]. *)
Class CheckConfig : Type := {
  _interval : Config → value;
  _use : Config → value
}.

(** [0.8 * interval] raises [TypeError] unless [interval] is a number. *)
Definition is_number (v : value) : bool :=
  match v with
  | VBool _ | VInt _ | VFloat _ => true
  | _ => false
  end.

(** How [await asyncio.sleep(ts_next - ts)] ends. *)
Inductive sleep : Type :=
| Slept
| SleepCancelled.

(** How an iteration ends: the loop goes on with the next one, the
    coroutine returns by [break], or it ends with an exception that no
    [except] clause of the loop catches. *)
Inductive ending : Type :=
| GoesOn
| Breaks
| Fails (e : exn).

(** One iteration of [while True] in [_run_check_loop(path)], for the
    task [my_task]: [[
try:
    await asyncio.sleep(ts_next - ts)
except asyncio.CancelledError:
    break
(asset_name, _), config = self._checks_config[path]
interval = config.get('_interval')
timeout = 0.8 * interval
asset_config = self._asset_config(asset.id, config.get('_use'))
try:
    ... res = await asyncio.wait_for(fun(asset, asset_config, config), ...)
]]
    [check] is the awaited call of the check function as a function of
    the asset config, [mine] is [my_task is self._checks.get(path)].  The
    result is the file and the probe after the iteration and how it ends;
    [None] as for [send]. *)
Definition _run_check_loop_iteration `{Imported} `{Protocol.PackageCodec}
    `{Yaml} `{Config.Fernet} `{CheckConfig} (depth : nat)
    (MAX_PACKAGE_SIZE : Z) (st : probe Config) (f : file) (now : Z)
    (p : path) (my_task : nat) (slept : sleep) (check : value → outcome)
    (ts : Z) (clock : nat → Z) : option (file * probe Config * ending) :=
  match slept with
  | SleepCancelled => Some (f, finish st my_task, Breaks)
  | Slept =>
      match _checks_config st !! p with
      | None => Some (f, finish st my_task, Fails KeyError)
      | Some (_, config) =>
          if is_number (_interval config) then
            let '(f', st', r) := _asset_config st f now (fst p) (_use config) in
            match r with
            | Raise e => Some (f', finish st' my_task, Fails e)
            | Ok asset_config =>
                let mine := bool_decide (_checks st' !! p = Some my_task) in
                match classify mine (check asset_config) with
                | Send result error =>
                    st'' ← send depth MAX_PACKAGE_SIZE st' p result error ts
                             clock 0;
                    Some (f', st'', GoesOn)
                | Continue => Some (f', st', GoesOn)
                | Break => Some (f', finish st' my_task, Breaks)
                end
            end
          else Some (f, finish st my_task, Fails TypeError)
      end
  end.

End ProbeDefs.

(** ** Instances to run the probe with *)

(** Values for the imported names, for the examples. *)
Definition upstream_values : Imported :=
  {| PROTO_FAF_DUMP := 0; PROTO_REQ_ANNOUNCE := 1;
     default_severity := "MEDIUM" |}.

(** A clock that stands still. *)
Definition stopped (now : Z) : nat → Z := fun _ => now.

(** A parser that reads every file as the document [doc]. *)
Definition fixed_yaml (doc : value) : Yaml.
Proof.
  refine {| safe_load := fun _ => if is_text doc then Some doc else None;
            dump := fun _ => "myprobe: ..." |}.
  intros _ d. destruct (is_text doc) eqn:Hdoc; [|discriminate].
  intros [= <-]. exact Hdoc.
Defined.

(** Check configs that are just the interval. *)
Definition interval_config : @CheckConfig Z :=
  {| _interval := VInt; _use := fun _ => VNone |}.

(** A check function that raises [IgnoreCheckException]. *)
Definition ignoring : value → outcome := fun _ => RaisedIgnoreCheckException.

(** A local config with a plain password, and the file that holds it. *)
Definition plain_password_doc : value :=
  VDict [("myprobe", VDict [("config", VDict [("password", VStr "x")])])].

Definition plain_password_file : file :=
  File 1 "myprobe:
  config:
    password: x
".

(** A probe with one check function, [ping], and check configs that are
    just the interval. *)
Definition ping_probe : probe Z := init "myprobe" {["ping"]}.

(** Two assets: asset 1 runs two checks, asset 2 runs one. *)
Definition two_assets : probe Z :=
  _on_set_assets ping_probe
    [((1, 10), ("alpha", "ping"), 300);
     ((1, 11), ("alpha", "ping"), 60);
     ((2, 20), ("beta", "ping"), 300)].

(** An upsert of asset 1: one check kept, one with an unknown key. *)
Definition upsert_alpha : list (path * names * Z) :=
  [((1, 10), ("alpha", "ping"), 300);
   ((1, 12), ("alpha", "traceroute"), 300)].

(** An upsert of asset 1 that carries a check of asset 2. *)
Definition upsert_stray : list (path * names * Z) :=
  [((2, 20), ("beta", "ping"), 5)].

(** The loop of path [(1, 10)] is over: the probe afterwards. *)
Definition alpha_ended : probe Z := finish two_assets 1.

(** The probe with a transport attached, and a result that is too large
    for a limit of one hundred bytes. *)
Definition connected_probe : probe Z :=
  with_protocol ping_probe (Some (Protocol.connection_made Protocol.init)).

Definition large_result : value :=
  VDict [("blob", VBytes (repeat Byte.x00 200))].

(** ** The rest of the probe *)

Section ProbeRest.
Context {Config : Type} `{EqDecision Config}.

(** [is_connected()]:
    [self._protocol is not None and self._protocol.is_connected()] *)
Definition is_connected (st : probe Config) : bool :=
  match _protocol st with
  | Some pr => Protocol.is_connected pr
  | None => false
  end.

(** [close()]: the transport is closed when there is one, and the probe
    lets go of the protocol. *)
Definition close (st : probe Config) : probe Config := with_protocol st None.

(** What changes the tables of the probe: the three push messages, and a
    check loop that is over. *)
Inductive event : Type :=
| SetAssets (assets : list (path * names * Config))
| UnsetAssets (asset_ids : list Z)
| UpsertAsset (asset : Z * list (path * names * Config))
| LoopEnds (my_task : nat).

Definition handle (st : probe Config) (ev : event) : probe Config :=
  match ev with
  | SetAssets assets => _on_set_assets st assets
  | UnsetAssets asset_ids => _on_unset_assets st asset_ids
  | UpsertAsset asset => _on_upsert_asset st asset
  | LoopEnds my_task => finish st my_task
  end.

(** The probes that a new probe can become. *)
Inductive reachable (name : string) (checks : gset string)
    : probe Config → Prop :=
| reachable_init : reachable name checks (init name checks)
| reachable_handle st ev :
    reachable name checks st → reachable name checks (handle st ev).

(** The tables agree: the running paths are the configured paths, every
    configured check has a check function, every running path has a task
    of its own that the event loop knows. *)
Record tables_ok (st : probe Config) : Prop := TablesOk {
  running_configured : dom (_checks st) = dom (_checks_config st);
  keys_registered : ∀ p nm config,
    _checks_config st !! p = Some (nm, config) → snd nm ∈ _checks_funs st;
  handles_known : ∀ p t, _checks st !! p = Some t → is_Some (tasks st !! t);
  handles_distinct : ∀ p1 p2 t,
    _checks st !! p1 = Some t → _checks st !! p2 = Some t → p1 = p2
}.

(** The same for the two maps that the second loop of
    [_set_new_checks_config] works on. *)
Definition handles_ok (acc : gmap path nat * gmap nat task_state) : Prop :=
  (∀ p t, fst acc !! p = Some t → is_Some (snd acc !! t)) ∧
  (∀ p1 p2 t, fst acc !! p1 = Some t → fst acc !! p2 = Some t → p1 = p2).

End ProbeRest.

(** ** [_start] *)

Definition initial_step : Z := 2.
Definition max_step : Z := 2 ^ 7.

(** One evaluation of the loop of [_start]: the number of seconds to
    sleep next, and whether a connection attempt is started. *)
Definition _start_step (connected connecting : bool) (step : Z) : Z * bool :=
  if negb connected && negb connecting
  then (Z.min (step * 2) max_step, true)
  else (initial_step, false).

(** The sleeps of [_start] over a run of evaluations, given what
    [is_connected()] and [is_connecting()] answer at each of them. *)
Fixpoint _start (observed : list (bool * bool)) (step : Z) : list Z :=
  match observed with
  | [] => []
  | (connected, connecting) :: rest =>
      let step' := fst (_start_step connected connecting step) in
      step' :: _start rest step'
  end.

(** A file whose mtime the probe has not seen yet. *)
Definition example_file : file :=
  File 7 "exampleProbe:
  config:
    username: alice
".

(** The probe of [two_assets] with the task of path [(1, 10)] in the
    cancelled state. *)
Definition alpha_cancelled : probe Z :=
  with_checks two_assets (_checks_config two_assets) (_checks two_assets)
    (<[1%nat := TaskCancelled]> (tasks two_assets)).

End Probe.

(* ===================================================================== *)
(** * Facts about libprobe/config.py                                      *)
(* ===================================================================== *)

Module ConfigFacts.
Import Py Config.

Section Walks.
Context `{F : Fernet}.

Lemma encrypt_walk_dict entries :
  encrypt_walk (VDict entries) =
  VDict (map (fun kx => (fst kx, encrypt_entry (fst kx) (snd kx))) entries).
Proof.
  simpl. f_equal. apply map_ext. intros [k x]. reflexivity.
Qed.

Lemma bind_ext {A B} (r : result A) (k1 k2 : A → result B) :
  (∀ a, k1 a = k2 a) → bind r k1 = bind r k2.
Proof. intros Hk. destruct r; simpl; [apply Hk | reflexivity]. Qed.

Lemma decrypt_walk_dict entries :
  decrypt_walk (VDict entries) =
  bind (decrypt_entries entries) (fun e => Ok (VDict e)).
Proof.
  simpl. f_equal.
  induction entries as [|[k x] rest IH]; [reflexivity|].
  cbn [decrypt_entries]. rewrite <- IH. clear IH.
  destruct x; try reflexivity.
  unfold decrypt_entry. f_equal. f_equal.
  induction items as [|item more IHm]; [reflexivity|].
  cbn [decrypt_items]. rewrite <- IHm. reflexivity.
Qed.

Lemma encrypt_walk_is_dict entries : is_dict (encrypt_walk (VDict entries)) = true.
Proof. reflexivity. Qed.

Lemma decrypt_item_dict entries :
  decrypt_item (encrypt_walk (VDict entries)) =
  decrypt_walk (encrypt_walk (VDict entries)).
Proof. reflexivity. Qed.

Lemma decrypt_entry_dict k entries :
  sensitive k = false →
  decrypt_entry k (encrypt_walk (VDict entries)) =
  decrypt_walk (encrypt_walk (VDict entries)).
Proof. intros Hk. cbn [encrypt_walk decrypt_entry]. rewrite Hk. reflexivity. Qed.

Lemma decode_encode s :
  utf8 (list_byte_of_string s) = true → bytes_decode (str_encode s) = Some s.
Proof.
  intros Hs. unfold bytes_decode, str_encode. rewrite Hs.
  by rewrite string_of_list_byte_of_string.
Qed.

Lemma encode_decode b s :
  bytes_decode b = Some s → str_encode s = b ∧ utf8 b = true.
Proof.
  unfold bytes_decode. destruct (utf8 b) eqn:Hb; [|done]. intros [= <-].
  split; [apply list_byte_of_string_of_list_byte|done].
Qed.

Lemma ciphered_dict entries :
  ciphered (VDict entries) =
  forallb (fun kx => ciphered_entry (fst kx) (snd kx)) entries.
Proof.
  simpl. induction entries as [|[k x] rest IH]; [reflexivity|].
  cbn [forallb fst snd]. rewrite <- IH. reflexivity.
Qed.

Lemma ciphered_item_dict entries :
  ciphered_item (encrypt_walk (VDict entries)) =
  ciphered (encrypt_walk (VDict entries)).
Proof. reflexivity. Qed.

Lemma ciphered_entry_dict k entries :
  sensitive k = false →
  ciphered_entry k (encrypt_walk (VDict entries)) =
  ciphered (encrypt_walk (VDict entries)).
Proof. intros Hk. unfold ciphered_entry. rewrite Hk. reflexivity. Qed.

Context `{!FernetLaws F}.

(** What [encrypt] makes of a text is an [{encrypted: token}] leaf. *)
Lemma token_of_text s :
  utf8 (list_byte_of_string s) = true →
  token (VDict [("encrypted", VBytes (fernet_encrypt (str_encode s)))]) = true.
Proof.
  intros Hs. unfold token.
  change (dict_get [("encrypted", VBytes (fernet_encrypt (str_encode s)))] "encrypted")
    with (VBytes (fernet_encrypt (str_encode s))).
  pose proof (fernet_encrypt_nonempty (str_encode s)) as Hne.
  pose proof (fernet_decrypt_encrypt (str_encode s)) as Hde.
  destruct (fernet_encrypt (str_encode s)) as [|b0 bs]; [done|].
  rewrite Hde. exact Hs.
Qed.

(** A plain string under a sensitive key is replaced by a token and
    comes back. *)
Lemma decrypt_encrypt_secret k s :
  sensitive k = true →
  utf8 (list_byte_of_string s) = true →
  decrypt_entry k (encrypt_entry k (VStr s)) = Ok (VStr s) ∧
  ciphered_entry k (encrypt_entry k (VStr s)) = true.
Proof.
  intros Hk Hs. cbn [encrypt_entry]. rewrite Hk. split.
  - cbn [decrypt_entry]. rewrite Hk.
    change (dict_get [("encrypted", VBytes (fernet_encrypt (str_encode s)))] "encrypted")
      with (VBytes (fernet_encrypt (str_encode s))).
    pose proof (fernet_encrypt_nonempty (str_encode s)) as Hne.
    pose proof (fernet_decrypt_encrypt (str_encode s)) as Hde.
    destruct (fernet_encrypt (str_encode s)) as [|b0 bs]; [done|].
    by rewrite Hde, decode_encode.
  - unfold ciphered_entry. rewrite Hk. by apply token_of_text.
Qed.

Lemma restored_items items :
  Forall restored items →
  forallb plain_secrets items = true →
  forallb is_text items = true →
  decrypt_items (map encrypt_item items) = Ok items ∧
  forallb ciphered_item (map encrypt_item items) = true.
Proof.
  induction 1 as [|item more Hitem _ IH]; intros Hp Ht; [done|].
  cbn [forallb] in Hp, Ht.
  apply andb_prop in Hp as [Hp1 Hp2]. apply andb_prop in Ht as [Ht1 Ht2].
  cbn [map decrypt_items forallb].
  destruct (Hitem Hp1 Ht1) as (_ & [-> ->] & _). cbn [bind].
  destruct (IH Hp2 Ht2) as [-> ->]. done.
Qed.

Lemma restored_entries entries :
  Forall (fun kx => restored (snd kx)) entries →
  plain_secrets (VDict entries) = true →
  is_text (VDict entries) = true →
  decrypt_entries
    (map (fun kx => (fst kx, encrypt_entry (fst kx) (snd kx))) entries) =
  Ok entries ∧
  forallb (fun kx => ciphered_entry (fst kx) (snd kx))
    (map (fun kx => (fst kx, encrypt_entry (fst kx) (snd kx))) entries) = true.
Proof.
  induction 1 as [|[k x] rest Hx _ IH]; intros Hp Ht; [done|].
  cbn [plain_secrets forallb] in Hp. apply andb_prop in Hp as [Hp1 Hp2].
  cbn [is_text forallb] in Ht. apply andb_prop in Ht as [Ht1 Ht2].
  cbn [map decrypt_entries forallb fst snd].
  assert (decrypt_entry k (encrypt_entry k x) = Ok x ∧
          ciphered_entry k (encrypt_entry k x) = true) as [-> ->].
  { destruct (sensitive k) eqn:Hk.
    - destruct x; try discriminate. by apply decrypt_encrypt_secret.
    - cbn [snd] in Hx. destruct (Hx Hp1 Ht1) as (_ & _ & Hx3). by apply Hx3. }
  cbn [bind]. destruct (IH Hp2 Ht2) as [-> ->]. done.
Qed.

Lemma restored_all v : restored v.
Proof.
  induction v as [| | | | s| |items IH|entries IH] using value_tree_ind;
    intros Hp Ht.
  1-4,6: split; [done|]; split; [done|]; intros k Hk;
         unfold ciphered_entry; cbn [encrypt_entry]; by rewrite Hk.
  - split; [done|]. split; [done|]. intros k Hk.
    unfold ciphered_entry. cbn [encrypt_entry]. by rewrite Hk.
  - split; [done|]. split; [done|]. intros k Hk.
    destruct (restored_items items IH Hp Ht) as [Hd Hc].
    unfold ciphered_entry. cbn [encrypt_entry decrypt_entry].
    by rewrite Hk, Hd, Hc.
  - destruct (restored_entries entries IH Hp Ht) as [Hd Hc].
    assert (decrypt_walk (encrypt_walk (VDict entries)) = Ok (VDict entries)) as Hw.
    { by rewrite encrypt_walk_dict, decrypt_walk_dict, Hd. }
    assert (ciphered (encrypt_walk (VDict entries)) = true) as Hcw.
    { by rewrite encrypt_walk_dict, ciphered_dict. }
    split; [done|]. split.
    + cbn [encrypt_item]. by rewrite decrypt_item_dict, ciphered_item_dict.
    + intros k Hk. cbn [encrypt_entry].
      by rewrite decrypt_entry_dict, ciphered_entry_dict.
Qed.





End Walks.

Lemma marker_fernet_laws : FernetLaws marker_fernet.
Proof. split; intros b; [reflexivity | discriminate]. Qed.



(** Neither half holds without its hypothesis on the text: a token whose
    plaintext is not UTF-8 makes [decrypt] raise. *)
Example decrypt_not_text :
  @decrypt marker_fernet
    (VDict [("password",
             VDict [("encrypted", VBytes [Byte.x80; Byte.x80; Byte.xff])])]) =
  Raise UnicodeDecodeError.
Proof. reflexivity. Qed.

(** A [password] that holds a dict is walked by [encrypt] but not by
    [decrypt]: the [secret] inside stays encrypted in memory. *)
Remark decrypt_skips_dict_under_secret `{F : Fernet} :
  decrypt (encrypt_walk (VDict [("password", VDict [("secret", VStr "x")])])) =
  Ok (VDict [("password",
              VDict [("secret",
                      VDict [("encrypted",
                              VBytes (fernet_encrypt (str_encode "x")))])])]).
Proof. reflexivity. Qed.

(** ** [get_config] *)

Lemma find_first {A} (f : A → bool) (l pre post : list A) (y : A) :
  l = pre ++ y :: post →
  Forall (fun a => f a = false) pre →
  f y = true →
  List.find f l = Some y.
Proof.
  intros -> Hpre Hy. induction Hpre as [|a pre Ha _ IH]; simpl.
  - by rewrite Hy.
  - by rewrite Ha.
Qed.

Lemma find_no_match {A} (f : A → bool) (l : list A) :
  Forall (fun a => f a = false) l → List.find f l = None.
Proof.
  induction 1 as [|a l Ha _ IH]; simpl; [done|]. by rewrite Ha.
Qed.

Lemma dict_or_empty_is_dict v : is_dict (dict_or_empty v) = true.
Proof. unfold dict_or_empty. by destruct v. Qed.

Lemma get_config_probe conf probe_name asset_id probe :
  dict_get conf probe_name = VDict probe →
  get_config conf probe_name asset_id =
  match assets_items probe with
  | None => Raise TypeError
  | Some items =>
      match List.find (asset_matches asset_id) items with
      | Some (VDict asset) => Ok (dict_or_empty (dict_get asset "config"))
      | _ => Ok (dict_or_empty (dict_get probe "config"))
      end
  end.
Proof.
  intros Hp. unfold get_config, assets_items. rewrite Hp.
  destruct (truthy (dict_get probe "assets")); [|reflexivity].
  destruct (iterate (dict_get probe "assets")); reflexivity.
Qed.

(** C6, amended.  When the [assets] of the probe block can be iterated,
    [get_config] returns a dict: for the first item of [assets] that is a
    dict whose [id] equals [asset_id] or is a list containing it, the
    [config] of that item if it is a dict and the empty dict if not; when
    no item matches, the [config] of the probe block if it is a dict and
    the empty dict if not; the empty dict when the probe block is not a
    dict. *)
Theorem get_config_resolves (conf : dict) (probe_name : string) (asset_id : Z) :
  assets_iterable conf probe_name →
  ∃ config,
    get_config conf probe_name asset_id = Ok config ∧
    is_dict config = true ∧
    match dict_get conf probe_name with
    | VDict probe =>
        ∃ items,
          assets_items probe = Some items ∧
          (∀ pre asset post,
              items = pre ++ VDict asset :: post →
              Forall (fun a => asset_matches asset_id a = false) pre →
              asset_matches asset_id (VDict asset) = true →
              config = dict_or_empty (dict_get asset "config")) ∧
          (Forall (fun a => asset_matches asset_id a = false) items →
           config = dict_or_empty (dict_get probe "config"))
    | _ => config = VDict []
    end.
Proof.
  intros Hiter. unfold assets_iterable in Hiter.
  destruct (dict_get conf probe_name) as [| | | | | | |probe] eqn:Hprobe;
    try (exists (VDict []); unfold get_config; rewrite Hprobe; done).
  destruct (Hiter probe eq_refl) as [items Hitems].
  rewrite (get_config_probe _ _ _ _ Hprobe), Hitems.
  destruct (List.find (asset_matches asset_id) items) as [found|] eqn:Hfind.
  - pose proof (find_some _ _ Hfind) as [_ Hm].
    destruct found as [| | | | | | |asset]; try discriminate.
    exists (dict_or_empty (dict_get asset "config")).
    split; [done|]. split; [apply dict_or_empty_is_dict|].
    exists items. split; [done|]. split.
    + intros pre asset' post Heq Hpre Hm'.
      rewrite (find_first _ _ _ _ _ Heq Hpre Hm') in Hfind. by simplify_eq.
    + intros Hnone. by rewrite (find_no_match _ _ Hnone) in Hfind.
  - exists (dict_or_empty (dict_get probe "config")).
    split; [done|]. split; [apply dict_or_empty_is_dict|].
    exists items. split; [done|]. split; [|done].
    intros pre asset' post Heq Hpre Hm'.
    by rewrite (find_first _ _ _ _ _ Heq Hpre Hm') in Hfind.
Qed.

Lemma get_config_resolves_witness :
  ∃ config,
    get_config example_conf "exampleProbe" 789 = Ok config ∧
    is_dict config = true ∧
    ∃ items,
      assets_items
        [("config",
          VDict [("username", VStr "alice");
                 ("password", VStr "secret_password")]);
         ("assets",
          VList [VDict [("id", VInt 123);
                        ("config",
                         VDict [("username", VStr "bob");
                                ("password", VStr "my secret")])];
                 VDict [("id", VList [VInt 456; VInt 789]);
                        ("config",
                         VDict [("username", VStr "charlie");
                                ("password", VStr "my other secret")])]])]
      = Some items ∧
      (∀ pre asset post,
          items = pre ++ VDict asset :: post →
          Forall (fun a => asset_matches 789 a = false) pre →
          asset_matches 789 (VDict asset) = true →
          config = dict_or_empty (dict_get asset "config")) ∧
      (Forall (fun a => asset_matches 789 a = false) items →
       config = dict_or_empty (dict_get
         [("config",
           VDict [("username", VStr "alice");
                  ("password", VStr "secret_password")]);
          ("assets",
           VList [VDict [("id", VInt 123);
                         ("config",
                          VDict [("username", VStr "bob");
                                 ("password", VStr "my secret")])];
                  VDict [("id", VList [VInt 456; VInt 789]);
                         ("config",
                          VDict [("username", VStr "charlie");
                                 ("password", VStr "my other secret")])]])]
         "config")).
Proof.
  apply (get_config_resolves example_conf "exampleProbe" 789).
  intros probe Hprobe. vm_compute in Hprobe. injection Hprobe as <-.
  vm_compute. eauto.
Defined.

(** C6 does not hold of every document: with a number under [assets]
    the loop over the assets raises [TypeError] and nothing is returned. *)
Lemma get_config_assets_number :
  ¬ ∃ config, get_config conf_assets_number "exampleProbe" 1 = Ok config.
Proof. intros [config Hc]. vm_compute in Hc. discriminate. Qed.

(** The three answers of [get_config] on the document of the docstring. *)
Example get_config_single_id :
  get_config example_conf "exampleProbe" 123 =
  Ok (VDict [("username", VStr "bob"); ("password", VStr "my secret")]).
Proof. reflexivity. Qed.

Example get_config_id_list :
  get_config example_conf "exampleProbe" 789 =
  Ok (VDict [("username", VStr "charlie"); ("password", VStr "my other secret")]).
Proof. reflexivity. Qed.

Example get_config_probe_level :
  get_config example_conf "exampleProbe" 1 =
  Ok (VDict [("username", VStr "alice"); ("password", VStr "secret_password")]).
Proof. reflexivity. Qed.

Example get_config_other_probe :
  get_config example_conf "otherProbe" 123 = Ok (VDict []).
Proof. reflexivity. Qed.

(** ** More about the walks *)

Section MoreWalks.
Context `{F : Fernet}.

Lemma sealed_dict entries :
  sealed (VDict entries) =
  forallb (fun kx => sealed_entry (fst kx) (snd kx)) entries.
Proof.
  simpl. induction entries as [|[k x] rest IH]; [reflexivity|].
  cbn [forallb fst snd]. rewrite <- IH. reflexivity.
Qed.

Lemma sealed_after_all v : sealed_after v.
Proof.
  induction v as [| | | | | |items IH|entries IH] using value_tree_ind;
    try (split; [|split]; [reflexivity..|]; intros k; reflexivity).
  - split; [reflexivity|]. split; [reflexivity|]. intros k.
    cbn [encrypt_entry]. destruct (sensitive k) eqn:Hk; simpl.
    + reflexivity.
    + by rewrite Hk.
  - split; [reflexivity|]. split; [reflexivity|]. intros k.
    cbn [encrypt_entry sealed_entry].
    induction IH as [|item more Hitem _ IHmore]; [reflexivity|].
    cbn [map forallb]. destruct Hitem as (_ & -> & _). exact IHmore.
  - assert (sealed (encrypt_walk (VDict entries)) = true) as Hw.
    { rewrite encrypt_walk_dict, sealed_dict.
      induction IH as [|[k x] rest Hx _ IHrest]; [reflexivity|].
      cbn [map forallb fst snd]. destruct Hx as (_ & _ & ->). exact IHrest. }
    split; [exact Hw|]. split; [exact Hw|]. intros k. exact Hw.
Qed.

Lemma sealed_fixed_all v : sealed_fixed v.
Proof.
  induction v as [| | | | | |items IH|entries IH] using value_tree_ind;
    try (split; [|split]; [reflexivity..|]; intros k Hs; reflexivity).
  - split; [reflexivity|]. split; [reflexivity|]. intros k Hs.
    cbn [sealed_entry] in Hs. cbn [encrypt_entry].
    by destruct (sensitive k).
  - split; [reflexivity|]. split; [reflexivity|]. intros k Hs.
    cbn [sealed_entry] in Hs. cbn [encrypt_entry]. f_equal.
    induction IH as [|item more Hitem _ IHmore]; [reflexivity|].
    cbn [forallb] in Hs. apply andb_prop in Hs as [Hs1 Hs2].
    cbn [map]. destruct Hitem as (_ & Hitem & _).
    by rewrite (Hitem Hs1), (IHmore Hs2).
  - assert (sealed (VDict entries) = true →
            encrypt_walk (VDict entries) = VDict entries) as Hw.
    { rewrite encrypt_walk_dict, sealed_dict. intros Hs. f_equal.
      induction IH as [|[k x] rest Hx _ IHrest]; [reflexivity|].
      cbn [forallb fst snd] in Hs. apply andb_prop in Hs as [Hs1 Hs2].
      cbn [map fst snd]. destruct Hx as (_ & _ & Hx). cbn [snd] in Hx.
      by rewrite (Hx k Hs1), (IHrest Hs2). }
    split; [exact Hw|]. split; [exact Hw|]. intros k. exact Hw.
Qed.

Lemma untouched_all v : untouched v.
Proof.
  induction v as [| | | | | |items IH|entries IH] using value_tree_ind;
    intros Hp; try (split; [|split]; [reflexivity..|]; intros k Hk; reflexivity).
  - split; [reflexivity|]. split; [reflexivity|]. intros k Hk.
    cbn [decrypt_entry].
    assert (decrypt_items items = Ok items) as ->; [|reflexivity].
    cbn [plain_secrets] in Hp.
    induction IH as [|item more Hitem _ IHmore]; [reflexivity|].
    cbn [forallb] in Hp. apply andb_prop in Hp as [Hp1 Hp2].
    cbn [decrypt_items]. destruct (Hitem Hp1) as (_ & -> & _).
    cbn [bind]. by rewrite (IHmore Hp2).
  - assert (decrypt_walk (VDict entries) = Ok (VDict entries)) as Hw.
    { rewrite decrypt_walk_dict.
      assert (decrypt_entries entries = Ok entries) as ->; [|reflexivity].
      cbn [plain_secrets] in Hp.
      induction IH as [|[k x] rest Hx _ IHrest]; [reflexivity|].
      cbn [forallb] in Hp. apply andb_prop in Hp as [Hp1 Hp2].
      cbn [decrypt_entries].
      assert (decrypt_entry k x = Ok x) as ->.
      { destruct (sensitive k) eqn:Hk.
        - by destruct x.
        - destruct (Hx Hp1) as (_ & _ & Hx3). by apply Hx3. }
      cbn [bind]. by rewrite (IHrest Hp2). }
    split; [exact Hw|]. split; [exact Hw|]. intros k Hk.
    cbn [decrypt_entry]. by rewrite Hk.
Qed.

Lemma bind_raise {A B} (r : result A) (k : A → result B) e :
  bind r k = Raise e → r = Raise e ∨ ∃ a, r = Ok a ∧ k a = Raise e.
Proof. destruct r as [a|e']; simpl; [eauto | intros [= ->]; eauto]. Qed.

Lemma raises_on_token_all v : raises_on_token v.
Proof.
  induction v as [| | | | | |items IH|entries IH] using value_tree_ind;
    try (split; [|split]; [discriminate..|]; intros k e; discriminate).
  - assert (∀ e, decrypt_items items = Raise e → token_error e) as Hitems.
    { induction IH as [|item more Hitem _ IHmore]; [discriminate|].
      intros e. cbn [decrypt_items].
      intros [He|(item' & _ & He)]%bind_raise.
      - destruct Hitem as (_ & Hitem & _). by apply Hitem.
      - apply bind_raise in He as [He|(more' & _ & He)]; [|discriminate].
        by apply IHmore. }
    split; [discriminate|]. split; [discriminate|]. intros k e.
    cbn [decrypt_entry].
    intros [He|(items' & _ & He)]%bind_raise; [|discriminate].
    by apply Hitems.
  - assert (∀ e, decrypt_walk (VDict entries) = Raise e → token_error e)
      as Hw.
    { intros e. rewrite decrypt_walk_dict.
      intros [He|(entries' & _ & He)]%bind_raise; [|discriminate].
      revert e He.
      induction IH as [|[k x] rest Hx _ IHrest]; [discriminate|].
      intros e. cbn [decrypt_entries].
      intros [He|(x' & _ & He)]%bind_raise.
      - destruct Hx as (_ & _ & Hx). by eapply Hx.
      - apply bind_raise in He as [He|(rest' & _ & He)]; [|discriminate].
        by apply IHrest. }
    split; [exact Hw|]. split; [exact Hw|]. intros k e.
    cbn [decrypt_entry]. destruct (sensitive k); [|apply Hw].
    destruct (dict_get entries "encrypted") as [| | | | |[|b0 bs]| |];
      try discriminate.
    destruct (fernet_decrypt (b0 :: bs)) as [plain|].
    + destruct (bytes_decode plain); [discriminate|]. intros [= <-]. by right.
    + intros [= <-]. by left.
Qed.

End MoreWalks.

(** X1.  [encrypt] is idempotent: a second pass over a document changes
    nothing, whatever the document and the cipher. *)
Theorem encrypt_idempotent `{F : Fernet} (layer : value) :
  encrypt_walk (encrypt_walk layer) = encrypt_walk layer.
Proof.
  destruct (sealed_fixed_all (encrypt_walk layer)) as (Hfix & _).
  apply Hfix. apply sealed_after_all.
Qed.

(** X2.  After [encrypt] no place that the walk visits holds a plain
    string under a [password] or [secret] key. *)
Theorem encrypt_seals `{F : Fernet} (layer stored : value) :
  encrypt layer = Ok (stored, VNone) → sealed stored = true.
Proof.
  unfold encrypt. destruct layer; try discriminate.
  intros [= <-]. exact (proj1 (sealed_after_all (VDict entries))).
Qed.

Lemma encrypt_seals_witness :
  sealed (@encrypt_walk marker_fernet (VDict example_conf)) = true.
Proof.
  apply (@encrypt_seals marker_fernet (VDict example_conf)). reflexivity.
Defined.

(** The walk does not look into a list that is an item of a list: a
    password there stays as it is. *)
Example encrypt_misses_nested_list `{F : Fernet} :
  encrypt_walk (VDict [("hosts", VList [VList [VDict [("password", VStr "x")]]])]) =
  VDict [("hosts", VList [VList [VDict [("password", VStr "x")]]])].
Proof. reflexivity. Qed.

(** X3.  [decrypt] leaves a document alone whose [password] and [secret]
    values are all plain strings, and does not raise on it. *)
Theorem decrypt_plain_unchanged `{F : Fernet} (layer : dict) :
  plain_secrets (VDict layer) = true →
  decrypt (VDict layer) = Ok (VDict layer).
Proof. intros Hp. by apply (untouched_all (VDict layer)). Qed.

Lemma decrypt_plain_unchanged_witness :
  @decrypt marker_fernet (VDict example_conf) = Ok (VDict example_conf).
Proof.
  apply (@decrypt_plain_unchanged marker_fernet example_conf). reflexivity.
Defined.

(** X4.  On a dict [decrypt] never fails on the shape of the document:
    whatever the dict holds, at any depth, the walk raises neither
    [AttributeError] nor [TypeError]. *)
Theorem decrypt_no_shape_error `{F : Fernet} (entries : dict) :
  decrypt (VDict entries) ≠ Raise AttributeError ∧
  decrypt (VDict entries) ≠ Raise TypeError.
Proof.
  destruct (raises_on_token_all (VDict entries)) as (Hwalk & _).
  split; intros He; by apply Hwalk in He as [He|He].
Qed.

(** The walk stops at a token that [fernet.decrypt] does not accept. *)
Example decrypt_bad_token :
  @decrypt marker_fernet conf_bad_token = Raise InvalidToken.
Proof. reflexivity. Qed.

(** X5.  [get_config] raises exactly when the probe block is a dict
    whose [assets] is [True] or a number other than zero, and what it
    raises is [TypeError]. *)
Theorem get_config_raises (conf : dict) (probe_name : string) (asset_id : Z)
    (e : exn) :
  get_config conf probe_name asset_id = Raise e ↔
  e = TypeError ∧
  ∃ probe, dict_get conf probe_name = VDict probe ∧
           (dict_get probe "assets" = VBool true ∨
            ∃ n, n ≠ 0 ∧ (dict_get probe "assets" = VInt n ∨
                          dict_get probe "assets" = VFloat n)).
Proof.
  split.
  - intros He.
    destruct (dict_get conf probe_name) as [| | | | | | |probe] eqn:Hprobe;
      try (unfold get_config in He; rewrite Hprobe in He; discriminate).
    rewrite (get_config_probe _ _ _ _ Hprobe) in He.
    unfold assets_items in He.
    destruct (dict_get probe "assets") as [|[]|n|n| | | |] eqn:Ha;
      cbn in He;
      repeat match type of He with
             | context [if ?c then _ else _] => destruct c eqn:?
             | context [match ?c with _ => _ end] => destruct c eqn:?
             end; try discriminate; injection He as <-;
      (split; [reflexivity|]); exists probe; (split; [reflexivity|]).
    + by left.
    + right. exists n. split; [|by left]. intros ->. discriminate.
    + right. exists n. split; [|by right]. intros ->. discriminate.
  - intros (-> & probe & Hprobe & Ha).
    rewrite (get_config_probe _ _ _ _ Hprobe). unfold assets_items.
    destruct Ha as [->|(n & Hn & [->| ->])]; cbn.
    + reflexivity.
    + apply Z.eqb_neq in Hn. by rewrite Hn.
    + apply Z.eqb_neq in Hn. by rewrite Hn.
Qed.

End ConfigFacts.

(* ===================================================================== *)
(** * Facts about libprobe/utils.py                                       *)
(* ===================================================================== *)

Module UtilsFacts.
Import Py Utils.

(** ** The order of strings *)

Lemma compare_lt_trans (a b c : string) :
  String.compare a b = Lt → String.compare b c = Lt → String.compare a c = Lt.
Proof.
  revert b c. induction a as [|x a IH]; intros [|y b] [|z c]; simpl; try done.
  unfold Ascii.compare.
  destruct (N.compare_spec (Ascii.N_of_ascii x) (Ascii.N_of_ascii y)),
           (N.compare_spec (Ascii.N_of_ascii y) (Ascii.N_of_ascii z)),
           (N.compare_spec (Ascii.N_of_ascii x) (Ascii.N_of_ascii z));
    try done; try lia.
  apply IH.
Qed.

Lemma compare_refl (a : string) : String.compare a a = Eq.
Proof.
  induction a as [|x a IH]; simpl; [done|].
  unfold Ascii.compare. by rewrite N.compare_refl.
Qed.

Lemma leb_cases (a b : string) :
  String.leb a b = true ↔ String.compare a b = Lt ∨ a = b.
Proof.
  unfold String.leb. destruct (String.compare a b) eqn:Hc.
  - apply String.compare_eq_iff in Hc. by split; [right|].
  - by split; [left|].
  - split; [done|]. intros [?| ->]; [done|].
    rewrite compare_refl in Hc. discriminate.
Qed.

Lemma leb_refl (a : string) : String.leb a a = true.
Proof. apply leb_cases. by right. Qed.

Lemma leb_trans (a b c : string) :
  String.leb a b = true → String.leb b c = true → String.leb a c = true.
Proof.
  rewrite !leb_cases. intros [Hab| ->] [Hbc| ->]; eauto using compare_lt_trans.
Qed.

Lemma leb_false (a b : string) :
  String.leb a b = false → String.leb b a = true ∧ a ≠ b.
Proof.
  intros Hab. split.
  - destruct (String.leb_total a b) as [H|H]; [congruence|done].
  - intros ->. by rewrite leb_refl in Hab.
Qed.

(** ** The insertion sort *)

Lemma insert_perm kx l : insert kx l ≡ₚ kx :: l.
Proof.
  induction l as [|ky rest IH]; simpl; [done|].
  destruct (String.leb (fst kx) (fst ky)); [done|].
  rewrite IH. apply Permutation_swap.
Qed.

Lemma sort_pairs_perm l : sort_pairs l ≡ₚ l.
Proof.
  induction l as [|kx l IH]; simpl; [done|].
  by rewrite insert_perm, IH.
Qed.

Lemma insert_sorted kx l :
  StronglySorted (fun a b => String.leb (fst a) (fst b) = true) l →
  StronglySorted (fun a b => String.leb (fst a) (fst b) = true) (insert kx l).
Proof.
  induction 1 as [|ky rest Hrest IH Hky]; simpl.
  - repeat constructor.
  - destruct (String.leb (fst kx) (fst ky)) eqn:Hle.
    + constructor; [by constructor|]. constructor; [done|].
      eapply Forall_impl; [exact Hky|]. intros kz Hz. simpl in *.
      by eapply leb_trans.
    + constructor; [done|]. rewrite insert_perm. constructor; [|done].
      by apply leb_false in Hle as [? _].
Qed.

Lemma sort_pairs_sorted l :
  StronglySorted (fun a b => String.leb (fst a) (fst b) = true) (sort_pairs l).
Proof.
  induction l as [|kx l IH]; simpl; [constructor|]. by apply insert_sorted.
Qed.

(** An item passes the ones that are smaller, and no other: those with
    its name stay behind it. *)
Lemma insert_filter (P : string * value → Prop) `{∀ x, Decision (P x)} kx l :
  (∀ ky, P ky → P kx → fst ky = fst kx) →
  filter P (insert kx l) = filter P (kx :: l).
Proof.
  intros Hname. induction l as [|ky rest IH]; cbn [insert]; [done|].
  destruct (String.leb (fst kx) (fst ky)) eqn:Hle; [done|].
  rewrite filter_cons, IH. repeat rewrite filter_cons.
  destruct (decide (P ky)) as [Hy|]; [|done].
  destruct (decide (P kx)) as [Hx|]; [|done].
  apply leb_false in Hle as [_ Hne]. by rewrite (Hname ky Hy Hx) in Hne.
Qed.

Lemma sort_pairs_filter (P : string * value → Prop) `{∀ x, Decision (P x)} l :
  (∀ kx ky, P kx → P ky → fst kx = fst ky) →
  filter P (sort_pairs l) = filter P l.
Proof.
  intros Hname. induction l as [|kx l IH]; cbn [sort_pairs foldr]; [done|].
  fold (sort_pairs l). rewrite insert_filter by eauto.
  by rewrite !filter_cons, IH.
Qed.

(** A sorted list is what the sort gives back. *)
Lemma insert_smallest kx l :
  Forall (fun ky => String.leb (fst kx) (fst ky) = true) l →
  insert kx l = kx :: l.
Proof. destruct 1 as [|ky rest Hle _]; simpl; [done|]. by rewrite Hle. Qed.

Lemma sort_pairs_fixed l :
  StronglySorted (fun a b => String.leb (fst a) (fst b) = true) l →
  sort_pairs l = l.
Proof.
  induction 1 as [|kx l Hl IH Hkx]; simpl; [done|].
  rewrite IH. by apply insert_smallest.
Qed.

(** ** Items and their names *)

Lemma keys_names items ks names :
  keys items = Returns ks → str_keys ks = Some names →
  length names = length items ∧ decorated (zip names items).
Proof.
  revert ks names. induction items as [|item more IH]; intros ks names.
  - intros [= <-] [= <-]. split; [done|constructor].
  - cbn [keys]. destruct (_item_name item) as [k|] eqn:Hk; [|done].
    destruct (keys more) as [ks'|] eqn:Hks; [|done]. intros [= <-].
    cbn [str_keys]. destruct k; try done.
    destruct (str_keys ks') as [names'|] eqn:Hn; [|done]. intros [= <-].
    destruct (IH _ _ eq_refl Hn) as [Hlen Hdec]. split; [simpl; lia|].
    constructor; [|done]. unfold name_of. simpl. by rewrite Hk.
Qed.

Lemma decorated_keys l :
  decorated l →
  keys (map snd l) = Returns (map (fun kx => VStr (fst kx)) l) ∧
  str_keys (map (fun kx => VStr (fst kx)) l) = Some (map fst l).
Proof.
  induction 1 as [|[n item] l Hn _ [IH1 IH2]]; [done|].
  cbn [map keys str_keys fst snd] in *. rewrite IH1, IH2.
  unfold name_of in Hn. simpl in Hn.
  destruct (_item_name item) as [[]|]; simplify_eq. done.
Qed.

Lemma zip_fst_snd (l : list (string * value)) : zip (map fst l) (map snd l) = l.
Proof. induction l as [|[n item] l IH]; simpl; [done|]. by rewrite IH. Qed.

Lemma snd_zip_names (names : list string) (items : list value) :
  length names = length items → map snd (zip names items) = items.
Proof.
  revert items. induction names as [|n names IH]; intros [|item items];
    simpl; try done. intros [= Hlen]. by rewrite IH.
Qed.

Lemma named_decorated n (l : list (string * value)) :
  decorated l →
  named n (map snd l) =
  map snd (filter (fun kx : string * value => fst kx = n) l).
Proof.
  unfold named. induction 1 as [|[m item] l Hm _ IH]; [done|].
  cbn [map fst snd] in *. rewrite !filter_cons, IH. cbn [fst].
  destruct (decide (name_of item = Some n)) as [Hn|Hn];
    destruct (decide (m = n)) as [Hmn|Hmn]; try done; congruence.
Qed.

Lemma sorted_names (l : list (string * value)) :
  StronglySorted (fun a b => String.leb (fst a) (fst b) = true) l →
  StronglySorted (fun a b => String.leb a b = true) (map fst l).
Proof.
  induction 1 as [|kx l Hl IH Hkx]; simpl; constructor; [done|].
  apply Forall_fmap. exact Hkx.
Qed.

(** What [sort] returns is the sorted list of the items with their
    names. *)
Lemma sort_inv items items' :
  sort items = Some (Returns items') →
  ∃ l, decorated l ∧ map snd l = items ∧ items' = map snd (sort_pairs l).
Proof.
  unfold sort. destruct (keys items) as [ks|] eqn:Hks; [|done].
  destruct (str_keys ks) as [names|] eqn:Hn; [|done]. intros [= <-].
  destruct (keys_names _ _ _ Hks Hn) as [Hlen Hdec].
  exists (zip names items). split; [done|]. split; [|done].
  by apply snd_zip_names.
Qed.

Lemma sort_decorated l :
  decorated l → sort (map snd l) = Some (Returns (map snd (sort_pairs l))).
Proof.
  intros Hdec. unfold sort.
  destruct (decorated_keys l Hdec) as [-> ->]. by rewrite zip_fst_snd.
Qed.

Lemma sort_pairs_decorated l : decorated l → decorated (sort_pairs l).
Proof.
  unfold decorated. intros Hdec.
  eapply Permutation_Forall; [|exact Hdec]. symmetry. apply sort_pairs_perm.
Qed.

Lemma sort_spec items items' :
  sort items = Some (Returns items') →
  items' ≡ₚ items ∧ in_name_order items' ∧
  (∀ n, named n items' = named n items) ∧
  sort items' = Some (Returns items').
Proof.
  intros (l & Hdec & <- & ->)%sort_inv.
  pose proof (sort_pairs_decorated l Hdec) as Hdec'.
  split; [|split; [|split]].
  - apply Permutation_map, sort_pairs_perm.
  - exists (map fst (sort_pairs l)).
    destruct (decorated_keys _ Hdec') as [-> _].
    split; [by rewrite map_map|]. apply sorted_names, sort_pairs_sorted.
  - intros n. rewrite !named_decorated by done. f_equal.
    apply sort_pairs_filter. intros kx ky Hx Hy. congruence.
  - rewrite sort_decorated by done.
    by rewrite (sort_pairs_fixed _ (sort_pairs_sorted l)).
Qed.

Lemma sort_returns_iff items :
  (∃ items', sort items = Some (Returns items')) ↔
  Forall (fun item => is_Some (name_of item)) items.
Proof.
  split.
  - intros [items' (l & Hdec & <- & _)%sort_inv].
    apply Forall_fmap. eapply Forall_impl; [exact Hdec|].
    intros kx Hkx. simpl. by rewrite Hkx.
  - intros Hall.
    assert (∃ l, decorated l ∧ map snd l = items) as (l & Hdec & <-).
    { induction Hall as [|item more [n Hn] _ (l & Hdec & <-)].
      - exists []. split; [constructor|done].
      - exists ((n, item) :: l). split; [by constructor|done]. }
    eexists. by apply sort_decorated.
Qed.

Lemma order_inv k items rest result' :
  order ((k, VList items) :: rest) = Some (Returns result') →
  ∃ items' rest', sort items = Some (Returns items') ∧
                  order rest = Some (Returns rest') ∧
                  result' = (k, VList items') :: rest'.
Proof.
  cbn [order]. destruct (sort items) as [[items'|]|]; try done.
  destruct (order rest) as [[rest'|]|]; try done.
  intros [= <-]. eauto.
Qed.

(** X6.  When [order] returns, the result has the same keys, and under
    each key the same items, with their names in ascending order. *)
Theorem order_sorts (result result' : dict) :
  order result = Some (Returns result') →
  Forall2 (fun kv kv' =>
             fst kv' = fst kv ∧
             ∃ items items',
               snd kv = VList items ∧ snd kv' = VList items' ∧
               items' ≡ₚ items ∧ in_name_order items')
    result result'.
Proof.
  revert result'. induction result as [|[k v] rest IH]; intros result'.
  - intros [= <-]. constructor.
  - destruct v; try done.
    intros (items' & rest' & Hs & Ho & ->)%order_inv.
    destruct (sort_spec _ _ Hs) as (Hp & Hn & _).
    constructor; [|by apply IH]. split; [done|]. eauto 10.
Qed.

Lemma order_sorts_witness :
  Forall2 (fun kv kv' =>
             fst kv' = fst kv ∧
             ∃ items items',
               snd kv = VList items ∧ snd kv' = VList items' ∧
               items' ≡ₚ items ∧ in_name_order items')
    interfaces
    [("interface",
      VList [VDict [("name", VStr "eth0"); ("speed", VInt 1000)];
             VDict [("name", VStr "eth0"); ("speed", VInt 10)];
             VDict [("name", VStr "eth1"); ("speed", VInt 100)];
             VDict [("name", VStr "lo"); ("speed", VInt 0)]]);
     ("agent", VList [VDict [("name", VStr "probe")]])].
Proof. apply (order_sorts interfaces). reflexivity. Defined.

(** X7.  The sort of [order] is stable: under each key, the items that
    share a name keep the order they had. *)
Theorem order_stable (result result' : dict) :
  order result = Some (Returns result') →
  Forall2 (fun kv kv' =>
             ∃ items items',
               snd kv = VList items ∧ snd kv' = VList items' ∧
               ∀ n, named n items' = named n items)
    result result'.
Proof.
  revert result'. induction result as [|[k v] rest IH]; intros result'.
  - intros [= <-]. constructor.
  - destruct v; try done.
    intros (items' & rest' & Hs & Ho & ->)%order_inv.
    destruct (sort_spec _ _ Hs) as (_ & _ & Hst & _).
    constructor; [|by apply IH]. eauto 10.
Qed.

Lemma order_stable_witness :
  Forall2 (fun kv kv' =>
             ∃ items items',
               snd kv = VList items ∧ snd kv' = VList items' ∧
               ∀ n, named n items' = named n items)
    interfaces
    [("interface",
      VList [VDict [("name", VStr "eth0"); ("speed", VInt 1000)];
             VDict [("name", VStr "eth0"); ("speed", VInt 10)];
             VDict [("name", VStr "eth1"); ("speed", VInt 100)];
             VDict [("name", VStr "lo"); ("speed", VInt 0)]]);
     ("agent", VList [VDict [("name", VStr "probe")]])].
Proof. apply (order_stable interfaces). reflexivity. Defined.

(** X8.  [order] is idempotent: ordering an ordered result gives it
    back. *)
Theorem order_idempotent (result result' : dict) :
  order result = Some (Returns result') →
  order result' = Some (Returns result').
Proof.
  revert result'. induction result as [|[k v] rest IH]; intros result'.
  - by intros [= <-].
  - destruct v; try done.
    intros (items' & rest' & Hs & Ho & ->)%order_inv.
    destruct (sort_spec _ _ Hs) as (_ & _ & _ & Hfix).
    cbn [order]. by rewrite Hfix, (IH _ Ho).
Qed.

Lemma order_idempotent_witness :
  order
    [("interface",
      VList [VDict [("name", VStr "eth0"); ("speed", VInt 1000)];
             VDict [("name", VStr "eth0"); ("speed", VInt 10)];
             VDict [("name", VStr "eth1"); ("speed", VInt 100)];
             VDict [("name", VStr "lo"); ("speed", VInt 0)]]);
     ("agent", VList [VDict [("name", VStr "probe")]])] =
  Some (Returns
    [("interface",
      VList [VDict [("name", VStr "eth0"); ("speed", VInt 1000)];
             VDict [("name", VStr "eth0"); ("speed", VInt 10)];
             VDict [("name", VStr "eth1"); ("speed", VInt 100)];
             VDict [("name", VStr "lo"); ("speed", VInt 0)]]);
     ("agent", VList [VDict [("name", VStr "probe")]])]).
Proof. apply (order_idempotent interfaces). reflexivity. Defined.

Lemma order_returns_well_named (result : dict) :
  (∃ result', order result = Some (Returns result')) ↔ well_named result.
Proof.
  unfold well_named. induction result as [|[k v] rest IH].
  - split; [constructor|by eexists].
  - split.
    + intros [result' Ho]. destruct v; try done.
      apply order_inv in Ho as (items' & rest' & Hs & Ho & ->).
      constructor.
      * exists items. split; [done|]. apply sort_returns_iff. eauto.
      * apply IH. eauto.
    + intros Hall. apply Forall_cons in Hall as [(items & Hv & Hitems) Hrest].
      simpl in Hv. subst v.
      apply sort_returns_iff in Hitems as [items' Hs].
      apply IH in Hrest as [rest' Ho].
      exists ((k, VList items') :: rest'). cbn [order]. by rewrite Hs, Ho.
Qed.

Lemma keys_str_keys items ks :
  forallb (fun item =>
             match _item_name item with
             | Returns (VStr _) => true
             | Returns _ => false
             | Raises _ => true
             end) items = true →
  keys items = Returns ks → is_Some (str_keys ks).
Proof.
  revert ks. induction items as [|item more IH]; intros ks.
  - intros _ [= <-]. by eexists.
  - cbn [forallb keys]. intros [Hitem Hmore]%andb_true_iff.
    destruct (_item_name item) as [v|e]; [|done].
    destruct (keys more) as [ks'|e]; [|done]. intros [= <-].
    destruct (IH ks' Hmore eq_refl) as [names Hnames].
    destruct v; try done. cbn [str_keys]. rewrite Hnames. by eexists.
Qed.

Lemma order_covered result :
  str_named result = true → is_Some (order result).
Proof.
  induction result as [|[k v] rest IH]; [by eexists|].
  cbn [str_named forallb snd]. intros [Hitems Hrest]%andb_true_iff.
  destruct v as [| | | | | |items|]; try by eexists. cbn [order]. unfold sort.
  destruct (keys items) as [ks|e] eqn:Hkeys; [|by eexists].
  destruct (keys_str_keys _ _ Hitems Hkeys) as [names ->].
  destruct (IH Hrest) as [[rest'|e] ->]; by eexists.
Qed.

(** X9.  On a result whose names are strings, [order] returns when every
    value is a list of dicts that have a [name], and raises otherwise. *)
Theorem order_returns_or_raises (result : dict) :
  str_named result = true →
  (well_named result ∧ ∃ result', order result = Some (Returns result')) ∨
  (¬ well_named result ∧ ∃ e, order result = Some (Raises e)).
Proof.
  intros Hnamed. destruct (order_covered _ Hnamed) as [[result'|e] Ho].
  - left. split; [|by eexists]. apply order_returns_well_named. by eexists.
  - right. split; [|by eexists].
    intros [result' Hr]%order_returns_well_named. congruence.
Qed.

Lemma order_returns_or_raises_witness :
  (well_named [("interface", VList [VDict [("name", VStr "eth0")];
                                    VDict [("speed", VInt 10)]])] ∧
   ∃ result', order [("interface", VList [VDict [("name", VStr "eth0")];
                                          VDict [("speed", VInt 10)]])] =
              Some (Returns result')) ∨
  (¬ well_named [("interface", VList [VDict [("name", VStr "eth0")];
                                      VDict [("speed", VInt 10)]])] ∧
   ∃ e, order [("interface", VList [VDict [("name", VStr "eth0")];
                                    VDict [("speed", VInt 10)]])] =
        Some (Raises e)).
Proof.
  apply (order_returns_or_raises
           [("interface", VList [VDict [("name", VStr "eth0")];
                                 VDict [("speed", VInt 10)]])]).
  reflexivity.
Defined.

(** An item without a name ends the call with [KeyError], a value that
    is not a list with [AttributeError]. *)
Example order_missing_name :
  order [("interface", VList [VDict [("name", VStr "eth0")];
                              VDict [("speed", VInt 10)]])] =
  Some (Raises KeyError).
Proof. reflexivity. Qed.

Example order_not_a_list :
  order [("interface", VDict [("name", VStr "eth0")])] =
  Some (Raises AttributeError).
Proof. reflexivity. Qed.

End UtilsFacts.

(* ===================================================================== *)
(** * Facts about libprobe/net/protocol.py                                *)
(* ===================================================================== *)

Module ProtocolFacts.
Import Py Protocol.

Section Table.
Context `{C : PackageCodec}.

Lemma init_ok : table_ok init.
Proof. split; simpl; intros; simplify_map_eq; lia. Qed.

(** Popping entries and touching futures or timers keeps the table in
    order. *)
Lemma table_ok_shrink st st' :
  table_ok st →
  _pid st' = _pid st →
  next_object st' = next_object st →
  _requests st' ⊆ _requests st →
  table_ok st'.
Proof.
  intros [H1 H2 H3 H4] Hpid Hnext Hsub. split.
  - by rewrite Hpid.
  - intros p e He. eapply H2, lookup_weaken; eauto.
  - intros p f t He. rewrite Hnext. eapply H3, lookup_weaken; eauto.
  - intros p1 p2 f t1 t2 He1 He2.
    eapply H4; eapply lookup_weaken; eauto.
Qed.

Lemma request_pid st pkg timeout :
  _pid (fst (request st pkg timeout)) = (_pid st + 1) mod 65536.
Proof. unfold request. by destruct (transport st). Qed.

Lemma request_table st pkg timeout :
  ∃ task,
    _requests (fst (request st pkg timeout)) =
    <[(_pid st + 1) mod 65536 :=
        ((if timeout_set timeout then S (next_object st) else next_object st),
         task)]> (_requests st) ∧
    next_object (fst (request st pkg timeout)) =
    S (if timeout_set timeout then S (next_object st) else next_object st) ∧
    futures (fst (request st pkg timeout)) =
    <[(if timeout_set timeout then S (next_object st) else next_object st)
        := FPending]> (futures st).
Proof. unfold request. destruct (transport st); simpl; eauto. Qed.

Lemma request_ok st pkg timeout :
  table_ok st → table_ok (fst (request st pkg timeout)).
Proof.
  intros [H1 H2 H3 H4].
  destruct (request_table st pkg timeout) as (task & Ht & Hn & _).
  pose proof (request_pid st pkg timeout) as Hp.
  assert (0 ≤ (_pid st + 1) mod 65536 < 65536) as Hr
    by (apply Z.mod_pos_bound; lia).
  split.
  - by rewrite Hp.
  - intros p e. rewrite Ht. intros He.
    destruct (decide ((_pid st + 1) mod 65536 = p)) as [<-|Hne]; [done|].
    rewrite lookup_insert_ne in He by done. eauto.
  - intros p f t. rewrite Ht, Hn. intros He.
    destruct (decide ((_pid st + 1) mod 65536 = p)) as [<-|Hne].
    + rewrite lookup_insert_eq in He. simplify_eq. lia.
    + rewrite lookup_insert_ne in He by done. apply H3 in He.
      destruct (timeout_set timeout); lia.
  - intros p1 p2 f t1 t2. rewrite Ht. intros He1 He2.
    destruct (decide ((_pid st + 1) mod 65536 = p1)) as [<-|Hne1];
      destruct (decide ((_pid st + 1) mod 65536 = p2)) as [<-|Hne2];
      [done|..].
    + rewrite lookup_insert_eq in He1. rewrite lookup_insert_ne in He2 by done.
      simplify_eq. apply H3 in He2. destruct (timeout_set timeout); lia.
    + rewrite lookup_insert_eq in He2. rewrite lookup_insert_ne in He1 by done.
      simplify_eq. apply H3 in He1. destruct (timeout_set timeout); lia.
    + rewrite lookup_insert_ne in He1, He2 by done. eauto.
Qed.

Lemma timer_ok st t : table_ok st → table_ok (_timer st t).
Proof.
  intros Hok. unfold _timer.
  destruct (timers st !! t) as [[p []]|]; try done.
  destruct (_requests st !! p) as [[future task]|];
    (eapply table_ok_shrink; [exact Hok|done..|]); simpl;
    [apply delete_subseteq|done].
Qed.

Lemma response_received_ok st pkg :
  table_ok st → table_ok (response_received st pkg).
Proof.
  intros Hok. unfold response_received, _get_future.
  destruct (_requests st !! pid pkg) as [[future [t|]]|]; [| |done];
    (eapply table_ok_shrink; [exact Hok|done..|]; simpl; apply delete_subseteq).
Qed.

Lemma step_ok st ev : table_ok st → table_ok (step st ev).
Proof.
  intros Hok. destruct ev; simpl.
  - eapply table_ok_shrink; [exact Hok|done..].
  - eapply table_ok_shrink; [exact Hok|done..].
  - by apply request_ok.
  - by apply timer_ok.
  - by apply response_received_ok.
Qed.

Lemma reachable_ok st : reachable st → table_ok st.
Proof. induction 1; [apply init_ok | by apply step_ok]. Qed.

(** The pids of [n] requests in a row count up from the current pid,
    modulo [2^16]. *)
Lemma requests_pids n st pkg timeout :
  fst (requests n st pkg timeout) =
  (fun i => (_pid st + Z.of_nat i) mod 65536) <$> seq 1 n.
Proof.
  revert st. induction n as [|n IH]; intros st; [reflexivity|].
  cbn [requests].
  destruct (requests n (fst (request st pkg timeout)) pkg timeout)
    as [pids st2] eqn:Hreq.
  pose proof (IH (fst (request st pkg timeout))) as IH'.
  rewrite Hreq in IH'. cbn [fst] in IH' |- *.
  rewrite IH', request_pid. cbn [seq fmap list_fmap]. f_equal.
  rewrite <- (fmap_S_seq 1), <- list_fmap_compose.
  apply list_fmap_ext. intros _ i _. simpl.
  rewrite Zplus_mod_idemp_l. f_equal. lia.
Qed.

Lemma pids_distinct (a : Z) (n : nat) :
  Z.of_nat n ≤ 65536 →
  NoDup ((fun i => (a + Z.of_nat i) mod 65536) <$> seq 1 n).
Proof.
  intros Hn. apply NoDup_fmap_2_strong; [|apply NoDup_seq].
  intros i j Hi Hj Heq.
  apply elem_of_seq in Hi, Hj.
  assert ((Z.of_nat i - Z.of_nat j) mod 65536 = 0) as Hd.
  { replace (Z.of_nat i - Z.of_nat j)
      with ((a + Z.of_nat i) - (a + Z.of_nat j)) by lia.
    rewrite Zminus_mod, Heq, Z.sub_diag. reflexivity. }
  apply Z.mod_divide in Hd; [|lia]. destruct Hd as [q Hq].
  assert (q = 0) by lia. lia.
Qed.

End Table.

(** C8.  In a reachable state, a call of [request] moves the pid to the
    next one modulo [2^16], a number in [\[0, 2^16)], and files a pending
    future under it; [n] calls in a row hand out the pids that follow the
    current one in increasing order modulo [2^16], all different as long
    as [n] is at most [2^16]; and the table holds 16-bit pids only, each
    with one entry, and no future under two pids. *)
Theorem pid_cycle_and_table `{C : PackageCodec} (st : state) (pkg : package)
    (timeout : option Z) (n : nat) :
  reachable st →
  Z.of_nat n ≤ 65536 →
  _pid (fst (request st pkg timeout)) = (_pid st + 1) mod 65536 ∧
  0 ≤ _pid (fst (request st pkg timeout)) < 65536 ∧
  (∃ f task,
      _requests (fst (request st pkg timeout))
        !! _pid (fst (request st pkg timeout)) = Some (f, task) ∧
      futures (fst (request st pkg timeout)) !! f = Some FPending) ∧
  fst (requests n st pkg timeout) =
    ((fun i => (_pid st + Z.of_nat i) mod 65536) <$> seq 1 n) ∧
  NoDup (fst (requests n st pkg timeout)) ∧
  table_ok st.
Proof.
  intros Hreach Hn.
  pose proof (request_pid st pkg timeout) as Hp.
  destruct (request_table st pkg timeout) as (task & Ht & _ & Hf).
  split; [exact Hp|]. split.
  { rewrite Hp. apply Z.mod_pos_bound. lia. }
  split.
  { eexists _, task. rewrite Hp, Ht, Hf.
    split; apply lookup_insert_eq. }
  split; [apply requests_pids|]. split.
  { rewrite requests_pids. by apply pids_distinct. }
  by apply reachable_ok.
Qed.

Lemma pid_cycle_and_table_witness :
  _pid (fst (@request counting_codec init announce None)) =
    (_pid init + 1) mod 65536 ∧
  0 ≤ _pid (fst (@request counting_codec init announce None)) < 65536 ∧
  (∃ f task,
      _requests (fst (@request counting_codec init announce None))
        !! _pid (fst (@request counting_codec init announce None))
        = Some (f, task) ∧
      futures (fst (@request counting_codec init announce None)) !! f
        = Some FPending) ∧
  fst (@requests counting_codec 3 init announce None) =
    ((fun i => (_pid init + Z.of_nat i) mod 65536) <$> seq 1 3) ∧
  NoDup (fst (@requests counting_codec 3 init announce None)) ∧
  table_ok init.
Proof.
  apply (@pid_cycle_and_table counting_codec init announce None 3).
  - apply reachable_init.
  - simpl. lia.
Defined.

(** The pid wraps around: the request after pid [65535] gets pid [0]. *)
Example pid_wraps `{C : PackageCodec} st pkg timeout :
  _pid st = 65535 → _pid (fst (request st pkg timeout)) = 0.
Proof. intros Hp. rewrite request_pid, Hp. reflexivity. Qed.

(** C10.  Without a transport, [request] does not return a future: the
    call ends in [AssertionError].  [is_connected] tells the two cases
    apart. *)
Theorem request_without_transport `{C : PackageCodec} (st : state)
    (pkg : package) (timeout : option Z) :
  is_connected st = false →
  transport st = None ∧
  snd (request st pkg timeout) = Raise AssertionError ∧
  ∀ future, snd (request st pkg timeout) ≠ Ok future.
Proof.
  unfold is_connected, request. intros Hc.
  destruct (transport st); [discriminate|]. simpl. done.
Qed.

Lemma request_without_transport_witness :
  transport init = None ∧
  snd (@request counting_codec init announce (Some 10)) = Raise AssertionError ∧
  ∀ future, snd (@request counting_codec init announce (Some 10)) ≠ Ok future.
Proof.
  apply (@request_without_transport counting_codec init announce (Some 10)).
  reflexivity.
Defined.

(** With a transport the call returns the future and writes the frame. *)
Lemma request_with_transport `{C : PackageCodec} st pkg timeout written :
  transport st = Some written →
  ∃ future,
    snd (request st pkg timeout) = Ok future ∧
    transport (fst (request st pkg timeout)) =
    Some (written ++ [to_bytes (set_pid pkg ((_pid st + 1) mod 65536))]).
Proof. unfold request. intros ->. simpl. eauto. Qed.

(** C1, amended.  [connection_lost] clears the buffered bytes and the
    partial package and drops the transport; the request table and the
    futures are what they were, so the outstanding futures are the same
    and in the same state. *)
Theorem connection_lost_keeps_requests (st : state) :
  _buffered_data (connection_lost st) = [] ∧
  _package (connection_lost st) = None ∧
  transport (connection_lost st) = None ∧
  _requests (connection_lost st) = _requests st ∧
  futures (connection_lost st) = futures st ∧
  ∀ f, outstanding (connection_lost st) f ↔ outstanding st f.
Proof. unfold outstanding. simpl. done. Qed.

(** C1 as stated fails: the future of a request sent before the
    connection drops is outstanding and still pending afterwards, no
    exception has been set on it. *)
Lemma connection_lost_leaves_pending :
  ¬ (∀ f, outstanding announced f →
          ∃ e, futures (connection_lost announced) !! f = Some (FException e)).
Proof.
  intros Hall. destruct (Hall 0%nat) as [e He].
  - exists 1, None. reflexivity.
  - vm_compute in He. discriminate.
Qed.

(** The only failure that an outstanding future can still meet is the
    one of its timer. *)
Example timer_after_connection_lost :
  let st := fst (@request counting_codec (connection_made init) announce (Some 10)) in
  futures (connection_lost st) !! 1%nat = Some FPending ∧
  futures (_timer (connection_lost st) 0) !! 1%nat =
  Some (FException (TimeoutError 1)).
Proof. split; reflexivity. Qed.

(** ** Requests, responses and timers *)

Section Objects.
Context `{C : PackageCodec}.

Lemma request_timers st pkg timeout :
  timers (fst (request st pkg timeout)) =
  if timeout_set timeout
  then <[next_object st := Timer ((_pid st + 1) mod 65536) false]> (timers st)
  else timers st.
Proof. unfold request. destruct (transport st), (timeout_set timeout); done. Qed.

Lemma request_objects_ok st pkg timeout :
  table_ok st → objects_ok st → objects_ok (fst (request st pkg timeout)).
Proof.
  intros [_ _ Hknown _] [Hpend Htim].
  destruct (request_table st pkg timeout) as (task & Ht & Hn & Hf).
  split.
  - intros p f t. rewrite Ht, Hf. intros He.
    destruct (decide ((_pid st + 1) mod 65536 = p)) as [<-|Hne].
    + rewrite lookup_insert_eq in He. simplify_eq. apply lookup_insert_eq.
    + rewrite lookup_insert_ne in He by done.
      rewrite lookup_insert_ne; [by eapply Hpend|].
      apply Hknown in He. destruct (timeout_set timeout); lia.
  - intros t tm. rewrite request_timers, Hn.
    destruct (timeout_set timeout).
    + destruct (decide (next_object st = t)) as [<-|Hne]; [lia|].
      rewrite lookup_insert_ne by done. intros Hl%Htim. lia.
    + intros Hl%Htim. lia.
Qed.

Lemma timer_objects_ok st t :
  table_ok st → objects_ok st → objects_ok (_timer st t).
Proof.
  intros [_ _ _ Hinj] [Hpend Htim]. unfold _timer.
  destruct (timers st !! t) as [[p []]|] eqn:Ht; try done.
  destruct (_requests st !! p) as [[future task]|] eqn:Hp; split; simpl.
  - intros p2 f2 t2 He.
    destruct (decide (p = p2)) as [<-|Hne]; [by rewrite lookup_delete_eq in He|].
    rewrite lookup_delete_ne in He by done.
    rewrite lookup_insert_ne; [by eapply Hpend|].
    intros <-. apply Hne. by eapply Hinj.
  - intros t2 tm Hl. eapply Htim, (lookup_weaken _ _ _ _ Hl), delete_subseteq.
  - exact Hpend.
  - intros t2 tm Hl. eapply Htim, (lookup_weaken _ _ _ _ Hl), delete_subseteq.
Qed.

Lemma response_objects_ok st pkg :
  table_ok st → objects_ok st → objects_ok (response_received st pkg).
Proof.
  intros [_ _ _ Hinj] [Hpend Htim]. unfold response_received, _get_future.
  destruct (_requests st !! pid pkg) as [[future task]|] eqn:Hp; [|done].
  assert (∀ p2 f2 t2,
            delete (pid pkg) (_requests st) !! p2 = Some (f2, t2) →
            <[future := FResult (data pkg)]> (futures st) !! f2 = Some FPending)
    as Hrest.
  { intros p2 f2 t2 He.
    destruct (decide (pid pkg = p2)) as [<-|Hne];
      [by rewrite lookup_delete_eq in He|].
    rewrite lookup_delete_ne in He by done.
    rewrite lookup_insert_ne; [by eapply Hpend|].
    intros <-. apply Hne. by eapply Hinj. }
  destruct task as [t|]; split; simpl; try exact Hrest; try exact Htim.
  intros t2 tm. rewrite lookup_alter.
  destruct (decide (t = t2)) as [<-|]; [|by apply Htim].
  destruct (timers st !! t) eqn:Hl; [|done]. intros _. by eapply Htim.
Qed.

Lemma reachable_objects_ok st : reachable st → objects_ok st.
Proof.
  induction 1 as [|st ev Hreach IH].
  - split; simpl; intros; simplify_map_eq.
  - pose proof (reachable_ok st Hreach) as Hok. destruct ev; simpl.
    + destruct IH. by split.
    + destruct IH. by split.
    + by apply request_objects_ok.
    + by apply timer_objects_ok.
    + by apply response_objects_ok.
Qed.

Lemma requests_reachable n st pkg timeout :
  reachable st → reachable (snd (requests n st pkg timeout)).
Proof.
  revert st. induction n as [|n IH]; intros st Hreach; [done|].
  cbn [requests].
  destruct (requests n (fst (request st pkg timeout)) pkg timeout)
    as [pids st2] eqn:Hreq.
  cbn [snd]. change st2 with (snd (pids, st2)). rewrite <- Hreq.
  apply IH. apply (reachable_step st (Request pkg timeout) Hreach).
Qed.

End Objects.

(** X10.  The future that [request] creates is the one that
    [_get_future] hands out for a package with the pid of the request;
    it is pending, the entry is gone afterwards and the rest of the table
    is what it was before the request, without that pid. *)
Theorem request_then_get_future `{C : PackageCodec} (st : state)
    (pkg response : package) (timeout : option Z) :
  pid response = (_pid st + 1) mod 65536 →
  ∃ future,
    snd (_get_future (fst (request st pkg timeout)) response) = Some future ∧
    futures (fst (request st pkg timeout)) !! future = Some FPending ∧
    (∀ written, transport st = Some written →
                snd (request st pkg timeout) = Ok future) ∧
    _requests (fst (_get_future (fst (request st pkg timeout)) response)) =
    delete (pid response) (_requests st).
Proof.
  intros Hpid.
  destruct (request_table st pkg timeout) as (task & Ht & _ & Hf).
  eexists. unfold _get_future. rewrite Ht, Hpid, lookup_insert_eq.
  split; [reflexivity|]. split; [rewrite Hf; apply lookup_insert_eq|]. split.
  - intros written Hw. unfold request. by rewrite Hw.
  - destruct task; simpl; rewrite Ht; apply delete_insert_eq.
Qed.

Lemma request_then_get_future_witness :
  ∃ future,
    snd (_get_future
           (fst (@request counting_codec (connection_made init) announce
                   (Some 10))) answer) = Some future ∧
    futures (fst (@request counting_codec (connection_made init) announce
                    (Some 10))) !! future = Some FPending ∧
    (∀ written, transport (connection_made init) = Some written →
                snd (@request counting_codec (connection_made init) announce
                       (Some 10)) = Ok future) ∧
    _requests (fst (_get_future
                      (fst (@request counting_codec (connection_made init)
                              announce (Some 10))) answer)) =
    delete (pid answer) (_requests (connection_made init)).
Proof.
  apply (@request_then_get_future counting_codec (connection_made init)
           announce answer (Some 10)).
  reflexivity.
Defined.

(** X11.  A response that comes before the timeout wins: [_get_future]
    cancels the timer of the request, and that timer does nothing when
    its time is up. *)
Theorem response_cancels_timer (st : state) (response : package)
    (future t : nat) :
  _requests st !! pid response = Some (future, Some t) →
  snd (_get_future st response) = Some future ∧
  _timer (fst (_get_future st response)) t = fst (_get_future st response).
Proof.
  intros Hp. unfold _get_future. rewrite Hp. split; [reflexivity|].
  unfold _timer. cbn [fst timers cancel_timer pop_request].
  rewrite lookup_alter, decide_True by done.
  by destruct (timers st !! t) as [[p b]|].
Qed.

Lemma response_cancels_timer_witness :
  snd (_get_future awaited answer) = Some 1%nat ∧
  _timer (fst (_get_future awaited answer)) 0 = fst (_get_future awaited answer).
Proof.
  apply (response_cancels_timer awaited answer 1 0). reflexivity.
Defined.

(** X12.  When the timer of a request fires first, the future fails with
    [TimeoutError] and the entry is gone: a response that comes later
    finds no future and changes nothing. *)
Theorem timeout_then_late_response (st : state) (response : package)
    (future t : nat) (task : option nat) :
  timers st !! t = Some (Timer (pid response) false) →
  _requests st !! pid response = Some (future, task) →
  futures (_timer st t) !! future =
    Some (FException (TimeoutError (pid response))) ∧
  _get_future (_timer st t) response = (_timer st t, None).
Proof.
  intros Ht Hp. unfold _timer. rewrite Ht, Hp. split.
  - apply lookup_insert_eq.
  - unfold _get_future. simpl. by rewrite lookup_delete_eq.
Qed.

Lemma timeout_then_late_response_witness :
  futures (_timer awaited 0) !! 1%nat = Some (FException (TimeoutError 1)) ∧
  _get_future (_timer awaited 0) answer = (_timer awaited 0, None).
Proof.
  apply (timeout_then_late_response awaited answer 1 0 (Some 0%nat));
    reflexivity.
Defined.

(** X13.  In every state that can be reached, a future that is still in
    the request table is pending: the timer and the response handler
    never meet a future that is already done. *)
Theorem outstanding_is_pending `{C : PackageCodec} (st : state) (f : nat) :
  reachable st → outstanding st f → futures st !! f = Some FPending.
Proof.
  intros Hreach (p & task & Hp).
  by eapply (table_pending st (reachable_objects_ok st Hreach)).
Qed.

Lemma outstanding_is_pending_witness :
  futures awaited !! 1%nat = Some FPending.
Proof.
  apply (@outstanding_is_pending counting_codec awaited 1).
  - apply (reachable_step _ (Request announce (Some 10))).
    apply (reachable_step _ ConnectionMade). apply reachable_init.
  - exists 1, (Some 0%nat). reflexivity.
Defined.

(** X14.  When the pid counter comes round to a pid whose request is
    still waiting, the new request takes the entry over.  The timer of
    the old request then fails the future of the new one, and the old
    future is left as it is. *)
Theorem stale_timer_fails_new_request `{C : PackageCodec} (st : state)
    (pkg : package) (timeout : option Z) (f_old t_old : nat) :
  _requests st !! ((_pid st + 1) mod 65536) = Some (f_old, Some t_old) →
  timers st !! t_old = Some (Timer ((_pid st + 1) mod 65536) false) →
  (t_old < next_object st)%nat →
  (f_old < next_object st)%nat →
  ∃ f_new task,
    f_new ≠ f_old ∧
    _requests (fst (request st pkg timeout)) !! ((_pid st + 1) mod 65536) =
      Some (f_new, task) ∧
    futures (_timer (fst (request st pkg timeout)) t_old) !! f_new =
      Some (FException (TimeoutError ((_pid st + 1) mod 65536))) ∧
    futures (_timer (fst (request st pkg timeout)) t_old) !! f_old =
      futures st !! f_old.
Proof.
  intros Hold Htimer Ht Hf.
  destruct (request_table st pkg timeout) as (task & Htab & _ & Hfut).
  pose proof (request_timers st pkg timeout) as Htim.
  set (f_new := if timeout_set timeout then S (next_object st)
                else next_object st) in *.
  assert (f_new ≠ f_old) as Hne
    by (subst f_new; destruct (timeout_set timeout); lia).
  assert (timers (fst (request st pkg timeout)) !! t_old =
          Some (Timer ((_pid st + 1) mod 65536) false)) as Htimer'.
  { rewrite Htim. destruct (timeout_set timeout); [|done].
    rewrite lookup_insert_ne; [done|lia]. }
  assert (_requests (fst (request st pkg timeout)) !! ((_pid st + 1) mod 65536)
          = Some (f_new, task)) as Hnew
    by (rewrite Htab; apply lookup_insert_eq).
  exists f_new, task. split; [done|]. split; [done|].
  unfold _timer. rewrite Htimer', Hnew. cbn [futures set_future]. split.
  - apply lookup_insert_eq.
  - rewrite lookup_insert_ne by done. cbn [futures pop_request timer_done].
    rewrite Hfut. by rewrite lookup_insert_ne.
Qed.

Lemma stale_timer_fails_new_request_witness :
  ∃ f_new task,
    f_new ≠ 1%nat ∧
    _requests (fst (@request counting_codec wrapped announce None))
      !! ((_pid wrapped + 1) mod 65536) = Some (f_new, task) ∧
    futures (_timer (fst (@request counting_codec wrapped announce None)) 0)
      !! f_new = Some (FException (TimeoutError ((_pid wrapped + 1) mod 65536))) ∧
    futures (_timer (fst (@request counting_codec wrapped announce None)) 0)
      !! 1%nat = futures wrapped !! 1%nat.
Proof.
  apply (@stale_timer_fails_new_request counting_codec wrapped announce None
           1 0).
  - reflexivity.
  - reflexivity.
  - simpl. lia.
  - simpl. lia.
Defined.

(** ** [data_received] *)

Section Receive.
Context `{P : PackageParser}.

Lemma with_buffer_same st buffer partial :
  _requests (with_buffer st buffer partial) = _requests st ∧
  futures (with_buffer st buffer partial) = futures st ∧
  timers (with_buffer st buffer partial) = timers st ∧
  transport (with_buffer st buffer partial) = transport st ∧
  _pid (with_buffer st buffer partial) = _pid st.
Proof. done. Qed.

Context `{!ParserConsumes P}.


End Receive.




(** ** Delivery in pieces *)

Section Pieces.
Context `{P : PackageParser}.

(** More fuel does not change what the loop returns. *)
Lemma receive_loop_more_fuel fuel extra st received res :
  receive_loop fuel st received = Some res →
  receive_loop (fuel + extra) st received = Some res.
Proof.
  revert st received. induction fuel as [|fuel IH]; intros st received.
  - destruct extra as [|extra]; [done|]. cbn [Nat.add receive_loop].
    destruct (_buffered_data st) as [|b0 bs]; [done|].
    destruct (match _package st with Some total => Some total | None => _ end)
      as [total|]; [|done].
    by destruct (Z.of_nat _ <? total).
  - cbn [Nat.add receive_loop].
    destruct (_buffered_data st) as [|b0 bs]; [done|].
    destruct (match _package st with Some total => Some total | None => _ end)
      as [total|]; [|done].
    destruct (Z.of_nat _ <? total); [done|].
    destruct (extract_data_from (b0 :: bs)) as [[pkg| |] buffer]; apply IH.
Qed.

(** The packages collected before do not matter to the loop. *)
Lemma receive_loop_received fuel st received :
  receive_loop fuel st received =
  match receive_loop fuel st [] with
  | Some (st', more) => Some (st', received ++ more)
  | None => None
  end.
Proof.
  revert st received. induction fuel as [|fuel IH]; intros st received;
    cbn [receive_loop];
    (destruct (_buffered_data st) as [|b0 bs]; [by rewrite app_nil_r|]);
    (destruct (match _package st with Some total => Some total | None => _ end)
       as [total|]; [|by rewrite app_nil_r]);
    (destruct (Z.of_nat _ <? total); [by rewrite app_nil_r|]); [done|].
  destruct (extract_data_from (b0 :: bs)) as [[pkg| |] buffer]; [|apply IH..].
  rewrite (IH _ (received ++ [pkg])), (IH _ ([] ++ [pkg])).
  destruct (receive_loop fuel _ []) as [[st' more]|]; [|done].
  by rewrite <- app_assoc.
Qed.

(** A partial package that was made from the header in the buffer is as
    good as none. *)
Lemma receive_loop_partial fuel st buffer received :
  buffer ≠ [] →
  (st_package_size ≤ length buffer)%nat →
  receive_loop fuel (with_buffer st buffer None) received =
  receive_loop fuel (with_buffer st buffer (Some (header_total buffer)))
    received.
Proof.
  intros Hbuf Hsize.
  destruct fuel; cbn [receive_loop with_buffer _buffered_data _package];
    (destruct buffer as [|b0 bs]; [done|]);
    by destruct (Nat.ltb_spec (length (b0 :: bs)) st_package_size); [lia|].
Qed.

Context `{!ParserFrames P} `{!ParserNeverFails P}.

(** With more bytes behind the buffer the loop starts from the same
    partial package. *)
Lemma receive_loop_same_partial fuel st more total received :
  partial_ok st →
  _buffered_data st ≠ [] →
  (st_package_size ≤ length (_buffered_data st))%nat →
  total = header_total (_buffered_data st) →
  receive_loop fuel
    (with_buffer st (_buffered_data st ++ more) (_package st)) received =
  receive_loop fuel
    (with_buffer st (_buffered_data st ++ more) (Some total)) received.
Proof.
  intros Hpart Hbuf Hsize ->. destruct (_package st) as [total'|] eqn:Hpkg.
  - by destruct (Hpart total' Hpkg) as [_ ->].
  - rewrite receive_loop_partial;
      [|by destruct (_buffered_data st)|rewrite length_app; lia].
    by rewrite header_prefix.
Qed.

(** The loop on a buffer with more bytes behind it is the loop on the
    buffer, followed by the loop on what was left with those bytes. *)
Lemma receive_loop_append fuel fuel2 st received st1 out1 more res :
  partial_ok st →
  receive_loop fuel st received = Some (st1, out1) →
  receive_loop fuel2
    (with_buffer st1 (_buffered_data st1 ++ more) (_package st1)) out1 =
    Some res →
  receive_loop (fuel + fuel2)
    (with_buffer st (_buffered_data st ++ more) (_package st)) received =
    Some res.
Proof.
  revert st received.
  assert (∀ f st' received,
    receive_loop fuel2 st' received = Some res →
    receive_loop (f + fuel2) st' received = Some res) as Hstop.
  { intros f st' received Hres. rewrite Nat.add_comm.
    by apply receive_loop_more_fuel. }
  induction fuel as [|fuel IH]; intros st received Hpart.
  all: pose proof (λ f, receive_loop_same_partial f st more) as Hsame.
  all: cbn [receive_loop].
  all: destruct (_buffered_data st) as [|b0 bs] eqn:Hbuf;
    [intros [= <- <-] Hres; apply Hstop; by rewrite Hbuf in Hres|].
  all: destruct (match _package st with
                 | Some total => Some total
                 | None => _ end) as [total|] eqn:Hpartial;
    [|intros [= <- <-] Hres; apply Hstop; by rewrite Hbuf in Hres].
  all: assert ((st_package_size ≤ length (b0 :: bs))%nat ∧
               total = header_total (b0 :: bs)) as [Hsize Htotal]
    by (destruct (_package st) as [total'|] eqn:Hpkg;
        [ injection Hpartial as ->; pose proof (Hpart _ Hpkg) as Hp;
          by rewrite Hbuf in Hp
        | destruct (Nat.ltb_spec (length (b0 :: bs)) st_package_size);
          [done|]; by injection Hpartial as <- ]).
  all: assert (b0 :: bs ≠ []) as Hne by done.
  all: destruct (Z.ltb_spec (Z.of_nat (length (b0 :: bs))) total) as [Hlt|Hge].
  1,3: intros [= <- <-] Hres; apply Hstop;
    rewrite (Hsame _ total received Hpart Hne Hsize Htotal);
    exact Hres.
  - done.
  - intros Hrun Hres.
    rewrite (Hsame _ total received Hpart Hne Hsize Htotal).
    pose proof (extract_prefix (b0 :: bs) more Hsize) as Hex.
    rewrite <- Htotal in Hex. specialize (Hex Hge).
    pose proof (never_malformed (b0 :: bs)) as Hnever.
    cbn [Nat.add receive_loop with_buffer _buffered_data _package].
    change ((b0 :: bs) ++ more) with (b0 :: (bs ++ more)). cbv iota.
    change (b0 :: (bs ++ more)) with ((b0 :: bs) ++ more).
    rewrite length_app.
    destruct (Z.ltb_spec (Z.of_nat (length (b0 :: bs) + length more)) total);
      [lia|].
    rewrite Hex.
    destruct (extract_data_from (b0 :: bs)) as [[pkg| |] buffer] eqn:Hext;
      [| |done]; cbn [fst snd];
      refine (IH _ _ _ Hrun Hres); intros total' Hp; discriminate Hp.
Qed.

End Pieces.

(** X16.  For a parser whose frames stand on their own and that never
    fails, it makes no difference where the stream is cut: bytes that
    come in two calls of [data_received] give the same packages, in the
    same order, and leave the same state as the bytes in one call. *)
Theorem data_received_in_two `{P : PackageParser} `{!ParserFrames P}
    `{!ParserNeverFails P} (fuel1 fuel2 : nat) (st st1 st2 : state)
    (a b : list Byte.byte) (out1 out2 : list package) :
  partial_ok st →
  data_received fuel1 st a = Some (st1, out1) →
  data_received fuel2 st1 b = Some (st2, out2) →
  data_received (fuel1 + fuel2) st (a ++ b) = Some (st2, out1 ++ out2).
Proof.
  unfold data_received. intros Hpart Hrun1 Hrun2.
  rewrite app_assoc.
  change (with_buffer st ((_buffered_data st ++ a) ++ b) (_package st)) with
    (with_buffer (with_buffer st (_buffered_data st ++ a) (_package st))
       (_buffered_data (with_buffer st (_buffered_data st ++ a) (_package st))
          ++ b)
       (_package (with_buffer st (_buffered_data st ++ a) (_package st)))).
  eapply receive_loop_append; [|exact Hrun1|].
  - intros total Hpkg. cbn [with_buffer _package _buffered_data] in *.
    destruct (Hpart total Hpkg) as [Hsize ->]. split.
    + rewrite length_app. lia.
    + by rewrite header_prefix.
  - rewrite receive_loop_received. by rewrite Hrun2.
Qed.

Lemma lenient_parser_frames : ParserFrames lenient_parser.
Proof.
  split.
  - intros [|n buffer] more Hsize; [cbn in Hsize; lia|done].
  - intros [|n [|t rest]] more Hsize Htotal; try (cbn in Hsize; lia).
    cbn [header_total lenient_parser length] in Htotal.
    cbn [extract_data_from lenient_parser app fst snd].
    rewrite take_app_le, drop_app_le by lia. reflexivity.
Qed.

Lemma lenient_parser_never_fails : ParserNeverFails lenient_parser.
Proof.
  intros [|n [|t rest]]; cbn [extract_data_from lenient_parser fst]; try done.
  by destruct t.
Qed.

Lemma data_received_in_two_witness :
  @data_received lenient_parser (4 + 4) init
    ([Byte.x02; Byte.x00; Byte.x2a] ++ [Byte.x2b; Byte.x00; Byte.x00; Byte.x01]) =
  Some (with_buffer init [Byte.x01] None,
        [] ++ [Package 0 0 0 (VBytes [Byte.x2a; Byte.x2b]);
               Package 0 0 0 (VBytes [])]).
Proof.
  apply (@data_received_in_two lenient_parser lenient_parser_frames
           lenient_parser_never_fails 4 4 init
           (with_buffer init [Byte.x02; Byte.x00; Byte.x2a] (Some 4))
           (with_buffer init [Byte.x01] None)
           [Byte.x02; Byte.x00; Byte.x2a]
           [Byte.x2b; Byte.x00; Byte.x00; Byte.x01]).
  - intros total Hpkg. discriminate.
  - reflexivity.
  - reflexivity.
Defined.

(** With a parser that can fail the cut does matter: after the error the
    buffer is cleared, which in one call drops the frame that follows and
    in two calls does not. *)
Example data_received_cut_matters :
  @data_received tiny_parser 4 init
    ([Byte.x00; Byte.x02] ++ [Byte.x01; Byte.x00; Byte.x2a]) =
    Some (init, []) ∧
  @data_received tiny_parser 4 init [Byte.x00; Byte.x02] = Some (init, []) ∧
  @data_received tiny_parser 4 init [Byte.x01; Byte.x00; Byte.x2a] =
    Some (init, [Package 0 0 0 (VBytes [Byte.x2a])]).
Proof. repeat split. Qed.

(** A frame that comes in two pieces is handed over when the second
    piece is there; an error in a frame empties the buffer, the frame
    behind it included. *)
Example data_received_in_pieces :
  ∃ st1,
    @data_received tiny_parser 4 init [Byte.x02; Byte.x00; Byte.x2a] =
      Some (st1, []) ∧
    _package st1 = Some 4 ∧
    @data_received tiny_parser 4 st1 [Byte.x2b] =
      Some (with_buffer init [] None,
            [Package 0 0 0 (VBytes [Byte.x2a; Byte.x2b])]).
Proof. eexists. split; [reflexivity|]. split; reflexivity. Qed.

Example data_received_error_drops_next :
  @data_received tiny_parser 4 init
    [Byte.x00; Byte.x07; Byte.x01; Byte.x00; Byte.x2a] =
  Some (with_buffer init [] None, []).
Proof. reflexivity. Qed.

End ProtocolFacts.

(* ===================================================================== *)
(** * Facts about libprobe/probe.py                                       *)
(* ===================================================================== *)

Module ProbeFacts.
Import Py Probe.

(** ** [MAX_PACKAGE_SIZE] *)

Lemma bounds_check_dead (m : Z) : (1 >? m) && (m >? 2000) = false.
Proof.
  destruct (Z.gtb_spec 1 m), (Z.gtb_spec m 2000); simpl; try reflexivity. lia.
Qed.

(** C4 fails on the code.  The guard [1 > m > 2000] is never true, so the
    module never exits and the value of the variable is taken as it is:
    [MAX_PACKAGE_SIZE=5000] gives a limit of 5000 kilobytes, and so does
    every other number, in or out of the range from 1 to 2000. *)
Theorem MAX_PACKAGE_SIZE_not_checked :
  load_MAX_PACKAGE_SIZE (Some 5000) = Loaded 5000000 ∧
  load_MAX_PACKAGE_SIZE (Some 0) = Loaded 0 ∧
  load_MAX_PACKAGE_SIZE None = Loaded 500000 ∧
  ∀ env, load_MAX_PACKAGE_SIZE env = Loaded (default 500 env * 1000).
Proof.
  repeat split. intros env. unfold load_MAX_PACKAGE_SIZE.
  by rewrite bounds_check_dead.
Qed.

(** ** [send] *)

Section Send.
Context {Config : Type} `{T : Imported} `{C : Protocol.PackageCodec}.
Implicit Types st : probe Config.

(** A frame within the limit is written (when connected) by the first
    call. *)
Lemma send_fits depth MAX st p result error ts clock k :
  Z.of_nat (length (Protocol.to_bytes (dump_package p result error ts (clock k))))
    ≤ MAX →
  send (S depth) MAX st p result error ts clock k =
  Some (write_if_connected st
          (Protocol.to_bytes (dump_package p result error ts (clock k)))).
Proof.
  intros Hfit. cbn [send].
  destruct (Z.gtb_spec
    (Z.of_nat (length (Protocol.to_bytes (dump_package p result error ts (clock k)))))
    MAX); [lia|reflexivity].
Qed.

(** A frame over the limit is replaced: the call is the one for the
    fallback result. *)
Lemma send_oversize depth MAX st p result error ts clock k :
  Z.of_nat (length (Protocol.to_bytes (dump_package p result error ts (clock k))))
    > MAX →
  send (S depth) MAX st p result error ts clock k =
  send depth MAX st p VNone
    (to_dict
       (too_large
          (length (Protocol.to_bytes (dump_package p result error ts (clock k)))))
       default_severity)
    ts clock (S k).
Proof.
  intros Hbig. cbn [send].
  destruct (Z.gtb_spec
    (Z.of_nat (length (Protocol.to_bytes (dump_package p result error ts (clock k)))))
    MAX); [reflexivity|lia].
Qed.

(** When the fallback frame fits, an oversized result costs one nested
    call and puts exactly the fallback frame on the wire: its result is
    [None] and its error message starts with the words of the source. *)
Lemma send_fallback_once depth MAX st p result error ts clock k :
  let n :=
    length (Protocol.to_bytes (dump_package p result error ts (clock k))) in
  let fallback :=
    dump_package p VNone (to_dict (too_large n) default_severity) ts
      (clock (S k)) in
  Z.of_nat n > MAX →
  Z.of_nat (length (Protocol.to_bytes fallback)) ≤ MAX →
  send (S (S depth)) MAX st p result error ts clock k =
    Some (write_if_connected st (Protocol.to_bytes fallback)) ∧
  (∃ rest, too_large n = ("data package too large" ++ rest)%string).
Proof.
  intros n fallback Hbig Hfit. split.
  - rewrite send_oversize by done. by apply send_fits.
  - eexists. reflexivity.
Qed.

Lemma write_if_connected_written st data :
  written (write_if_connected st data) = written st ∨
  written (write_if_connected st data) = written st ++ [data].
Proof.
  unfold written, write_if_connected.
  destruct (_protocol st) as [pr|] eqn:Hp; [|left; by rewrite Hp].
  destruct (Protocol.transport pr) as [w|] eqn:Hw; simpl.
  - by right.
  - left. by rewrite Hp, Hw.
Qed.

(** With a limit below zero every frame is over the limit, the fallback
    frame too: no depth is enough for [send] to return. *)
Lemma send_never_returns depth MAX st p result error ts clock k :
  MAX < 0 → send depth MAX st p result error ts clock k = None.
Proof.
  intros Hneg. revert result error k.
  induction depth as [|depth IH]; intros result error k; [reflexivity|].
  rewrite send_oversize by lia. apply IH.
Qed.

End Send.

(** C9 fails on the code.  [MAX_PACKAGE_SIZE=-1] passes the dead bounds
    check and gives a limit of [-1000] bytes; then [send] calls itself
    again for the fallback frame, and again, whatever the depth allowed:
    no frame is written and the call never returns. *)
Theorem send_recursion_not_bounded :
  load_MAX_PACKAGE_SIZE (Some (-1)) = Loaded (-1000) ∧
  ∀ (depth : nat) (p : path) (result error : value) (ts : Z)
    (clock : nat → Z),
    @send Z upstream_values Protocol.counting_codec depth (-1000)
      connected_probe p result error ts clock 0 = None.
Proof.
  split; [reflexivity|]. intros. by apply send_never_returns.
Qed.

(** The same with [MAX_PACKAGE_SIZE=0] and a codec whose frames are never
    empty. *)
Lemma send_zero_limit depth (st : probe Z) p result error ts clock k :
  @send Z upstream_values Protocol.counting_codec depth 0 st p result error
    ts clock k = None.
Proof.
  revert result error k.
  induction depth as [|depth IH]; intros result error k; [reflexivity|].
  rewrite send_oversize; [apply IH|]. simpl. lia.
Qed.

(** ** [_read_local_config] *)

(** C2 fails on the code.  [encrypt] returns [None], so [changed] is
    never true and the branch that rewrites the file is never taken:
    whatever the document, the file after [_read_local_config] is the
    file before it. *)
Theorem read_local_config_never_writes {Config : Type} `{Y : Yaml}
    `{F : Config.Fernet} (st : probe Config) (f : file) (now : Z) :
  fst (_read_local_config st f now) = f.
Proof.
  unfold _read_local_config.
  destruct (decide (Some (st_mtime f) = _local_config_mtime st)); [done|].
  destruct (safe_load (text f)) as [config|]; [|done].
  destruct (truthy config).
  - destruct (Config.encrypt config) as [[config1 changed]|e] eqn:He; [|done].
    assert (changed = VNone) as -> by (destruct config; by simplify_eq/=).
    cbn [truthy].
    destruct (Config.decrypt config1); [|done].
    by destruct (forallb _ _).
  - by destruct (forallb _ _).
Qed.

(** The file with a plain password: the probe gets the password, the
    file keeps it in plain text. *)
Example read_plain_password :
  @_read_local_config Z (fixed_yaml plain_password_doc) Config.marker_fernet
    ping_probe plain_password_file 2 =
  (plain_password_file,
   Ok (with_local_config ping_probe (Some plain_password_doc) (Some 1))).
Proof. reflexivity. Qed.

(** ** The push handlers *)

Section Handlers.
Context {Config : Type} `{EqDecision Config}.
Implicit Types st : probe Config.
Implicit Types items checks : list (path * names * Config).

Lemma registered_snoc funs items p nm config :
  registered funs (items ++ [(p, nm, config)]) =
  if decide (snd nm ∈ funs)
  then <[p := (nm, config)]> (registered funs items)
  else registered funs items.
Proof. unfold registered. by rewrite foldl_app. Qed.

(** Every entry of the map built from a message has a registered check
    key and is an item of the message. *)
Lemma registered_lookup funs items p e :
  registered funs items !! p = Some e →
  snd (fst e) ∈ funs ∧ (p, fst e, snd e) ∈ items.
Proof.
  induction items as [|[[p' nm] config] items IH] using rev_ind.
  - unfold registered. simpl. by rewrite lookup_empty.
  - rewrite registered_snoc. case_decide as Hk.
    + destruct (decide (p' = p)) as [->|Hne].
      * rewrite lookup_insert_eq. intros [= <-]. simpl. split; [done|].
        apply elem_of_app. right. by apply list_elem_of_singleton.
      * rewrite lookup_insert_ne by done. intros He.
        destruct (IH He) as [Hkey Hin]. split; [done|].
        apply elem_of_app. by left.
    + intros He. destruct (IH He) as [Hkey Hin]. split; [done|].
      apply elem_of_app. by left.
Qed.

(** Every item with a registered check key has its path in the map. *)
Lemma registered_known funs items p nm config :
  (p, nm, config) ∈ items → snd nm ∈ funs →
  is_Some (registered funs items !! p).
Proof.
  induction items as [|[[p' nm'] config'] items IH] using rev_ind.
  - by intros ?%elem_of_nil.
  - intros Hin Hk. rewrite registered_snoc.
    apply elem_of_app in Hin as [Hin|Hin%list_elem_of_singleton].
    + case_decide; [|by apply IH].
      destruct (decide (p' = p)) as [->|Hne].
      * by rewrite lookup_insert_eq.
      * rewrite lookup_insert_ne by done. by apply IH.
    + simplify_eq. rewrite decide_True by done. by rewrite lookup_insert_eq.
Qed.

Lemma set_new_checks_config_config st new :
  _checks_config (_set_new_checks_config st new) = new.
Proof. unfold _set_new_checks_config. by destruct (foldl _ _ _). Qed.

Lemma upsert_config_lookup st asset_id checks p :
  upsert_config st asset_id checks !! p =
  match registered (_checks_funs st) checks !! p with
  | Some e => Some e
  | None => if decide (fst p = asset_id) then None else _checks_config st !! p
  end.
Proof.
  unfold upsert_config. rewrite lookup_union.
  destruct (registered (_checks_funs st) checks !! p) as [e|].
  - by destruct (filter _ _ !! p).
  - rewrite (left_id None _). case_decide as Ha.
    + apply map_lookup_filter_None. right. intros e _. simpl. tauto.
    + apply option_eq. intros e. rewrite map_lookup_filter_Some. simpl.
      split; [by intros [He _]|by intros He].
Qed.

End Handlers.

(** C5, amended.  The map that [_on_upsert_asset] installs is the old map
    without the paths of [asset_id], updated with the items of the message
    whose check key is registered: a path of the message with a registered
    key gets the entry of the message, any other path keeps its old entry
    unless it belongs to [asset_id]; items with an unknown key add
    nothing.  The assignments of other assets are the old ones when every
    path of the message belongs to [asset_id]. *)
Theorem upsert_asset_map {Config : Type} `{EqDecision Config}
    (st : probe Config) (asset_id : Z)
    (checks : list (path * names * Config)) :
  _checks_config (_on_upsert_asset st (asset_id, checks)) =
    registered (_checks_funs st) checks ∪
    filter (fun kv => fst (fst kv) ≠ asset_id) (_checks_config st) ∧
  (∀ p, _checks_config (_on_upsert_asset st (asset_id, checks)) !! p =
        match registered (_checks_funs st) checks !! p with
        | Some e => Some e
        | None =>
            if decide (fst p = asset_id) then None else _checks_config st !! p
        end) ∧
  (∀ p e, registered (_checks_funs st) checks !! p = Some e →
          snd (fst e) ∈ _checks_funs st ∧ (p, fst e, snd e) ∈ checks) ∧
  (∀ p nm config, (p, nm, config) ∈ checks → snd nm ∈ _checks_funs st →
          is_Some (registered (_checks_funs st) checks !! p)) ∧
  ((∀ p nm config, (p, nm, config) ∈ checks → fst p = asset_id) →
   ∀ p, fst p ≠ asset_id →
        _checks_config (_on_upsert_asset st (asset_id, checks)) !! p =
        _checks_config st !! p).
Proof.
  unfold _on_upsert_asset. rewrite set_new_checks_config_config. cbn [fst snd].
  split; [reflexivity|]. split; [apply upsert_config_lookup|].
  split; [apply registered_lookup|]. split; [apply registered_known|].
  intros Hown p Hp. rewrite upsert_config_lookup.
  destruct (registered (_checks_funs st) checks !! p) as [e|] eqn:He.
  - apply registered_lookup in He as [_ Hin]. by apply Hown in Hin.
  - by rewrite decide_False.
Qed.

Lemma upsert_asset_map_witness :
  (∀ p nm config, (p, nm, config) ∈ upsert_alpha → fst p = 1) ∧
  _checks_config (_on_upsert_asset two_assets (1, upsert_alpha)) !! (2, 20) =
  _checks_config two_assets !! (2, 20).
Proof.
  assert (∀ p nm config, (p, nm, config) ∈ upsert_alpha → fst p = 1) as Hown.
  { intros p nm config Hin. unfold upsert_alpha in Hin.
    apply elem_of_cons in Hin as [Hin|Hin]; [by simplify_eq|].
    apply elem_of_cons in Hin as [Hin|Hin]; [by simplify_eq|].
    by apply elem_of_nil in Hin. }
  split; [exact Hown|].
  apply (upsert_asset_map two_assets 1 upsert_alpha); [exact Hown|].
  simpl. lia.
Defined.

(** C5 as stated fails for a message that carries a path of another
    asset: the assignment of that asset is replaced. *)
Lemma upsert_asset_stray_path :
  ¬ (∀ p, fst p ≠ 1 →
          _checks_config (_on_upsert_asset two_assets (1, upsert_stray)) !! p =
          _checks_config two_assets !! p).
Proof.
  intros Hall. specialize (Hall (2, 20)). vm_compute in Hall.
  specialize (Hall ltac:(discriminate)). discriminate.
Qed.

(** ** Reconciliation and the check loop *)

Section Reconcile.
Context {Config : Type} `{EqDecision Config}.
Implicit Types st : probe Config.
Implicit Types new : gmap path (names * Config).

Lemma spawn_all_checks (l : list path) acc p :
  p ∉ l → fst (foldl spawn acc l) !! p = fst acc !! p.
Proof.
  revert acc. induction l as [|q l IH]; intros acc Hp; [reflexivity|].
  apply not_elem_of_cons in Hp as [Hne Hp].
  cbn [foldl]. rewrite IH by done. unfold spawn. cbn [fst].
  by rewrite lookup_insert_ne.
Qed.

Lemma spawn_all_tasks (l : list path) acc t s :
  snd acc !! t = Some s → snd (foldl spawn acc l) !! t = Some s.
Proof.
  revert acc. induction l as [|q l IH]; intros acc Ht; [done|].
  cbn [foldl]. apply IH. unfold spawn. cbn [snd].
  rewrite lookup_insert_ne; [done|].
  intros Heq. pose proof (is_fresh (dom (snd acc))) as Hfresh.
  rewrite Heq in Hfresh. apply not_elem_of_dom in Hfresh. congruence.
Qed.

(** A task started by the second loop is new and running. *)
Lemma spawn_all_started (l : list path) acc p :
  p ∈ l →
  ∃ t, fst (foldl spawn acc l) !! p = Some t ∧
       snd (foldl spawn acc l) !! t = Some (TaskRunning false) ∧
       t ∉ dom (snd acc).
Proof.
  revert acc. induction l as [|q l IH] using rev_ind; intros acc Hp.
  - by apply elem_of_nil in Hp.
  - rewrite foldl_app. cbn [foldl].
    pose proof (fun t s => spawn_all_tasks l acc t s) as Hkeep.
    specialize (IH acc).
    set (acc' := foldl spawn acc l) in *.
    pose proof (is_fresh (dom (snd acc'))) as Hfresh.
    unfold spawn. cbn [fst snd].
    destruct (decide (q = p)) as [->|Hne].
    + exists (fresh (dom (snd acc'))).
      rewrite !lookup_insert_eq. split; [done|]. split; [done|].
      intros Hin. apply elem_of_dom in Hin as [s Hs].
      apply Hfresh, elem_of_dom. eauto.
    + apply elem_of_app in Hp as [Hp|Hp%list_elem_of_singleton]; [|done].
      destruct (IH Hp) as (t & Ht1 & Ht2 & Ht3).
      exists t. rewrite lookup_insert_ne by done. split; [done|].
      split; [|done]. rewrite lookup_insert_ne; [done|].
      intros Heq. rewrite Heq in Hfresh.
      apply not_elem_of_dom in Hfresh. congruence.
Qed.

Lemma cancel_finished (tsk : gmap nat task_state) t t' :
  tsk !! t = Some TaskFinished → cancel t' tsk !! t = Some TaskFinished.
Proof.
  intros Ht. unfold cancel.
  destruct (tsk !! t') as [[b| |]|] eqn:Ht'; try done.
  rewrite lookup_insert_ne; [done|]. intros ->. congruence.
Qed.

Lemma cancel_keeps_task (tsk : gmap nat task_state) t t' :
  is_Some (tsk !! t) → is_Some (cancel t' tsk !! t).
Proof.
  intros Ht. unfold cancel.
  destruct (tsk !! t') as [[b| |]|]; try done.
  destruct (decide (t' = t)) as [->|Hne].
  - rewrite lookup_insert_eq. eauto.
  - by rewrite lookup_insert_ne.
Qed.

Lemma cancel_all_finished (ts : list nat) (tsk : gmap nat task_state) t :
  tsk !! t = Some TaskFinished → foldr cancel tsk ts !! t = Some TaskFinished.
Proof.
  intros Ht. induction ts as [|t' ts IH]; [done|].
  cbn [foldr]. by apply cancel_finished.
Qed.

(** A desired path whose task has returned keeps its entry, and the
    task stays as it is: the second loop starts nothing for the path. *)
Lemma set_new_keeps_finished st new p t :
  _checks st !! p = Some t →
  tasks st !! t = Some TaskFinished →
  is_Some (new !! p) →
  _checks (_set_new_checks_config st new) !! p = Some t ∧
  tasks (_set_new_checks_config st new) !! t = Some TaskFinished.
Proof.
  intros Hc Ht Hnew. unfold _set_new_checks_config.
  set (desired := dom new).
  set (tasks1 := foldr cancel (tasks st) _).
  set (checks1 := filter _ (_checks st)).
  assert (checks1 !! p = Some t) as Hc1.
  { apply map_lookup_filter_Some. split; [done|]. cbn [fst snd]. split.
    - by apply elem_of_dom.
    - unfold cancelled. rewrite Ht. intros [_ ?]. discriminate. }
  destruct (foldl spawn (checks1, tasks1) (elements (desired ∖ dom checks1)))
    as [checks2 tasks2] eqn:Hspawn.
  cbn [with_checks _checks tasks]. split.
  - change checks2 with (fst (checks2, tasks2)). rewrite <- Hspawn.
    rewrite spawn_all_checks; [done|].
    rewrite elem_of_elements, elem_of_difference, elem_of_dom.
    intros [_ Hn]. apply Hn. eauto.
  - change tasks2 with (snd (checks2, tasks2)). rewrite <- Hspawn.
    apply spawn_all_tasks. cbn [snd]. by apply cancel_all_finished.
Qed.

(** A path that is not desired any more loses its entry. *)
Lemma set_new_drops_undesired st new p :
  new !! p = None → _checks (_set_new_checks_config st new) !! p = None.
Proof.
  intros Hnew. unfold _set_new_checks_config.
  set (desired := dom new).
  set (tasks1 := foldr cancel (tasks st) _).
  set (checks1 := filter _ (_checks st)).
  assert (p ∉ desired) as Hp by by apply not_elem_of_dom.
  destruct (foldl spawn (checks1, tasks1) (elements (desired ∖ dom checks1)))
    as [checks2 tasks2] eqn:Hspawn.
  cbn [with_checks _checks].
  change checks2 with (fst (checks2, tasks2)). rewrite <- Hspawn.
  rewrite spawn_all_checks.
  - apply map_lookup_filter_None. right. intros t _. cbn [fst]. tauto.
  - rewrite elem_of_elements, elem_of_difference. tauto.
Qed.

(** A desired path without an entry gets a new running task. *)
Lemma set_new_starts_missing st new p :
  is_Some (new !! p) →
  _checks st !! p = None →
  ∃ t, _checks (_set_new_checks_config st new) !! p = Some t ∧
       tasks (_set_new_checks_config st new) !! t = Some (TaskRunning false) ∧
       tasks st !! t = None.
Proof.
  intros Hnew Hc. unfold _set_new_checks_config.
  set (desired := dom new).
  set (ids := map snd (map_to_list _)).
  set (tasks1 := foldr cancel (tasks st) ids).
  set (checks1 := filter _ (_checks st)).
  assert (p ∈ elements (desired ∖ dom checks1)) as Hp.
  { rewrite elem_of_elements, elem_of_difference, !elem_of_dom.
    split; [by apply elem_of_dom|].
    intros [t Ht]. apply map_lookup_filter_Some in Ht as [Ht _]. congruence. }
  destruct (spawn_all_started _ (checks1, tasks1) p Hp) as (t & Ht1 & Ht2 & Ht3).
  destruct (foldl spawn (checks1, tasks1) (elements (desired ∖ dom checks1)))
    as [checks2 tasks2] eqn:Hspawn.
  cbn [with_checks _checks tasks]. exists t. cbn [fst snd] in Ht1, Ht2, Ht3.
  split; [done|]. split; [done|].
  destruct (tasks st !! t) as [s|] eqn:Hs; [|done].
  exfalso. apply Ht3, elem_of_dom. subst tasks1.
  clear -Hs. induction ids as [|t' ts IH]; [eauto|].
  cbn [foldr]. by apply cancel_keeps_task.
Qed.

Lemma spawn_all_dom (l : list path) acc :
  dom (fst (foldl spawn acc l)) = list_to_set l ∪ dom (fst acc).
Proof.
  revert acc. induction l as [|q l IH]; intros acc.
  - cbn [foldl list_to_set]. by rewrite (left_id_L ∅ _).
  - cbn [foldl list_to_set]. rewrite IH. unfold spawn. cbn [fst].
    rewrite dom_insert_L, !(assoc_L (∪)). f_equal. apply (comm_L (∪)).
Qed.

(** After a reconciliation the running paths are the desired paths. *)
Lemma set_new_running_desired st new :
  dom (_checks (_set_new_checks_config st new)) = dom new.
Proof.
  unfold _set_new_checks_config.
  set (desired := dom new).
  set (tasks1 := foldr cancel (tasks st) _).
  set (checks1 := filter _ (_checks st)).
  assert (dom checks1 ⊆ desired) as Hsub.
  { intros p [t Ht]%elem_of_dom.
    by apply map_lookup_filter_Some in Ht as [_ [Hd _]]. }
  destruct (foldl spawn (checks1, tasks1) (elements (desired ∖ dom checks1)))
    as [checks2 tasks2] eqn:Hspawn.
  cbn [with_checks _checks].
  change checks2 with (fst (checks2, tasks2)). rewrite <- Hspawn.
  rewrite spawn_all_dom, list_to_set_elements_L. cbn [fst].
  rewrite difference_union_L, (comm_L (∪)). by apply subseteq_union_1_L.
Qed.

(** So every running path has a config, which is what the lookups of the
    first loop rely on. *)
Lemma set_new_running_configured st new :
  dom (_checks (_set_new_checks_config st new)) ⊆
  dom (_checks_config (_set_new_checks_config st new)).
Proof.
  rewrite set_new_running_desired.
  unfold _set_new_checks_config. by destruct (foldl _ _ _).
Qed.

End Reconcile.

(** Scenario "frame-size cap" in small: a result above the limit puts one
    frame on the wire, the fallback. *)
Example send_large_result :
  ∃ st', @send Z upstream_values Protocol.counting_codec 2 100 connected_probe
           (1, 10) large_result VNone 0 (stopped 0) 0 = Some st' ∧
         written st' =
         [@Protocol.to_bytes Protocol.counting_codec
            (@dump_package upstream_values (1, 10) VNone
               (to_dict "data package too large (219 bytes)" "MEDIUM") 0 0)].
Proof. eexists. split; vm_compute; reflexivity. Qed.

(** ** [_asset_config] and the loop *)

Section Loop.
Context {Config : Type} `{EqDecision Config} `{T : Imported}
  `{C : Protocol.PackageCodec} `{Y : Yaml} `{F : Config.Fernet}
  `{K : @CheckConfig Config}.
Implicit Types st : probe Config.

Lemma with_local_config_same st :
  with_local_config st (_local_config st) (_local_config_mtime st) = st.
Proof. by destruct st. Qed.

(** Reading the local config leaves the file as it is and changes at
    most the local config of the probe and its mtime. *)
Lemma read_keeps st f now :
  ∃ c m r,
    _read_local_config st f now = (f, r) ∧
    match r with Ok st' => st' | Raise _ => st end = with_local_config st c m.
Proof.
  pose proof (with_local_config_same st) as Hst. unfold _read_local_config.
  destruct (decide (Some (st_mtime f) = _local_config_mtime st)).
  { by exists (_local_config st), (_local_config_mtime st), (Ok st). }
  destruct (safe_load (text f)) as [config|];
    [|by exists (_local_config st), (_local_config_mtime st), (Raise YAMLError)].
  destruct (truthy config).
  - destruct (Config.encrypt config) as [[config1 changed]|e] eqn:He;
      [|by exists (_local_config st), (_local_config_mtime st), (Raise e)].
    assert (changed = VNone) as -> by (destruct config; by simplify_eq/=).
    cbn [truthy].
    destruct (Config.decrypt config1) as [config2|e];
      [|by exists (_local_config st), (_local_config_mtime st), (Raise e)].
    destruct (forallb _ _).
    + by eexists _, _, (Ok _).
    + by exists (_local_config st), (_local_config_mtime st), (Raise TypeError).
  - destruct (forallb _ _).
    + by eexists _, _, (Ok _).
    + by exists (_local_config st), (_local_config_mtime st), (Raise TypeError).
Qed.

(** [_asset_config] never returns: the four arguments do not fit the
    three parameters of [get_config]. *)
Lemma asset_config_raises st f now asset_id use :
  ∃ c m, _asset_config st f now asset_id use =
         (f, with_local_config st c m, Raise TypeError).
Proof.
  unfold _asset_config.
  destruct (read_keeps st f now) as (c & m & r & -> & ->). by exists c, m.
Qed.

(** So an iteration is over before the check function is called. *)
Lemma iteration_ends depth MAX st f now p my_task slept ts clock :
  ∃ c m e,
    e ≠ GoesOn ∧
    (slept = Slept → is_Some (_checks_config st !! p) → e = Fails TypeError) ∧
    ∀ check,
      _run_check_loop_iteration depth MAX st f now p my_task slept check ts
        clock =
      Some (f, finish (with_local_config st c m) my_task, e).
Proof.
  pose proof (with_local_config_same st) as Hst.
  unfold _run_check_loop_iteration. destruct slept.
  - destruct (_checks_config st !! p) as [[nm config]|].
    + destruct (is_number (_interval config)).
      * destruct (asset_config_raises st f now (fst p) (_use config))
          as (c & m & ->).
        exists c, m, (Fails TypeError). done.
      * exists (_local_config st), (_local_config_mtime st), (Fails TypeError).
        rewrite Hst. done.
    + exists (_local_config st), (_local_config_mtime st), (Fails KeyError).
      rewrite Hst. split; [done|]. split; [|done]. by intros _ [? ?].
  - exists (_local_config st), (_local_config_mtime st), Breaks.
    rewrite Hst. done.
Qed.

End Loop.

(** C3 fails on the code.  An iteration of the loop of a configured path
    that comes out of its sleep ends with the [TypeError] of
    [_asset_config], whatever the check function is: the check is not
    called, so it cannot raise [IgnoreCheckException].  Nothing is sent.
    The path keeps its entry in [_checks], bound to the task that is
    over, and no reconciliation that keeps the path, with the same or
    with another config, starts the check again. *)
Theorem check_never_awaited {Config : Type} `{EqDecision Config}
    `{T : Imported} `{C : Protocol.PackageCodec} `{Y : Yaml}
    `{F : Config.Fernet} `{K : @CheckConfig Config}
    (depth : nat) (MAX : Z) (st : probe Config) (f : file) (now : Z)
    (p : path) (my_task : nat) (ts : Z) (clock : nat → Z) :
  _checks st !! p = Some my_task →
  is_Some (_checks_config st !! p) →
  ∃ st',
    (∀ check,
        _run_check_loop_iteration depth MAX st f now p my_task Slept check
          ts clock = Some (f, st', Fails TypeError)) ∧
    written st' = written st ∧
    _checks st' !! p = Some my_task ∧
    tasks st' !! my_task = Some TaskFinished ∧
    ∀ new, is_Some (new !! p) →
           _checks (_set_new_checks_config st' new) !! p = Some my_task ∧
           tasks (_set_new_checks_config st' new) !! my_task =
             Some TaskFinished.
Proof.
  intros Hc Hp.
  destruct (iteration_ends depth MAX st f now p my_task Slept ts clock)
    as (c & m & e & _ & He & Hrun).
  rewrite (He eq_refl Hp) in Hrun.
  exists (finish (with_local_config st c m) my_task).
  assert (tasks (finish (with_local_config st c m) my_task) !! my_task =
          Some TaskFinished) as Ht by apply lookup_insert_eq.
  split; [exact Hrun|]. split; [reflexivity|]. split; [exact Hc|].
  split; [exact Ht|]. intros new Hnew. by apply set_new_keeps_finished.
Qed.

Lemma check_never_awaited_witness :
  ∃ st',
    (∀ check,
        @_run_check_loop_iteration Z upstream_values Protocol.counting_codec
          (fixed_yaml plain_password_doc) Config.marker_fernet interval_config
          2 500000 two_assets plain_password_file 2 (1, 10) 1 Slept check 0
          (stopped 0) = Some (plain_password_file, st', Fails TypeError)) ∧
    written st' = written two_assets ∧
    _checks st' !! (1, 10) = Some 1%nat ∧
    tasks st' !! 1%nat = Some TaskFinished ∧
    ∀ new, is_Some (new !! (1, 10)) →
           _checks (_set_new_checks_config st' new) !! (1, 10) = Some 1%nat ∧
           tasks (_set_new_checks_config st' new) !! 1%nat =
             Some TaskFinished.
Proof.
  apply (@check_never_awaited Z _ upstream_values Protocol.counting_codec
           (fixed_yaml plain_password_doc) Config.marker_fernet
           interval_config 2 500000 two_assets plain_password_file 2 (1, 10)
           1%nat 0 (stopped 0)).
  - vm_compute. reflexivity.
  - vm_compute. eauto.
Defined.

(** The first iteration of the loop of path [(1, 10)], with a check
    function that raises [IgnoreCheckException]: the local config is read,
    the task ends with [TypeError], and the path is still running as far
    as [_checks] says. *)
Example loop_fails_before_check :
  @_run_check_loop_iteration Z upstream_values Protocol.counting_codec
    (fixed_yaml plain_password_doc) Config.marker_fernet interval_config
    2 500000 two_assets plain_password_file 2 (1, 10) 1 Slept ignoring 0
    (stopped 0) =
  Some (plain_password_file,
        finish (with_local_config two_assets (Some plain_password_doc) (Some 1))
          1,
        Fails TypeError) ∧
  _checks (finish (with_local_config two_assets (Some plain_password_doc)
                     (Some 1)) 1) !! (1, 10) = Some 1%nat.
Proof. vm_compute. done. Qed.

(** The task that is over is not [cancelled()], so a changed config does
    not bring the check back; dropping the path and naming it again
    does. *)
Example ended_loop_then_changed_config :
  let st := _on_set_assets alpha_ended
              [((1, 10), ("alpha", "ping"), 600);
               ((1, 11), ("alpha", "ping"), 60);
               ((2, 20), ("beta", "ping"), 300)] in
  _checks st !! (1, 10) = Some 1%nat ∧ tasks st !! 1%nat = Some TaskFinished.
Proof. vm_compute. done. Qed.

Example ended_loop_then_unset_and_set :
  let st := _on_upsert_asset (_on_unset_assets alpha_ended [1])
              (1, [((1, 10), ("alpha", "ping"), 300)]) in
  _checks st !! (1, 10) = Some 3%nat ∧
  tasks st !! 3%nat = Some (TaskRunning false).
Proof. vm_compute. done. Qed.

(** When the sleep is cancelled the loop ends by [break]. *)
Example loop_cancelled_in_sleep :
  @_run_check_loop_iteration Z upstream_values Protocol.counting_codec
    (fixed_yaml plain_password_doc) Config.marker_fernet interval_config
    2 500000 two_assets plain_password_file 2 (1, 10) 1 SleepCancelled
    ignoring 0 (stopped 0) =
  Some (plain_password_file, alpha_ended, Breaks).
Proof. reflexivity. Qed.

(** Scenario "upsert isolation": the check that the message does not name
    is cancelled and popped, the new one is started, the other asset is
    not touched. *)
Example upsert_isolation :
  let st := _on_upsert_asset two_assets
              (1, [((1, 10), ("alpha", "ping"), 300);
                   ((1, 13), ("alpha", "ping"), 300)]) in
  dom (_checks st) = {[(1, 10); (1, 13); (2, 20)]} ∧
  _checks st !! (1, 10) = _checks two_assets !! (1, 10) ∧
  _checks st !! (2, 20) = _checks two_assets !! (2, 20) ∧
  tasks st !! 0%nat = Some (TaskRunning true).
Proof. vm_compute. done. Qed.

(** ** [_start] *)

Lemma start_bounded observed step :
  2 ≤ step ≤ 128 → Forall (fun s => 2 ≤ s ≤ 128) (_start observed step).
Proof.
  revert step. induction observed as [|[connected connecting] rest IH];
    intros step Hstep; cbn [_start]; [constructor|].
  assert (2 ≤ fst (_start_step connected connecting step) ≤ 128) as Hnext.
  { unfold _start_step, max_step, initial_step.
    destruct (negb connected && negb connecting); simpl; lia. }
  constructor; [done|]. by apply IH.
Qed.

(** X17.  Whatever the probe finds at each evaluation, [_start] sleeps
    at least [initial_step] and at most [max_step] seconds between two
    evaluations. *)
Theorem start_steps_bounded (observed : list (bool * bool)) :
  Forall (fun s => initial_step ≤ s ≤ max_step) (_start observed initial_step).
Proof. apply start_bounded. unfold initial_step. lia. Qed.

Lemma start_down (n : nat) (k : Z) :
  0 ≤ k →
  _start (repeat (false, false) n) (Z.min (2 ^ (k + 1)) max_step) =
  (fun i => Z.min (2 ^ (Z.of_nat i + k + 2)) max_step) <$> seq 0 n.
Proof.
  revert k. induction n as [|n IH]; intros k Hk; [done|].
  cbn [repeat _start seq fmap list_fmap].
  assert (fst (_start_step false false (Z.min (2 ^ (k + 1)) max_step)) =
          Z.min (2 ^ (k + 1 + 1)) max_step) as ->.
  { unfold _start_step, max_step. cbn [negb andb fst].
    replace (k + 1 + 1) with (Z.succ (k + 1)) by lia.
    rewrite (Z.pow_succ_r 2 (k + 1)) by lia.
    assert (0 < 2 ^ (k + 1)) by (apply Z.pow_pos_nonneg; lia). lia. }
  rewrite IH by lia. f_equal; [f_equal; f_equal; lia|].
  rewrite <- (fmap_S_seq 0), <- list_fmap_compose.
  apply list_fmap_ext. intros _ i _. simpl. f_equal. f_equal. lia.
Qed.

(** X18.  While the probe is neither connected nor connecting, the sleep
    doubles from one evaluation to the next until it is [max_step]: the
    sleeps are 4, 8, 16, 32, 64 and then 128 seconds. *)
Theorem start_backoff_doubles (n : nat) :
  _start (repeat (false, false) n) initial_step =
  (fun i => Z.min (2 ^ (Z.of_nat i + 2)) max_step) <$> seq 0 n.
Proof.
  change initial_step with (Z.min (2 ^ (0 + 1)) max_step).
  rewrite start_down by lia.
  apply list_fmap_ext. intros _ i _. f_equal. f_equal. lia.
Qed.

(** An evaluation that finds the probe connected, or in the middle of a
    connection attempt, puts the sleep back to [initial_step]. *)
Example start_resets :
  _start [(false, false); (false, false); (false, true); (false, false);
          (true, false); (false, false)] initial_step =
  [4; 8; 2; 4; 2; 4].
Proof. reflexivity. Qed.

(** ** More about [send] *)

Section MoreSend.
Context {Config : Type} `{EqDecision Config}.
Context `{T : Imported} `{C : Protocol.PackageCodec}.
Implicit Types st : probe Config.

Lemma write_if_connected_keeps st data :
  name (write_if_connected st data) = name st ∧
  _checks_funs (write_if_connected st data) = _checks_funs st ∧
  _local_config (write_if_connected st data) = _local_config st ∧
  _local_config_mtime (write_if_connected st data) = _local_config_mtime st ∧
  _checks_config (write_if_connected st data) = _checks_config st ∧
  _checks (write_if_connected st data) = _checks st ∧
  tasks (write_if_connected st data) = tasks st.
Proof.
  unfold write_if_connected. destruct (_protocol st) as [pr|]; [|done].
  by destruct (Protocol.transport pr).
Qed.

Lemma write_if_disconnected st data :
  is_connected st = false → write_if_connected st data = st.
Proof.
  unfold is_connected, write_if_connected, Protocol.is_connected.
  destruct (_protocol st) as [pr|]; [|done].
  by destruct (Protocol.transport pr).
Qed.

(** What [send] does when it returns: one call of [write], with the
    frame of the result that was given or of a fallback, and the frame is
    within the limit. *)
Lemma send_inv depth MAX st p result error ts clock k st' :
  send depth MAX st p result error ts clock k = Some st' →
  ∃ j result' error',
    st' = write_if_connected st
            (Protocol.to_bytes (dump_package p result' error' ts (clock j))) ∧
    Z.of_nat (length (Protocol.to_bytes
                        (dump_package p result' error' ts (clock j)))) ≤ MAX ∧
    ((j = k ∧ result' = result ∧ error' = error) ∨
     ((k < j)%nat ∧ result' = VNone)).
Proof.
  revert result error k. induction depth as [|depth IH];
    intros result error k; [done|].
  cbn [send].
  destruct (Z.gtb_spec
    (Z.of_nat (length (Protocol.to_bytes (dump_package p result error ts (clock k)))))
    MAX) as [Hbig|Hfit].
  - intros (j & result' & error' & -> & Hlen & Hcase)%IH.
    exists j, result', error'. split; [done|]. split; [done|].
    right. destruct Hcase as [(-> & -> & _)|[Hj ->]]; split; try done; lia.
  - intros [= <-]. exists k, result, error. split; [done|]. split; [done|].
    by left.
Qed.

End MoreSend.

(** X19.  When [send] returns, it has written at most one frame, the
    frame is not larger than [MAX_PACKAGE_SIZE], and nothing else of the
    probe has changed. *)
Theorem send_writes_within_limit {Config : Type} `{EqDecision Config}
    `{T : Imported} `{C : Protocol.PackageCodec}
    (depth : nat) (MAX : Z) (st st' : probe Config) (p : path)
    (result error : value) (ts : Z) (clock : nat → Z) :
  send depth MAX st p result error ts clock 0 = Some st' →
  (written st' = written st ∨
   ∃ frame, written st' = written st ++ [frame] ∧
            Z.of_nat (length frame) ≤ MAX) ∧
  _checks_config st' = _checks_config st ∧
  _checks st' = _checks st ∧
  tasks st' = tasks st ∧
  _local_config st' = _local_config st.
Proof.
  intros (j & result' & error' & -> & Hlen & _)%send_inv.
  destruct (write_if_connected_keeps st
    (Protocol.to_bytes (dump_package p result' error' ts (clock j))))
    as (_ & _ & Hl & _ & Hc & Hk & Ht).
  split; [|done].
  destruct (write_if_connected_written st
    (Protocol.to_bytes (dump_package p result' error' ts (clock j))))
    as [Hw|Hw]; [by left|]. right. eauto.
Qed.

Lemma send_writes_within_limit_witness :
  (written
     (write_if_connected connected_probe
        (@Protocol.to_bytes Protocol.counting_codec
           (@dump_package upstream_values (1, 10) VNone
              (to_dict "data package too large (219 bytes)" "MEDIUM") 0 0))) =
   written connected_probe ∨
   ∃ frame,
     written
       (write_if_connected connected_probe
          (@Protocol.to_bytes Protocol.counting_codec
             (@dump_package upstream_values (1, 10) VNone
                (to_dict "data package too large (219 bytes)" "MEDIUM") 0 0))) =
     written connected_probe ++ [frame] ∧
     Z.of_nat (length frame) ≤ 100) ∧
  _checks_config
    (write_if_connected connected_probe
       (@Protocol.to_bytes Protocol.counting_codec
          (@dump_package upstream_values (1, 10) VNone
             (to_dict "data package too large (219 bytes)" "MEDIUM") 0 0))) =
    _checks_config connected_probe ∧
  _checks
    (write_if_connected connected_probe
       (@Protocol.to_bytes Protocol.counting_codec
          (@dump_package upstream_values (1, 10) VNone
             (to_dict "data package too large (219 bytes)" "MEDIUM") 0 0))) =
    _checks connected_probe ∧
  tasks
    (write_if_connected connected_probe
       (@Protocol.to_bytes Protocol.counting_codec
          (@dump_package upstream_values (1, 10) VNone
             (to_dict "data package too large (219 bytes)" "MEDIUM") 0 0))) =
    tasks connected_probe ∧
  _local_config
    (write_if_connected connected_probe
       (@Protocol.to_bytes Protocol.counting_codec
          (@dump_package upstream_values (1, 10) VNone
             (to_dict "data package too large (219 bytes)" "MEDIUM") 0 0))) =
    _local_config connected_probe.
Proof.
  apply (@send_writes_within_limit Z _ upstream_values Protocol.counting_codec
           2 100 connected_probe _ (1, 10) large_result VNone 0 (stopped 0)).
  vm_compute. reflexivity.
Defined.

(** X20.  Without a connection [send] drops the result: when it returns,
    the probe is as it was, nothing is kept for later.  That is the case
    after [close]. *)
Theorem send_when_disconnected {Config : Type} `{EqDecision Config}
    `{T : Imported} `{C : Protocol.PackageCodec}
    (depth : nat) (MAX : Z) (st st' : probe Config) (p : path)
    (result error : value) (ts : Z) (clock : nat → Z) :
  is_connected st = false →
  send depth MAX st p result error ts clock 0 = Some st' →
  st' = st.
Proof.
  intros Hdown (j & result' & error' & -> & _)%send_inv.
  by apply write_if_disconnected.
Qed.

Lemma send_when_disconnected_witness :
  is_connected (close connected_probe) = false ∧
  @send Z upstream_values Protocol.counting_codec 1 500000
    (close connected_probe) (1, 10) (VDict [("ok", VBool true)]) VNone 0
    (stopped 0) 0 = Some (close connected_probe) ∧
  close connected_probe = close connected_probe.
Proof.
  split; [reflexivity|]. split; [reflexivity|].
  apply (@send_when_disconnected Z _ upstream_values Protocol.counting_codec
           1 500000 (close connected_probe) (close connected_probe) (1, 10)
           (VDict [("ok", VBool true)]) VNone 0 (stopped 0)).
  - reflexivity.
  - reflexivity.
Defined.

(** X21.  Every iteration of [_run_check_loop] is the last one of its
    loop and sends nothing: however the sleep ends, whatever the file
    holds and whatever the check function is, the iteration ends the
    task, by [break] or by an exception, without a frame written, with
    the file, [_checks_config] and [_checks] as they were. *)
Theorem iteration_is_last {Config : Type} `{EqDecision Config}
    `{T : Imported} `{C : Protocol.PackageCodec} `{Y : Yaml}
    `{F : Config.Fernet} `{K : @CheckConfig Config}
    (depth : nat) (MAX : Z) (st : probe Config) (f : file) (now : Z)
    (p : path) (my_task : nat) (slept : sleep) (ts : Z) (clock : nat → Z) :
  ∃ st' e,
    (∀ check,
        _run_check_loop_iteration depth MAX st f now p my_task slept check
          ts clock = Some (f, st', e)) ∧
    e ≠ GoesOn ∧
    written st' = written st ∧
    _checks_config st' = _checks_config st ∧
    _checks st' = _checks st ∧
    tasks st' = <[my_task := TaskFinished]> (tasks st).
Proof.
  destruct (iteration_ends depth MAX st f now p my_task slept ts clock)
    as (c & m & e & He & _ & Hrun).
  by exists (finish (with_local_config st c m) my_task), e.
Qed.

(** ** More about [_read_local_config] *)

Section MoreRead.
Context {Config : Type} `{EqDecision Config} `{Y : Yaml} `{F : Config.Fernet}.
Implicit Types st : probe Config.

(** A read that returns has left the file alone and remembers its
    mtime. *)
Lemma read_ok_inv st f now f' st' :
  _read_local_config st f now = (f', Ok st') →
  f' = f ∧ _local_config_mtime st' = Some (st_mtime f).
Proof.
  unfold _read_local_config.
  destruct (decide (Some (st_mtime f) = _local_config_mtime st)) as [Hm|Hm].
  { intros [= <- <-]. done. }
  destruct (safe_load (text f)) as [config|]; [|done].
  destruct (truthy config).
  - destruct (Config.encrypt config) as [[config1 changed]|e] eqn:He; [|done].
    assert (changed = VNone) as -> by (destruct config; by simplify_eq/=).
    cbn [truthy].
    destruct (Config.decrypt config1); [|done].
    destruct (forallb _ _); [|done]. by intros [= <- <-].
  - destruct (forallb _ _); [|done]. by intros [= <- <-].
Qed.

End MoreRead.

(** X22.  A read that has returned is not repeated while the file keeps
    its mtime: the next call of [_read_local_config] changes nothing,
    neither the probe nor the file. *)
Theorem read_local_config_once {Config : Type} `{EqDecision Config}
    `{Y : Yaml} `{F : Config.Fernet}
    (st st' : probe Config) (f f' : file) (now later : Z) :
  _read_local_config st f now = (f', Ok st') →
  _read_local_config st' f' later = (f', Ok st').
Proof.
  intros [-> Hm]%read_ok_inv. unfold _read_local_config.
  by rewrite decide_True.
Qed.

Lemma read_local_config_once_witness :
  @_read_local_config Z (fixed_yaml plain_password_doc) Config.marker_fernet
    (with_local_config ping_probe (Some plain_password_doc) (Some 1))
    plain_password_file 5 =
  (plain_password_file,
   Ok (with_local_config ping_probe (Some plain_password_doc) (Some 1))).
Proof.
  apply (@read_local_config_once Z _ (fixed_yaml plain_password_doc)
           Config.marker_fernet ping_probe _ plain_password_file _ 2 5).
  reflexivity.
Defined.

(** X23.  For a file that has changed and holds a document (a dict that
    is not empty) whose [password] and [secret] values are plain
    strings and whose probe blocks are containers, the config in memory
    after the read is the document as it was parsed, and the mtime of the
    file is remembered. *)
Theorem read_plain_document {Config : Type} `{EqDecision Config}
    `{Y : Yaml} `{F : Config.Fernet} `{!Config.FernetLaws F}
    (st : probe Config) (f : file) (now : Z) (doc : dict) :
  Some (st_mtime f) ≠ _local_config_mtime st →
  safe_load (text f) = Some (VDict doc) →
  doc ≠ [] →
  Config.plain_secrets (VDict doc) = true →
  forallb supports_in (map snd doc) = true →
  _read_local_config st f now =
  (f, Ok (with_local_config st (Some (VDict doc)) (Some (st_mtime f)))).
Proof.
  intros Hm Hload Hdoc Hplain Hin. unfold _read_local_config.
  pose proof (safe_load_text _ _ Hload) as Htext.
  rewrite decide_False by done. rewrite Hload.
  assert (truthy (VDict doc) = true) as -> by by destruct doc.
  cbn [Config.encrypt truthy].
  assert (Config.decrypt (Config.encrypt_walk (VDict doc)) = Ok (VDict doc))
    as ->.
  { destruct (ConfigFacts.restored_all (VDict doc) Hplain Htext)
      as [[Hw _] _].
    exact Hw. }
  cbn [dict_values]. by rewrite Hin.
Qed.

Lemma read_plain_document_witness :
  @_read_local_config Z (fixed_yaml (VDict Config.example_conf))
    Config.marker_fernet ping_probe example_file 9 =
  (example_file,
   Ok (with_local_config ping_probe (Some (VDict Config.example_conf))
         (Some (st_mtime example_file)))).
Proof.
  apply (@read_plain_document Z _ (fixed_yaml (VDict Config.example_conf))
           Config.marker_fernet ConfigFacts.marker_fernet_laws ping_probe
           example_file 9 Config.example_conf).
  - discriminate.
  - reflexivity.
  - discriminate.
  - reflexivity.
  - reflexivity.
Defined.

(** ** More about reconciliation *)

Section MoreReconcile.
Context {Config : Type} `{EqDecision Config}.
Implicit Types st : probe Config.
Implicit Types new : gmap path (names * Config).

Lemma set_new_funs st new :
  _checks_funs (_set_new_checks_config st new) = _checks_funs st.
Proof. unfold _set_new_checks_config. by destruct (foldl _ _ _). Qed.

(** A desired path keeps its entry unless its config has changed and
    its task is in the cancelled state. *)
Lemma set_new_keeps_entry st new p t :
  _checks st !! p = Some t →
  is_Some (new !! p) →
  new !! p = _checks_config st !! p ∨ cancelled (tasks st) t = false →
  _checks (_set_new_checks_config st new) !! p = Some t.
Proof.
  intros Hc Hnew Hkeep. unfold _set_new_checks_config.
  set (desired := dom new).
  set (tasks1 := foldr cancel (tasks st) _).
  set (checks1 := filter _ (_checks st)).
  assert (checks1 !! p = Some t) as Hc1.
  { apply map_lookup_filter_Some. split; [done|]. cbn [fst snd]. split.
    - by apply elem_of_dom.
    - intros [Hne Hcan]. destruct Hkeep; congruence. }
  destruct (foldl spawn (checks1, tasks1) (elements (desired ∖ dom checks1)))
    as [checks2 tasks2] eqn:Hspawn.
  cbn [with_checks _checks].
  change checks2 with (fst (checks2, tasks2)). rewrite <- Hspawn.
  rewrite spawn_all_checks; [done|].
  rewrite elem_of_elements, elem_of_difference, elem_of_dom.
  intros [_ Hn]. apply Hn. eauto.
Qed.

Lemma cancel_running (tsk : gmap nat task_state) t t' b :
  tsk !! t = Some (TaskRunning b) →
  ∃ b', cancel t' tsk !! t = Some (TaskRunning b') ∧
        (b = true → b' = true) ∧ (t' = t → b' = true).
Proof.
  intros Ht. unfold cancel.
  destruct (decide (t' = t)) as [->|Hne].
  - rewrite Ht, lookup_insert_eq. eauto.
  - destruct (tsk !! t') as [[b0| |]|]; rewrite ?lookup_insert_ne by done;
      exists b; done.
Qed.

Lemma cancel_all_requested (ts : list nat) (tsk : gmap nat task_state) t b :
  tsk !! t = Some (TaskRunning b) →
  ∃ b', foldr cancel tsk ts !! t = Some (TaskRunning b') ∧
        (b = true → b' = true) ∧ (t ∈ ts → b' = true).
Proof.
  intros Ht. induction ts as [|t' ts (b1 & H1 & Hb & Hin)].
  - exists b. split; [done|]. split; [done|]. by intros ?%elem_of_nil.
  - cbn [foldr].
    destruct (cancel_running _ t t' b1 H1) as (b2 & H2 & Hb2 & Heq).
    exists b2. split; [done|]. split; [tauto|].
    intros [->|Hts]%elem_of_cons; [by apply Heq|]. by apply Hb2, Hin.
Qed.

(** A path that is dropped has the cancellation of its task requested. *)
Lemma set_new_cancels st new p t b :
  new !! p = None →
  _checks st !! p = Some t →
  tasks st !! t = Some (TaskRunning b) →
  tasks (_set_new_checks_config st new) !! t = Some (TaskRunning true).
Proof.
  intros Hnew Hc Ht. unfold _set_new_checks_config.
  set (desired := dom new).
  set (ids := map snd (map_to_list _)).
  set (tasks1 := foldr cancel (tasks st) ids).
  set (checks1 := filter _ (_checks st)).
  assert (t ∈ ids) as Hin.
  { subst ids. apply list_elem_of_fmap. exists (p, t). split; [done|].
    apply elem_of_map_to_list, map_lookup_filter_Some. split; [done|].
    cbn [fst]. by apply not_elem_of_dom. }
  destruct (cancel_all_requested ids (tasks st) t b Ht) as (b' & Hb' & _ & Hreq).
  rewrite (Hreq Hin) in Hb'.
  destruct (foldl spawn (checks1, tasks1) (elements (desired ∖ dom checks1)))
    as [checks2 tasks2] eqn:Hspawn.
  cbn [with_checks tasks].
  change tasks2 with (snd (checks2, tasks2)). rewrite <- Hspawn.
  by apply spawn_all_tasks.
Qed.

(** A desired path whose config has changed and whose task is in the
    cancelled state gets a new task. *)
Lemma set_new_restarts st new p t e :
  _checks st !! p = Some t →
  cancelled (tasks st) t = true →
  new !! p = Some e →
  _checks_config st !! p ≠ Some e →
  ∃ t', _checks (_set_new_checks_config st new) !! p = Some t' ∧
        t' ≠ t ∧
        tasks (_set_new_checks_config st new) !! t' = Some (TaskRunning false).
Proof.
  intros Hc Hcan Hnew Hold. unfold _set_new_checks_config.
  set (desired := dom new).
  set (ids := map snd (map_to_list _)).
  set (tasks1 := foldr cancel (tasks st) ids).
  set (checks1 := filter _ (_checks st)).
  assert (p ∈ elements (desired ∖ dom checks1)) as Hp.
  { rewrite elem_of_elements, elem_of_difference.
    split; [apply elem_of_dom; eauto|].
    intros [t0 Ht0]%elem_of_dom.
    apply map_lookup_filter_Some in Ht0 as [Ht0 [_ Hno]]. cbn [fst snd] in Hno.
    apply Hno. split; [congruence|]. congruence. }
  destruct (spawn_all_started _ (checks1, tasks1) p Hp) as (t' & Ht1 & Ht2 & Ht3).
  destruct (foldl spawn (checks1, tasks1) (elements (desired ∖ dom checks1)))
    as [checks2 tasks2] eqn:Hspawn.
  cbn [with_checks _checks tasks]. exists t'. cbn [fst snd] in Ht1, Ht2, Ht3.
  split; [done|]. split; [|done].
  intros ->. apply Ht3, elem_of_dom. subst tasks1.
  unfold cancelled in Hcan.
  destruct (tasks st !! t) as [s|] eqn:Hs; [|done].
  clear -Hs. induction ids as [|t' ts IH]; [eauto|].
  cbn [foldr]. by apply cancel_keeps_task.
Qed.

Lemma spawn_handles_ok acc (q : path) : handles_ok acc → handles_ok (spawn acc q).
Proof.
  intros [Hknown Hdist].
  pose proof (is_fresh (dom (snd acc))) as Hfresh.
  assert (∀ p t, fst acc !! p = Some t → t ≠ fresh (dom (snd acc))) as Hold.
  { intros p t Hp ->. apply Hfresh, elem_of_dom. by eapply Hknown. }
  unfold spawn. split; cbn [fst snd].
  - intros p t Hp. destruct (decide (q = p)) as [->|Hne].
    + rewrite lookup_insert_eq in Hp. simplify_eq. by rewrite lookup_insert_eq.
    + rewrite lookup_insert_ne in Hp by done.
      rewrite lookup_insert_ne by (symmetry; eauto). eauto.
  - intros p1 p2 t H1 H2.
    destruct (decide (q = p1)) as [E1|Hne1];
      destruct (decide (q = p2)) as [E2|Hne2]; [congruence|..].
    + subst p1. rewrite lookup_insert_eq in H1.
      rewrite lookup_insert_ne in H2 by done.
      simplify_eq. by apply Hold in H2.
    + subst p2. rewrite lookup_insert_eq in H2.
      rewrite lookup_insert_ne in H1 by done.
      simplify_eq. by apply Hold in H1.
    + rewrite lookup_insert_ne in H1, H2 by done. eauto.
Qed.

Lemma spawn_all_handles_ok (l : list path) acc :
  handles_ok acc → handles_ok (foldl spawn acc l).
Proof.
  revert acc. induction l as [|q l IH]; intros acc Hok; [done|].
  cbn [foldl]. by apply IH, spawn_handles_ok.
Qed.

Lemma cancel_all_keeps (ts : list nat) (tsk : gmap nat task_state) t :
  is_Some (tsk !! t) → is_Some (foldr cancel tsk ts !! t).
Proof.
  intros Ht. induction ts as [|t' ts IH]; [done|].
  cbn [foldr]. by apply cancel_keeps_task.
Qed.

Lemma set_new_tables_ok st new :
  (∀ p nm config, new !! p = Some (nm, config) → snd nm ∈ _checks_funs st) →
  tables_ok st → tables_ok (_set_new_checks_config st new).
Proof.
  intros Hkeys [_ _ Hknown Hdist].
  pose proof (set_new_running_desired st new) as Hdom.
  pose proof (set_new_checks_config_config st new) as Hcfg.
  pose proof (set_new_funs st new) as Hfuns.
  assert (handles_ok (_checks (_set_new_checks_config st new),
                      tasks (_set_new_checks_config st new))) as [Hk Hd].
  { unfold _set_new_checks_config.
    set (desired := dom new).
    set (ids := map snd (map_to_list _)).
    set (tasks1 := foldr cancel (tasks st) ids).
    set (checks1 := filter _ (_checks st)).
    assert (handles_ok (checks1, tasks1)) as Hok1.
    { split; cbn [fst snd].
      - intros p t [Hp _]%map_lookup_filter_Some.
        apply cancel_all_keeps. eauto.
      - intros p1 p2 t [H1 _]%map_lookup_filter_Some
          [H2 _]%map_lookup_filter_Some. eauto. }
    pose proof (spawn_all_handles_ok (elements (desired ∖ dom checks1)) _ Hok1)
      as Hok2.
    by destruct (foldl spawn (checks1, tasks1) (elements (desired ∖ dom checks1))). }
  split.
  - by rewrite Hdom, Hcfg.
  - rewrite Hcfg, Hfuns. exact Hkeys.
  - exact Hk.
  - exact Hd.
Qed.

Lemma handle_tables_ok st ev : tables_ok st → tables_ok (handle st ev).
Proof.
  intros Hok. destruct ev as [assets|asset_ids|[asset_id checks]|my_task];
    cbn [handle].
  - apply set_new_tables_ok; [|done]. intros p nm config He.
    by apply registered_lookup in He as [? _].
  - apply set_new_tables_ok; [|done]. intros p nm config He.
    apply map_lookup_filter_Some in He as [He _].
    by eapply (keys_registered st Hok).
  - apply set_new_tables_ok; [|done]. intros p nm config He.
    cbn [fst snd] in He. revert He. rewrite upsert_config_lookup.
    match goal with
    | |- context [match ?x with Some _ => _ | None => _ end] =>
        destruct x as [e|] eqn:Hr
    end.
    + intros [= ->]. apply registered_lookup in Hr as [Hk _]. exact Hk.
    + case_decide; [done|]. intros He. by eapply (keys_registered st Hok).
  - destruct Hok as [Hdom Hkeys Hknown Hdist]. split; cbn; try done.
    intros p t Hp. destruct (decide (my_task = t)) as [->|Hne].
    + by rewrite lookup_insert_eq.
    + rewrite lookup_insert_ne by done. eauto.
Qed.

End MoreReconcile.

(** X24.  After every reconciliation the running paths are the desired
    paths, which are the configured paths. *)
Theorem reconcile_running_is_desired {Config : Type} `{EqDecision Config}
    (st : probe Config) (new : gmap path (names * Config)) :
  dom (_checks (_set_new_checks_config st new)) = dom new ∧
  dom (_checks (_set_new_checks_config st new)) =
  dom (_checks_config (_set_new_checks_config st new)).
Proof.
  split; [apply set_new_running_desired|].
  by rewrite set_new_running_desired, set_new_checks_config_config.
Qed.

(** X25.  A reconciliation with the same config a second time changes
    nothing: no task is cancelled, none is started. *)
Theorem reconcile_idempotent {Config : Type} `{EqDecision Config}
    (st : probe Config) (new : gmap path (names * Config)) :
  _set_new_checks_config (_set_new_checks_config st new) new =
  _set_new_checks_config st new.
Proof.
  pose proof (set_new_running_desired st new) as Hdom.
  pose proof (set_new_checks_config_config st new) as Hcfg.
  assert (∃ cfg chk tsk, _set_new_checks_config st new = with_checks st cfg chk tsk)
    as (cfg & chk & tsk & Hst1).
  { unfold _set_new_checks_config. destruct (foldl _ _ _). eauto. }
  rewrite Hst1 in Hdom, Hcfg |- *. cbn [_checks _checks_config with_checks] in *.
  subst cfg. unfold _set_new_checks_config at 1.
  cbn [_checks _checks_config tasks with_checks].
  assert (filter (fun kv : path * nat => fst kv ∉ dom new) chk = ∅) as ->.
  { apply map_empty_filter_2. intros p t Hp. cbn [fst]. intros Hn.
    apply Hn. rewrite <- Hdom. apply elem_of_dom. eauto. }
  rewrite map_to_list_empty. cbn [map foldr].
  assert (filter (fun kv : path * nat =>
                    fst kv ∈ dom new ∧
                    ¬ (new !! fst kv ≠ new !! fst kv ∧
                       cancelled tsk (snd kv) = true)) chk = chk) as ->.
  { apply map_filter_id. intros p t Hp. cbn [fst snd]. split.
    - rewrite <- Hdom. apply elem_of_dom. eauto.
    - intros [Hne _]. by apply Hne. }
  rewrite Hdom, difference_diag_L, elements_empty. reflexivity.
Qed.

(** X26.  A reconciliation that keeps a path leaves it with the task it
    has, unless the config of the path has changed and the task is in the
    cancelled state: a change of config alone starts no second loop, the
    running loop reads the new config at its next tick. *)
Theorem reconcile_keeps_running {Config : Type} `{EqDecision Config}
    (st : probe Config) (new : gmap path (names * Config)) (p : path)
    (t : nat) :
  _checks st !! p = Some t →
  is_Some (new !! p) →
  cancelled (tasks st) t = false →
  _checks (_set_new_checks_config st new) !! p = Some t ∧
  _checks_config (_set_new_checks_config st new) !! p = new !! p.
Proof.
  intros Hc Hnew Hcan. split.
  - apply set_new_keeps_entry; auto.
  - by rewrite set_new_checks_config_config.
Qed.

Lemma reconcile_keeps_running_witness :
  _checks (_set_new_checks_config two_assets {[(1, 10) := (("alpha", "ping"), 5)]})
    !! (1, 10) = Some 1%nat ∧
  _checks_config
    (_set_new_checks_config two_assets {[(1, 10) := (("alpha", "ping"), 5)]})
    !! (1, 10) =
  ({[(1, 10) := (("alpha", "ping"), 5)]} : gmap path (names * Z)) !! (1, 10).
Proof.
  apply (reconcile_keeps_running two_assets
           {[(1, 10) := (("alpha", "ping"), 5)]} (1, 10) 1).
  - vm_compute. reflexivity.
  - vm_compute. eauto.
  - vm_compute. reflexivity.
Defined.

(** X27.  A reconciliation that keeps a path whose task is in the
    cancelled state and whose config has changed drops the dead entry and
    starts a new task for the path. *)
Theorem reconcile_restarts_cancelled {Config : Type} `{EqDecision Config}
    (st : probe Config) (new : gmap path (names * Config)) (p : path)
    (t : nat) (e : names * Config) :
  _checks st !! p = Some t →
  cancelled (tasks st) t = true →
  new !! p = Some e →
  _checks_config st !! p ≠ Some e →
  ∃ t', _checks (_set_new_checks_config st new) !! p = Some t' ∧
        t' ≠ t ∧
        tasks (_set_new_checks_config st new) !! t' = Some (TaskRunning false).
Proof. apply set_new_restarts. Qed.

Lemma reconcile_restarts_cancelled_witness :
  ∃ t', _checks (_set_new_checks_config alpha_cancelled
                   {[(1, 10) := (("alpha", "ping"), 5)]}) !! (1, 10) = Some t' ∧
        t' ≠ 1%nat ∧
        tasks (_set_new_checks_config alpha_cancelled
                 {[(1, 10) := (("alpha", "ping"), 5)]}) !! t' =
        Some (TaskRunning false).
Proof.
  apply (reconcile_restarts_cancelled alpha_cancelled
           {[(1, 10) := (("alpha", "ping"), 5)]} (1, 10) 1
           (("alpha", "ping"), 5)).
  - vm_compute. reflexivity.
  - vm_compute. reflexivity.
  - vm_compute. reflexivity.
  - vm_compute. discriminate.
Defined.

(** X28.  [_on_unset_assets] removes the assignments of the listed
    assets and no other: their paths leave the config and the map of
    running checks, and the cancellation of their running tasks is
    requested. *)
Theorem unset_assets_removes {Config : Type} `{EqDecision Config}
    (st : probe Config) (asset_ids : list Z) (p : path) :
  _checks_config (_on_unset_assets st asset_ids) !! p =
    (if decide (fst p ∈ asset_ids) then None else _checks_config st !! p) ∧
  (fst p ∈ asset_ids → _checks (_on_unset_assets st asset_ids) !! p = None) ∧
  (∀ t b, fst p ∈ asset_ids →
          _checks st !! p = Some t →
          tasks st !! t = Some (TaskRunning b) →
          tasks (_on_unset_assets st asset_ids) !! t = Some (TaskRunning true)).
Proof.
  unfold _on_unset_assets.
  set (new := filter _ (_checks_config st)).
  assert (new !! p =
          if decide (fst p ∈ asset_ids) then None else _checks_config st !! p)
    as Hnew.
  { subst new. case_decide as Hin.
    - apply map_lookup_filter_None. right. intros e _. cbn [fst]. tauto.
    - apply option_eq. intros e. rewrite map_lookup_filter_Some. cbn [fst].
      split; [by intros [? _]|by intros ?]. }
  split; [by rewrite set_new_checks_config_config|]. split.
  - intros Hin. apply set_new_drops_undesired. by rewrite Hnew, decide_True.
  - intros t b Hin Hc Ht. eapply set_new_cancels; [|done..].
    by rewrite Hnew, decide_True.
Qed.

(** X29.  In every probe that can be reached by push messages and loops
    that end, the running paths are the configured paths, every
    configured check has a check function, and every running path has a
    task of its own: the lookups at the start of [_run_check_loop] find
    their keys. *)
Theorem reachable_tables_ok {Config : Type} `{EqDecision Config}
    (name : string) (checks : gset string) (st : probe Config) :
  reachable name checks st →
  tables_ok st ∧
  ∀ p, is_Some (_checks st !! p) →
       ∃ nm config, _checks_config st !! p = Some (nm, config) ∧
                    snd nm ∈ _checks_funs st.
Proof.
  intros Hreach.
  assert (tables_ok st) as Hok.
  { induction Hreach as [|st ev _ IH]; [|by apply handle_tables_ok].
    split; cbn; try done; intros; simplify_map_eq. }
  split; [exact Hok|]. intros p Hp.
  apply elem_of_dom in Hp. rewrite (running_configured st Hok) in Hp.
  apply elem_of_dom in Hp as [[nm config] He].
  exists nm, config. split; [done|]. by eapply (keys_registered st Hok).
Qed.

Lemma reachable_tables_ok_witness :
  tables_ok two_assets ∧
  ∀ p, is_Some (_checks two_assets !! p) →
       ∃ nm config, _checks_config two_assets !! p = Some (nm, config) ∧
                    snd nm ∈ _checks_funs two_assets.
Proof.
  apply (reachable_tables_ok "myprobe" {["ping"]} two_assets).
  apply (reachable_handle "myprobe" {["ping"]} ping_probe
           (SetAssets [((1, 10), ("alpha", "ping"), 300);
                       ((1, 11), ("alpha", "ping"), 60);
                       ((2, 20), ("beta", "ping"), 300)])).
  apply reachable_init.
Defined.

End ProbeFacts.
